(** * The Git fetcher and the ZIP accessor of libfetchers

    A shallow embedding of [src/libfetchers/git.cc] and
    [src/libfetchers/zip-input-accessor.cc].  Child processes, the file
    system, the clock, the fetcher cache and the store are an explicit
    environment whose answers may depend on everything the program did
    before; what the program does to them is recorded in a trace. *)

From Stdlib Require Import ZArith String Ascii List Lia Sorted.
From stdpp Require Import gmap strings list fin_maps pretty.

Local Open Scope string_scope.
Local Open Scope Z_scope.

(** ** Results of C++ computations *)

(** The exception classes the two files throw or catch.  All but
    [StdException] derive from [nix::Error]; [std::stoull] throws a
    standard exception that a [catch (Error &)] does not intercept. *)
Inductive Exn :=
| Error (msg : string)
| ExecError (status : Z) (msg : string)
| BadURL (msg : string)
| BadHash (msg : string)
| UnimplementedError (msg : string)
| StdException (what : string).

Definition isError (e : Exn) : bool :=
  match e with StdException _ => false | _ => true end.

(** A computation returns, throws, fails an [assert], or leaves the
    behaviour the language defines (reading through an empty
    [std::optional]). *)
Inductive outcome (A : Type) :=
| Ret (a : A)
| Throw (e : Exn)
| AssertionFailure (what : string)
| Undefined (what : string).
Arguments Ret {A} a.
Arguments Throw {A} e.
Arguments AssertionFailure {A} what.
Arguments Undefined {A} what.

Definition obind {A B} (c : outcome A) (f : A -> outcome B) : outcome B :=
  match c with
  | Ret a => f a
  | Throw e => Throw e
  | AssertionFailure w => AssertionFailure w
  | Undefined w => Undefined w
  end.

(** The outcome of a call that returns or throws. *)
Definition call {A} (r : Exn + A) : outcome A :=
  match r with
  | inl e => Throw e
  | inr a => Ret a
  end.

(** [defined o]: [o] is a return or an exception. *)
Definition defined {A} (o : outcome A) : Prop :=
  match o with
  | Ret _ | Throw _ => True
  | _ => False
  end.

#[global] Instance outcome_ret : MRet outcome := fun A a => Ret a.
#[global] Instance outcome_bind : MBind outcome := fun A B f c => obind c f.

(** ** C strings *)

(** [strchr s c]: the suffix of [s] that starts at the first [c]. *)
Fixpoint strchr (s : string) (c : ascii) : option string :=
  match s with
  | EmptyString => None
  | String a s' => if Ascii.eqb a c then Some s else strchr s' c
  end.

(** [std::string::find(needle) != npos]. *)
Definition str_contains (needle hay : string) : bool :=
  match String.index 0 needle hay with Some _ => true | None => false end.

Fixpoint drop_chars (n : nat) (s : string) : string :=
  match n, s with
  | O, _ => s
  | S n', String _ s' => drop_chars n' s'
  | S _, EmptyString => EmptyString
  end.

(** [%o] of an unsigned number. *)
Fixpoint octal_digits (fuel : nat) (n : N) (acc : string) : string :=
  match fuel with
  | O => acc
  | S fuel' =>
      let d := ascii_of_N (48 + n mod 8) in
      if (n <? 8)%N then String d acc
      else octal_digits fuel' (n / 8)%N (String d acc)
  end.

Definition fmt_octal (z : Z) : string :=
  octal_digits 32 (Z.to_N z) EmptyString.

(** * The ZIP accessor *)

Module Zip.

(** ** The archive, as libzip shows it *)

Definition ZIP_OPSYS_UNIX : Z := 3.

(** One entry of the central directory.  [de_contents] is what
    [zip_fopen_index] and [zip_fread] deliver ([None]: the member cannot
    be opened); [de_extattr] is what [zip_file_get_external_attributes]
    reports ([None]: the call returns -1), the origin system as a
    [zip_uint8_t] and the attributes as a [zip_uint32_t]. *)
Record zip_dirent := {
  de_name : string;
  de_size : N;
  de_contents : option string;
  de_extattr : option (Z * Z);
}.

Abbreviation zip := (list zip_dirent).

Record zip_stat := {
  name : string;
  index : nat;
  size : N;
}.

Definition zip_get_num_entries (za : zip) : nat := length za.

Definition zip_stat_index (za : zip) (n : nat) : option zip_stat :=
  match za !! n with
  | Some de => Some {| name := de_name de; index := n; size := de_size de |}
  | None => None
  end.

Definition zip_file_get_external_attributes (za : zip) (n : nat) : option (Z * Z) :=
  match za !! n with
  | Some de => de_extattr de
  | None => None
  end.

(** ** [std::map<const char *, struct zip_stat, cmp_str>] *)

Definition cmp_str (a b : string) : bool := String.ltb a b.

(** The map is the list of its pairs in key order; an iterator is the
    part of the list from its element onwards, and [end()] is [[]]. *)
Definition Members := list (string * zip_stat).

Fixpoint emplace (k : string) (v : zip_stat) (m : Members) : Members :=
  match m with
  | [] => [(k, v)]
  | (k', v') :: m' =>
      if cmp_str k k' then (k, v) :: m
      else if cmp_str k' k then (k', v') :: emplace k v m'
      else m
  end.

Fixpoint find (k : string) (m : Members) : Members :=
  match m with
  | [] => []
  | (k', v') :: m' =>
      if cmp_str k k' || cmp_str k' k then find k m' else m
  end.

(** ** The accessor *)

(** Modelled from the spec: [InputAccessor::Type] and [Stat], declared
    in input-accessor.hh: a file is regular, with an executable bit, a
    directory or a symbolic link (section 4.H). *)
Inductive Type_ := tRegular | tSymlink | tDirectory | tMisc.

Definition Type_to_Z (t : Type_) : Z :=
  match t with tRegular => 0 | tSymlink => 1 | tDirectory => 2 | tMisc => 3 end.

Record Stat := {
  type : Type_;
  isExecutable : bool;
}.

Abbreviation DirEntries := (gmap string (option Type_)).

Definition entries_emplace (n : string) (v : option Type_) (es : DirEntries)
  : DirEntries :=
  match es !! n with
  | Some _ => es
  | None => <[n := v]> es
  end.

(** The constructor's loop over the entries [n], [n+1], ... *)
Fixpoint index_loop (zipPath : string) (za : zip) (n count : nat) (members : Members)
  : outcome Members :=
  match count with
  | O => Ret members
  | S count' =>
      match zip_stat_index za n with
      | None =>
          Throw (Error ("couldn't stat archive member in '" +:+ zipPath +:+ "'"))
      | Some sb =>
          match strchr (name sb) "/" with
          | None => index_loop zipPath za (S n) count' members
          | Some slash => index_loop zipPath za (S n) count' (emplace slash sb members)
          end
      end
  end.

Definition ZipInputAccessor (zipPath : string) (za : zip) : outcome Members :=
  index_loop zipPath za 0 (zip_get_num_entries za) [].

Section Accessor.

(** [canonPath], a path utility of util.hh (section 1), is a
    parameter. *)
Variable canonPath : string -> string.

Variable zipPath : string.
Variable zipFile : zip.
Variable members : Members.

Definition readFile (_path : string) : outcome string :=
  let path := canonPath _path in
  match find path members with
  | [] => Throw (Error ("file '" +:+ path +:+ "' does not exist"))
  | (_, sb) :: _ =>
      match zipFile !! index sb with
      | Some {| de_contents := Some data |} =>
          let buf := String.substring 0 (N.to_nat (size sb)) data in
          if (N.of_nat (String.length buf) =? size sb)%N then Ret buf
          else Throw (Error ("couldn't read archive member '" +:+ path +:+ "' in '"
                             +:+ zipPath +:+ "'"))
      | _ => Throw (Error ("couldn't open archive member '" +:+ path +:+ "' in '"
                           +:+ zipPath +:+ "'"))
      end
  end.

Definition pathExists (_path : string) : bool :=
  let path := canonPath _path in
  match find path members with [] => false | _ :: _ => true end.

(** In [lstat] the declaration [auto type = ...] under [case
    ZIP_OPSYS_UNIX] opens a second variable, [type_sw] here; the
    assignments of the inner switch go to it, and the [Stat] is built
    from the [type] of the function's own scope. *)
Definition lstat (_path : string) : outcome Stat :=
  let path := canonPath _path in
  let type := tRegular in
  let isExecutable := false in
  let i := find path members in
  let '(i, type) :=
    match i with
    | [] => (find (path +:+ "/") members, tDirectory)
    | _ :: _ => (i, type)
    end in
  match i with
  | [] => Throw (Error ("file '" +:+ path +:+ "' does not exist"))
  | (_, sb) :: _ =>
      match zip_file_get_external_attributes zipFile (index sb) with
      | None =>
          Throw (Error ("couldn't get external attributes of '" +:+ path +:+ "' in '"
                        +:+ zipPath +:+ "'"))
      | Some (opsys, attributes) =>
          if opsys =? ZIP_OPSYS_UNIX then
            let type_sw := Z.land (Z.shiftr attributes 16) 0x3F000 (* 0770000 *) in
            if type_sw =? 0x4000 (* 0040000 *) then
              let type_sw := Type_to_Z tDirectory in
              Ret {| type := type; isExecutable := isExecutable |}
            else if type_sw =? 0x8000 (* 0100000 *) then
              let type_sw := Type_to_Z tRegular in
              let isExecutable :=
                negb (Z.land (Z.shiftr attributes 16) 0x40 (* 0000100 *) =? 0) in
              Ret {| type := type; isExecutable := isExecutable |}
            else if type_sw =? 0xA000 (* 0120000 *) then
              let type_sw := Type_to_Z tSymlink in
              Ret {| type := type; isExecutable := isExecutable |}
            else
              Throw (Error ("file '" +:+ path +:+ "' in '" +:+ zipPath
                            +:+ "' has unsupported type " +:+ fmt_octal type_sw))
          else
            Ret {| type := type; isExecutable := isExecutable |}
      end
  end.

(** The loop of [readDirectory], from the iterator [i] on. *)
Fixpoint readDirectory_loop (path : string) (i : Members) (entries : DirEntries)
  : DirEntries :=
  match i with
  | [] => entries
  | (first, _) :: i' =>
      if String.prefix path first then
        let start := drop_chars (String.length path) first in
        match strchr start "/" with
        | Some slash =>
            if String.eqb slash "/" then
              let name := String.substring 0 (String.length start - String.length slash) start in
              readDirectory_loop path i' (entries_emplace name None entries)
            else readDirectory_loop path i' entries
        | None =>
            readDirectory_loop path i' (entries_emplace start None entries)
        end
      else entries
  end.

Definition readDirectory (_path : string) : outcome DirEntries :=
  let path := canonPath _path +:+ "/" in
  match find path members with
  | [] => Throw (Error ("directory '" +:+ path +:+ "' does not exist"))
  | _ :: i => Ret (readDirectory_loop path i ∅)
  end.

Definition readLink (path : string) : outcome string :=
  Throw (UnimplementedError "ZipInputAccessor::readLink").

End Accessor.

(** ** What is said about the index *)

Definition keys (m : Members) : list string := map fst m.

(** [first_slash_key za k]: some entry's name has [k] as the suffix
    from its first slash on. *)
Definition first_slash_key (za : zip) (k : string) : Prop :=
  exists n sb, zip_stat_index za n = Some sb /\ strchr (name sb) "/" = Some k.

(** ** What is said about the order of the index and about listings *)

(** The order of the [std::map]: [cmp_str] on the keys. *)
Definition key_lt (a b : string * zip_stat) : Prop := cmp_str a.1 b.1 = true.

(** The pairs of a map come in the strict order of their keys. *)
Definition ordered (m : Members) : Prop := StronglySorted key_lt m.

(** The state of the constructor's loop before it looks at entry [n]:
    the map is in order; each of its pairs is the first of the entries
    before [n] whose name has the key as the suffix from its first
    slash; and every such suffix of an entry before [n] is a key. *)
Definition first_entries (za : zip) (n : nat) (m : Members) : Prop :=
  ordered m
  /\ (forall k sb, In (k, sb) m ->
        (index sb < n)%nat
        /\ zip_stat_index za (index sb) = Some sb
        /\ strchr (name sb) "/" = Some k
        /\ forall j sb', (j < index sb)%nat -> zip_stat_index za j = Some sb' ->
                         strchr (name sb') "/" <> Some k)
  /\ (forall j sb k, (j < n)%nat -> zip_stat_index za j = Some sb ->
        strchr (name sb) "/" = Some k -> In k (keys m)).

(** [entry_name path k name]: the key [k] is [path] followed by [name],
    which has no slash, or by [name] and one slash. *)
Definition entry_name (path k name : string) : Prop :=
  strchr name "/" = None /\ (k = path +:+ name \/ k = path +:+ name +:+ "/").

(** What one turn of the loop of [readDirectory] makes of the key
    [first], which has the prefix [path]: the name it enters, if it
    enters one. *)
Definition child_name (path first : string) : option string :=
  let start := drop_chars (String.length path) first in
  match strchr start "/" with
  | Some slash =>
      if String.eqb slash "/"
      then Some (String.substring 0 (String.length start - String.length slash) start)
      else None
  | None => Some start
  end.

End Zip.

(** * The Git input scheme *)

Module Git.

(** ** Attributes, URLs and hashes *)

(** Modelled from the spec: [Attr], [Attrs] and their accessors, declared
    in attrs.hh, whose code is not among the sources.  An input is a set
    of attributes (section 3); [fetchers::Attr] is a variant of a
    string, a [uint64_t] and an explicit [bool], and [Attrs] is a
    [std::map] from names to them.  An accessor returns the value under
    a name, throws when the value has another type, and in its [get]
    form throws when there is none. *)
Inductive Attr :=
| AttrString (s : string)
| AttrInt (n : N)
| AttrBool (b : bool).

Abbreviation Attrs := (gmap string Attr).

(** [std::map::emplace]: no effect when the key is taken. *)
Definition emplace {V} (k : string) (v : V) (m : gmap string V) : gmap string V :=
  match m !! k with
  | Some _ => m
  | None => <[k := v]> m
  end.

Definition maybeGetStrAttr (attrs : Attrs) (name : string) : outcome (option string) :=
  match attrs !! name with
  | None => Ret None
  | Some (AttrString s) => Ret (Some s)
  | Some _ => Throw (Error ("input attribute '" +:+ name +:+ "' is not a string"))
  end.

Definition getStrAttr (attrs : Attrs) (name : string) : outcome string :=
  s ← maybeGetStrAttr attrs name;
  match s with
  | Some s => Ret s
  | None => Throw (Error ("input attribute '" +:+ name +:+ "' is missing"))
  end.

Definition maybeGetIntAttr (attrs : Attrs) (name : string) : outcome (option N) :=
  match attrs !! name with
  | None => Ret None
  | Some (AttrInt n) => Ret (Some n)
  | Some _ => Throw (Error ("input attribute '" +:+ name +:+ "' is not an integer"))
  end.

Definition getIntAttr (attrs : Attrs) (name : string) : outcome N :=
  n ← maybeGetIntAttr attrs name;
  match n with
  | Some n => Ret n
  | None => Throw (Error ("input attribute '" +:+ name +:+ "' is missing"))
  end.

Definition maybeGetBoolAttr (attrs : Attrs) (name : string) : outcome (option bool) :=
  match attrs !! name with
  | None => Ret None
  | Some (AttrBool b) => Ret (Some b)
  | Some _ => Throw (Error ("input attribute '" +:+ name +:+ "' is not a Boolean"))
  end.

(** Modelled from the spec: [ParsedURL], declared in url.hh, a URL by
    its scheme, authority, path, query parameters and fragment (sections
    4.G and 6), with the text it was parsed from. *)
Record ParsedURL := {
  url_url : string;
  url_base : string;
  url_scheme : string;
  url_authority : option string;
  url_path : string;
  url_query : gmap string string;
  url_fragment : string;
}.

(** [ParsedURL::operator ==] compares the parts, not the text they were
    parsed from. *)
Definition same_url (u v : ParsedURL) : Prop :=
  url_scheme u = url_scheme v /\ url_authority u = url_authority v
  /\ url_path u = url_path v /\ url_query u = url_query v
  /\ url_fragment u = url_fragment v.

Definition set_scheme (u : ParsedURL) (s : string) : ParsedURL :=
  {| url_url := url_url u; url_base := url_base u; url_scheme := s;
     url_authority := url_authority u; url_path := url_path u;
     url_query := url_query u; url_fragment := url_fragment u |}.

Definition set_query (u : ParsedURL) (q : gmap string string) : ParsedURL :=
  {| url_url := url_url u; url_base := url_base u; url_scheme := url_scheme u;
     url_authority := url_authority u; url_path := url_path u;
     url_query := q; url_fragment := url_fragment u |}.

Inductive HashType := htMD5 | htSHA1 | htSHA256 | htSHA512.

(** Modelled from the spec: [Hash], declared in hash.hh, by its
    algorithm and its rendering in base 16; a revision is a SHA-1 or
    SHA-256 commit id in hexadecimal (section 3), which [gitRev]
    gives. *)
Record Hash := {
  hash_type : HashType;
  hash_base16 : string;
}.

Definition gitRev (h : Hash) : string := hash_base16 h.

#[global] Instance HashType_eq_dec : EqDecision HashType.
Proof. solve_decision. Defined.

#[global] Instance Hash_eq_dec : EqDecision Hash.
Proof. solve_decision. Defined.

Inductive LsRemoteKind := Symbolic | Object.

Record LsRemoteRefLine := {
  kind : LsRemoteKind;
  target : string;
}.

(** The library functions that the file calls and whose code is not
    among the sources (url.hh, hash.hh, url-parts.hh, git-utils.hh,
    util.hh, canon-path.hh), as parameters.  A parser returns its value
    or the exception it throws. *)
Class Externals := {
  parseURL : string -> Exn + ParsedURL;
  url_to_string : ParsedURL -> string;
  (** [std::regex_search(ref, badGitRefRegex)] *)
  badGitRef : string -> bool;
  (** [Hash::parseAny] and [Hash::parseAnyPrefixed] *)
  parseHash : string -> Exn + Hash;
  (** [hashString(htSHA256, key).to_string(Base32, false)] *)
  hashString : string -> string;
  parseLsRemoteLine : string -> option LsRemoteRefLine;
  (** [std::stoull] and [string2Int<uint64_t>] *)
  stoull : string -> option N;
  string2Int : string -> option N;
  CanonPath : string -> string;
}.

Record Input := {
  attrs : Attrs;
}.

Section Scheme.

Context {X : Externals}.

(** Modelled from the spec: [Input::getRev], [getRef] and [getName],
    declared in fetchers.hh: the attributes [rev] (parsed as a hash),
    [ref] and [name] of the input (section 3), the name being "source"
    when there is none. *)
Definition getRev (input : Input) : outcome (option Hash) :=
  s ← maybeGetStrAttr (attrs input) "rev";
  match s with
  | None => Ret None
  | Some s => h ← call (parseHash s); Ret (Some h)
  end.

Definition getRef (input : Input) : outcome (option string) :=
  maybeGetStrAttr (attrs input) "ref".

Definition getName (input : Input) : outcome string :=
  s ← maybeGetStrAttr (attrs input) "name";
  Ret (default "source" s).

Definition supported_attribute (name : string) : bool :=
  bool_decide (name ∈ ["type"; "url"; "ref"; "rev"; "shallow"; "submodules";
                       "lastModified"; "revCount"; "narHash"; "allRefs"; "name"]).

(** The loop over the attributes runs in key order and throws at the
    first name that is not supported. *)
Definition first_unsupported (attrs : Attrs) : option string :=
  foldr (fun (kv : string * Attr) acc =>
           if supported_attribute kv.1 then acc
           else match acc with
                | Some n => if String.ltb kv.1 n then Some kv.1 else acc
                | None => Some kv.1
                end)
        None (map_to_list attrs).

Definition inputFromAttrs (attrs : Attrs) : outcome (option Input) :=
  ty ← maybeGetStrAttr attrs "type";
  if negb (bool_decide (ty = Some "git")) then Ret None
  else
    match first_unsupported attrs with
    | Some name => Throw (Error ("unsupported Git input attribute '" +:+ name +:+ "'"))
    | None =>
        url ← getStrAttr attrs "url";
        _ ← call (parseURL url);
        _ ← maybeGetBoolAttr attrs "shallow";
        _ ← maybeGetBoolAttr attrs "submodules";
        _ ← maybeGetBoolAttr attrs "allRefs";
        ref ← maybeGetStrAttr attrs "ref";
        match ref with
        | Some ref =>
            if badGitRef ref then
              Throw (BadURL ("invalid Git branch/tag name '" +:+ ref +:+ "'"))
            else Ret (Some {| attrs := attrs |})
        | None => Ret (Some {| attrs := attrs |})
        end
    end.

(** One turn of the loop of [inputFromURL] over the query. *)
Definition promote_param (acc : Attrs * gmap string string) (kv : string * string)
  : Attrs * gmap string string :=
  let '(attrs, query) := acc in
  let '(name, value) := kv in
  if bool_decide (name = "rev") || bool_decide (name = "ref") then
    (emplace name (AttrString value) attrs, query)
  else if bool_decide (name = "shallow") || bool_decide (name = "submodules") then
    (emplace name (AttrBool (bool_decide (value = "1"))) attrs, query)
  else
    (attrs, emplace name value query).

Definition inputFromURL (url : ParsedURL) : outcome (option Input) :=
  if negb (bool_decide (url_scheme url ∈
             ["git"; "git+http"; "git+https"; "git+ssh"; "git+file"])) then Ret None
  else
    let url2 := url in
    let url2 :=
      if String.prefix "git+" (url_scheme url2)
      then set_scheme url2 (drop_chars 4 (url_scheme url2)) else url2 in
    let url2 := set_query url2 ∅ in
    let attrs : Attrs := emplace "type" (AttrString "git") ∅ in
    let '(attrs, query2) :=
      fold_left promote_param (map_to_list (url_query url)) (attrs, url_query url2) in
    let url2 := set_query url2 query2 in
    let attrs := emplace "url" (AttrString (url_to_string url2)) attrs in
    inputFromAttrs attrs.

Definition toURL (input : Input) : outcome ParsedURL :=
  s ← getStrAttr (attrs input) "url";
  url ← call (parseURL s);
  let url :=
    if negb (String.eqb (url_scheme url) "git")
    then set_scheme url ("git+" +:+ url_scheme url) else url in
  rev ← getRev input;
  let url :=
    match rev with
    | Some rev => set_query url (<["rev" := gitRev rev]> (url_query url))
    | None => url
    end in
  ref ← getRef input;
  let url :=
    match ref with
    | Some ref => set_query url (<["ref" := ref]> (url_query url))
    | None => url
    end in
  shallow ← maybeGetBoolAttr (attrs input) "shallow";
  let url :=
    if default false shallow
    then set_query url (<["shallow" := "1"]> (url_query url)) else url in
  Ret url.

(** Modelled from the spec: [Input::to_string], declared in
    fetchers.hh, the text of the URL form of the input (section 4.G):
    [toURL().to_string()]. *)
Definition Input_to_string (input : Input) : outcome string :=
  url ← toURL input;
  Ret (url_to_string url).

Definition applyOverrides (input : Input) (ref : option string) (rev : option Hash)
  : outcome Input :=
  let res := input in
  let res :=
    match rev with
    | Some rev => {| attrs := <["rev" := AttrString (gitRev rev)]> (attrs res) |}
    | None => res
    end in
  let res :=
    match ref with
    | Some ref => {| attrs := <["ref" := AttrString ref]> (attrs res) |}
    | None => res
    end in
  r ← getRef res;
  match r with
  | Some _ => Ret res
  | None =>
      h ← getRev res;
      match h with
      | Some _ =>
          s ← Input_to_string res;
          Throw (Error ("Git input '" +:+ s
                        +:+ "' has a commit hash but no branch/tag name"))
      | None => Ret res
      end
  end.

Definition isLocked (input : Input) : outcome bool :=
  r ← getRev input;
  Ret (bool_decide (is_Some r)).

Definition getSubmodulesAttr (input : Input) : outcome bool :=
  b ← maybeGetBoolAttr (attrs input) "submodules";
  Ret (default false b).

Definition getFingerprint (input : Input) : outcome (option string) :=
  r ← getRev input;
  match r with
  | Some rev =>
      sm ← getSubmodulesAttr input;
      Ret (Some (gitRev rev +:+ ";" +:+ (if sm : bool then "1" else "0")))
  | None => Ret None
  end.

End Scheme.

(** ** The environment and the trace *)

(** The two filters that git.cc passes to [addToStore]: every path, and
    every path whose last component is not [.git]. *)
Inductive PathFilter := defaultPathFilter | isNotDotGitDirectory.

(** What the program does to the world, in the order it does it.  A
    child process is recorded by its argument vector: the program is
    always [git].  Warnings are recorded; messages at the levels of
    [debug] and [printTalkative] and the progress [Activity] objects are
    not. *)
Inductive Event :=
| EvRunProgram (args : list string)
| EvWarn (msg : string)
| EvCreateDirs (path : string)
| EvLock (path : string)
| EvUnlock (path : string)
| EvTouch (path : string) (time : Z)
| EvWriteFile (path contents : string)
| EvCreateTempDir (path : string)
| EvDeletePath (path : string)
| EvUnpackTarfile (dest : string)
| EvUpsertFact (key value : string)
| EvCacheAdd (inAttrs infoAttrs : Attrs) (storePath : string) (locked : bool)
| EvAddToStore (name srcPath : string) (filter : PathFilter).

(** What the world answers: the settings, the child processes, the file
    system and the clock, and the fetcher cache and the store through
    the interface of section 6 ([lookup], [add], [queryFact],
    [upsertFact], [queryPathInfo], [addToStore]).  Every answer is a
    function of the trace so far, so a file can appear after a fetch and
    a child process can answer differently the second time. *)
Record Env := {
  (** settings *)
  tarballTtl : Z;
  maxBuildJobs : N;
  allowDirty : bool;
  warnDirtySetting : bool;
  forceHttp : bool;
  getCacheDir : string;
  (** child processes: the wait status and the captured output *)
  run : list Event -> list string -> Z * string;
  (** the clock and the file system *)
  time : list Event -> Z;
  stat_mtime : list Event -> string -> option Z;
  path_exists : list Event -> string -> bool;
  read_file : list Event -> string -> option string;
  lutimes : list Event -> string -> Z -> bool;
  strerror_errno : list Event -> string;
  temp_dir : list Event -> string;
  (** the fetcher cache and the store *)
  cache_lookup : list Event -> Attrs -> option (Attrs * string);
  query_fact : list Event -> string -> option string;
  nar_hash : list Event -> string -> string;
  add_to_store : list Event -> string -> string -> PathFilter -> string;
}.

(** A computation reads the trace, extends it, and ends in an outcome. *)
Definition M (A : Type) : Type := list Event -> outcome A * list Event.

#[global] Instance M_ret : MRet M := fun A a tr => (Ret a, tr).

#[global] Instance M_bind : MBind M := fun A B f c tr =>
  match c tr with
  | (Ret a, tr') => f a tr'
  | (Throw e, tr') => (Throw e, tr')
  | (AssertionFailure w, tr') => (AssertionFailure w, tr')
  | (Undefined w, tr') => (Undefined w, tr')
  end.

Definition lift {A} (o : outcome A) : M A := fun tr => (o, tr).

Definition throw {A} (e : Exn) : M A := lift (Throw e).

Definition emit (ev : Event) : M unit := fun tr => (Ret tt, (tr ++ [ev])%list).

(** [try { c } catch (...) { h }]: [h e] is [None] when no handler takes
    [e]. *)
Definition try_catch {A} (c : M A) (h : Exn -> option (M A)) : M A := fun tr =>
  match c tr with
  | (Throw e, tr') =>
      match h e with
      | Some k => k tr'
      | None => (Throw e, tr')
      end
  | r => r
  end.

(** A destructor that runs when the scope is left, by a return or by an
    exception. *)
Definition at_scope_exit {A} (c : M A) (cleanup : Event) : M A := fun tr =>
  match c tr with
  | (Ret a, tr') => (Ret a, (tr' ++ [cleanup])%list)
  | (Throw e, tr') => (Throw e, (tr' ++ [cleanup])%list)
  | r => r
  end.

(** [sys/wait.h] *)
Definition WTERMSIG (status : Z) : Z := Z.land status 0x7f.
Definition WIFEXITED (status : Z) : bool := WTERMSIG status =? 0.
Definition WEXITSTATUS (status : Z) : Z := Z.shiftr (Z.land status 0xff00) 8.

Definition statusOk (status : Z) : bool :=
  WIFEXITED status && (WEXITSTATUS status =? 0).

Definition statusToString (status : Z) : string :=
  if WIFEXITED status then "failed with exit code " +:+ pretty (WEXITSTATUS status)
  else "failed due to signal " +:+ pretty (WTERMSIG status).

Definition is_space (c : ascii) : bool :=
  bool_decide (c ∈ [" "%char; "010"%char; "013"%char; "009"%char]).

(** Modelled from the spec: [chomp], a utility of util.hh (section 1):
    the string without the white space at its end. *)
Fixpoint chomp (s : string) : string :=
  match s with
  | EmptyString => EmptyString
  | String c s' =>
      let r := chomp s' in
      if is_space c && String.eqb r "" then "" else String c r
  end.

(** [line.substr(0, line.find("\n"))] *)
Fixpoint first_line (s : string) : string :=
  match s with
  | EmptyString => EmptyString
  | String c s' => if Ascii.eqb c "010" then "" else String c (first_line s')
  end.

(** Modelled from the spec: [tokenizeString], a utility of util.hh
    (section 1), for a separator of one character: the parts between
    separators that are not empty. *)
Fixpoint tokenize (sep : ascii) (cur : string) (s : string) : list string :=
  match s with
  | EmptyString => if String.eqb cur "" then [] else [cur]
  | String c s' =>
      if Ascii.eqb c sep then
        if String.eqb cur "" then tokenize sep "" s' else cur :: tokenize sep "" s'
      else tokenize sep (cur +:+ String c "") s'
  end.

(** The escape sequences of [ANSI_BOLD] and [ANSI_NORMAL]. *)
Definition ANSI_BOLD : string := String "027" "[1m".
Definition ANSI_NORMAL : string := String "027" "[0m".

Definition gitInitialBranch : string := "__nix_dummy_branch".

(** ** The helpers of git.cc *)

(** Modelled from the spec: the accessors that git.cc makes, declared in
    input-accessor.hh and fs-input-accessor.hh (section 9): over a store
    path, over the objects of a revision in a repository, over the
    listed files of a directory; [setPathDisplay] sets the prefix of its
    error messages. *)
Inductive AccessorKind :=
| StorePathAccessor (storePath : string)
| GitInputAccessor (repoDir : string) (rev : Hash)
| FSInputAccessor (root : string) (allowedPaths : gset string).

Record Accessor := {
  backing : AccessorKind;
  pathDisplay : option string;
}.

Definition makeAccessor (k : AccessorKind) : Accessor :=
  {| backing := k; pathDisplay := None |}.

Definition setPathDisplay (a : Accessor) (s : string) : Accessor :=
  {| backing := backing a; pathDisplay := Some s |}.

Record RepoInfo := {
  shallow : bool;
  submodules : bool;
  allRefs : bool;
  cacheType : string;
  isLocal : bool;
  isDirty : bool;
  hasHead : bool;
  url : string;
  gitDir : string;
}.

Definition set_gitDir (r : RepoInfo) (d : string) : RepoInfo :=
  {| shallow := shallow r; submodules := submodules r; allRefs := allRefs r;
     cacheType := cacheType r; isLocal := isLocal r; isDirty := isDirty r;
     hasHead := hasHead r; url := url r; gitDir := d |}.

Definition set_attr (input : Input) (k : string) (v : Attr) : Input :=
  {| attrs := <[k := v]> (attrs input) |}.

Section Fetch.

Context {X : Externals}.
Variable env : Env.

Definition warn (msg : string) : M unit := emit (EvWarn msg).

(** Modelled from the spec: the three forms of [runProgram], declared in
    util.hh (section 4.A).  The capture form, [runProgram(RunOptions)],
    returns the status and the output and throws nothing. *)
Definition runProgramOpts (args : list string) : M (Z * string) := fun tr =>
  (Ret (run env tr args), (tr ++ [EvRunProgram args])%list).

(** [runProgram("git", true, args)]: the output, or an [ExecError] that
    carries the status when the child did not exit with 0. *)
Definition runProgram (args : list string) : M string :=
  '(status, output) ← runProgramOpts args;
  if statusOk status then mret output
  else throw (ExecError status ("program 'git' " +:+ statusToString status)).

(** [runProgram2]: the output goes to the sink of the caller;
    [ExecError] on any status but 0. *)
Definition runProgram2 (args : list string) : M unit :=
  '(status, _) ← runProgramOpts args;
  if status =? 0 then mret tt
  else throw (ExecError status ("program 'git' " +:+ statusToString status)).

Definition get_time : M Z := fun tr => (Ret (time env tr), tr).
Definition stat (path : string) : M (option Z) := fun tr => (Ret (stat_mtime env tr path), tr).
Definition pathExists (path : string) : M bool := fun tr => (Ret (path_exists env tr path), tr).
Definition get_strerror : M string := fun tr => (Ret (strerror_errno env tr), tr).

Definition readFile (path : string) : M string := fun tr =>
  match read_file env tr path with
  | Some s => (Ret s, tr)
  | None => (Throw (Error ("opening file '" +:+ path +:+ "'")), tr)
  end.

Definition cacheLookup (key : Attrs) : M (option (Attrs * string)) := fun tr =>
  (Ret (cache_lookup env tr key), tr).

Definition queryFact (key : string) : M (option string) := fun tr =>
  (Ret (query_fact env tr key), tr).

Definition queryNarHash (storePath : string) : M string := fun tr =>
  (Ret (nar_hash env tr storePath), tr).

Definition createTempDir : M string := fun tr =>
  let d := temp_dir env tr in (Ret d, (tr ++ [EvCreateTempDir d])%list).

Definition addToStore (name srcPath : string) (filter : PathFilter) : M string := fun tr =>
  (Ret (add_to_store env tr name srcPath filter),
   (tr ++ [EvAddToStore name srcPath filter])%list).

Definition isCacheFileWithinTtl (now st_mtime : Z) : bool :=
  now <? st_mtime + tarballTtl env.

Definition touchCacheFile (path : string) (touch_time : Z) : M bool := fun tr =>
  (Ret (lutimes env tr path touch_time), (tr ++ [EvTouch path touch_time])%list).

Definition getCachePath (key : string) : string :=
  getCacheDir env +:+ "/nix/gitv4/" +:+ hashString key.

Definition getNumJobs : string :=
  if (maxBuildJobs env =? 0)%N then "1" else pretty (maxBuildJobs env).

Definition readHead (path : string) : M (option string) :=
  '(status, output) ← runProgramOpts ["ls-remote"; "--symref"; path];
  if negb (status =? 0) then mret None
  else
    let line := first_line output in
    match parseLsRemoteLine line with
    | Some parseResult => mret (Some (target parseResult))
    | None => mret None
    end.

Definition storeCachedHead (actualUrl headRef : string) : M bool :=
  let cacheDir := getCachePath actualUrl in
  try_catch
    (runProgram ["-C"; cacheDir; "--git-dir"; "."; "symbolic-ref"; "--"; "HEAD"; headRef];;
     mret true)
    (fun e =>
       match e with
       | ExecError status _ =>
           Some (if negb (WIFEXITED status) then throw e else mret false)
       | _ => None
       end).

Definition readHeadCached (actualUrl : string) : M (option string) :=
  let cacheDir := getCachePath actualUrl in
  let headRefFile := cacheDir +:+ "/HEAD" in
  now ← get_time;
  st ← stat headRefFile;
  '(cachedRef, fresh) ←
    match st return M (option string * bool) with
    | Some mtime =>
        cachedRef ← readHead cacheDir;
        mret (cachedRef,
              match cachedRef with
              | Some r => negb (String.eqb r gitInitialBranch)
                          && isCacheFileWithinTtl now mtime
              | None => false
              end)
    | None => mret (None, false)
    end;
  if fresh : bool then mret cachedRef
  else
    ref ← readHead actualUrl;
    match ref with
    | Some _ => mret ref
    | None =>
        match cachedRef with
        | Some r =>
            warn ("could not get HEAD ref for repository '" +:+ actualUrl
                  +:+ "'; using expired cached ref '" +:+ r +:+ "'");;
            mret (Some r)
        | None => mret None
        end
    end.

Definition updateRev (input : Input) (repoInfo : RepoInfo) (ref : string)
  : M (Input * Hash) :=
  r ← lift (getRev input);
  match r with
  | Some r => mret (input, r)
  | None =>
      out ← runProgram ["-C"; url repoInfo; "--git-dir"; gitDir repoInfo; "rev-parse"; ref];
      rev ← lift (call (parseHash (chomp out)));
      mret (set_attr input "rev" (AttrString (gitRev rev)), rev)
  end.

Definition do_stoull (s : string) : M N :=
  match stoull s with
  | Some n => mret n
  | None => throw (StdException "stoull")
  end.

(** [getLastModified] for a ref, not cached. *)
Definition getLastModified_ref (repoInfo : RepoInfo) (repoDir ref : string) : M N :=
  if hasHead repoInfo then
    out ← runProgram ["-C"; repoDir; "--git-dir"; gitDir repoInfo; "log"; "-1";
                      "--format=%ct"; "--no-show-signature"; ref];
    do_stoull out
  else mret 0%N.

(** [getLastModified] for a revision, through the fact cache. *)
Definition getLastModified (repoInfo : RepoInfo) (repoDir : string) (rev : Hash) : M N :=
  if negb (hasHead repoInfo) then mret 0%N
  else
    let key := "git-" +:+ gitRev rev +:+ "-last-modified" in
    lastModifiedS ← queryFact key;
    match lastModifiedS ≫= string2Int with
    | Some lastModified => mret lastModified
    | None =>
        lastModified ← getLastModified_ref repoInfo repoDir (gitRev rev);
        emit (EvUpsertFact key (pretty lastModified));;
        mret lastModified
    end.

Definition getRevCount (repoInfo : RepoInfo) (repoDir : string) (rev : Hash) : M N :=
  if negb (hasHead repoInfo) then mret 0%N
  else
    let key := "git-" +:+ gitRev rev +:+ "-revcount" in
    revCountS ← queryFact key;
    match revCountS ≫= string2Int with
    | Some revCount => mret revCount
    | None =>
        out ← runProgram ["-C"; repoDir; "--git-dir"; gitDir repoInfo; "rev-list";
                          "--count"; gitRev rev];
        revCount ← do_stoull out;
        emit (EvUpsertFact key (pretty revCount));;
        mret revCount
    end.

Definition getDefaultRef (repoInfo : RepoInfo) : M string :=
  head ← (if isLocal repoInfo then readHead (url repoInfo)
          else readHeadCached (url repoInfo));
  match head with
  | None =>
      warn ("could not read HEAD ref from repo at '" +:+ url repoInfo
            +:+ "', using 'master'");;
      mret "master"
  | Some head => mret head
  end.

(** ** [getRepoInfo] *)

Definition checkHashType (hash : option Hash) : M unit :=
  match hash with
  | Some h =>
      if negb (bool_decide (hash_type h = htSHA1) || bool_decide (hash_type h = htSHA256))
      then throw (Error ("Hash '" +:+ hash_base16 h
                         +:+ "' is not supported by Git. Supported types are sha1 and sha256."))
      else mret tt
  | None => mret tt
  end.

Definition getRepoInfo (input : Input) : M RepoInfo :=
  rev ← lift (getRev input);
  (if bool_decide (is_Some rev) then checkHashType rev else mret tt);;
  shallow ← lift (maybeGetBoolAttr (attrs input) "shallow");
  submodules ← lift (getSubmodulesAttr input);
  allRefs ← lift (maybeGetBoolAttr (attrs input) "allRefs");
  let shallow := default false shallow in
  let allRefs := default false allRefs in
  let cacheType := "git" in
  let cacheType := if shallow : bool then cacheType +:+ "-shallow" else cacheType in
  let cacheType := if submodules : bool then cacheType +:+ "-submodules" else cacheType in
  let cacheType := if allRefs : bool then cacheType +:+ "-all-refs" else cacheType in
  s ← lift (getStrAttr (attrs input) "url");
  parsed ← lift (call (parseURL s));
  dotGit ← pathExists (url_path parsed +:+ "/.git");
  let isBareRepository := String.eqb (url_scheme parsed) "file" && negb dotGit in
  let isLocal :=
    String.eqb (url_scheme parsed) "file" && negb (forceHttp env)
    && negb isBareRepository in
  let repoInfo :=
    {| shallow := shallow; submodules := submodules; allRefs := allRefs;
       cacheType := cacheType; isLocal := isLocal; isDirty := false; hasHead := true;
       url := if isLocal then url_path parsed else url_base parsed; gitDir := ".git" |} in
  ref ← lift (getRef input);
  rev ← lift (if bool_decide (is_Some ref) then Ret None else getRev input);
  if negb (bool_decide (is_Some ref)) && negb (bool_decide (is_Some rev)) && isLocal then
    '(status, errorMessage) ←
      runProgramOpts ["-C"; url repoInfo; "--git-dir"; gitDir repoInfo; "rev-parse";
                      "--verify"; "--no-revs"; "HEAD^{commit}"];
    let exitCode := WEXITSTATUS status in
    (if str_contains "fatal: not a git repository" errorMessage then
       throw (Error ("'" +:+ url repoInfo +:+ "' is not a Git repository"))
     else if str_contains "fatal: Needed a single revision" errorMessage then
       mret tt
     else if negb (exitCode =? 0) then
       throw (Error ("getting the HEAD of the Git tree '" +:+ url repoInfo
                     +:+ "' failed with exit code " +:+ pretty exitCode +:+ ":"
                     +:+ String "010" errorMessage))
     else mret tt);;
    let hasHead := exitCode =? 0 in
    isDirty ←
      try_catch
        (if hasHead then
           let gitDiffOpts :=
             ["-C"; url repoInfo; "--git-dir"; gitDir repoInfo; "diff"; "HEAD"; "--quiet"] in
           let gitDiffOpts :=
             if negb submodules then (gitDiffOpts ++ ["--ignore-submodules"])%list
             else gitDiffOpts in
           let gitDiffOpts := (gitDiffOpts ++ ["--"])%list in
           runProgram gitDiffOpts;;
           mret false
         else mret true)
        (fun e =>
           match e with
           | ExecError status _ =>
               Some (if negb (WIFEXITED status) || negb (WEXITSTATUS status =? 1)
                     then throw e else mret true)
           | _ => None
           end);
    mret {| shallow := shallow; submodules := submodules; allRefs := allRefs;
            cacheType := cacheType; isLocal := isLocal; isDirty := isDirty;
            hasHead := hasHead; url := url repoInfo; gitDir := gitDir repoInfo |}
  else mret repoInfo.

Definition listFiles (repoInfo : RepoInfo) : M (gset string) :=
  let gitOpts := ["-C"; url repoInfo; "--git-dir"; gitDir repoInfo; "ls-files"; "-z"] in
  let gitOpts :=
    if submodules repoInfo then (gitOpts ++ ["--recurse-submodules"])%list else gitOpts in
  out ← runProgram gitOpts;
  mret (list_to_set (map CanonPath (tokenize "000" "" out))).

Definition warnDirty (repoInfo : RepoInfo) : M unit :=
  if isDirty repoInfo then
    if negb (allowDirty env) then
      throw (Error ("Git tree '" +:+ url repoInfo +:+ "' is dirty"))
    else if warnDirtySetting env then
      warn ("Git tree '" +:+ url repoInfo +:+ "' is dirty")
    else mret tt
  else mret tt.

(** ** [getAccessorFromCommit] *)

Definition LAQUO : string := String "194" (String "171" "").
Definition RAQUO : string := String "194" (String "187" "").

Section Commit.

(** The variables the lambdas of [getAccessorFromCommit] capture by
    reference, apart from [input], which the function keeps changing
    and which is passed along. *)
Variable repoInfo : RepoInfo.
Variable origRev : option Hash.
Variable name : string.

Definition getLockedAttrs (input : Input) : M Attrs :=
  r ← lift (getRev input);
  match r with
  | Some rev =>
      mret (<["type" := AttrString (cacheType repoInfo)]>
            (<["name" := AttrString name]>
            (<["rev" := AttrString (gitRev rev)]> ∅)))
  | None => lift (Undefined "input.getRev()->gitRev()")
  end.

Definition makeResult2 (input : Input) (infoAttrs : Attrs) (accessor : Accessor)
  : M (Accessor * Input) :=
  r ← lift (getRev input);
  if negb (bool_decide (is_Some r)) then lift (AssertionFailure "input.getRev()")
  else if negb (bool_decide (origRev = None) || bool_decide (origRev = r)) then
    lift (AssertionFailure "!origRev || origRev == input.getRev()")
  else
    input ←
      (if negb (shallow repoInfo) then
         n ← lift (getIntAttr infoAttrs "revCount");
         mret (set_attr input "revCount" (AttrInt n))
       else mret input);
    n ← lift (getIntAttr infoAttrs "lastModified");
    let input := set_attr input "lastModified" (AttrInt n) in
    s ← lift (Input_to_string input);
    mret (setPathDisplay accessor (LAQUO +:+ s +:+ RAQUO), input).

Definition makeResult (input : Input) (infoAttrs : Attrs) (storePath : string)
  : M (Accessor * Input) :=
  narHash ← queryNarHash storePath;
  let input := set_attr input "narHash" (AttrString narHash) in
  let accessor := makeAccessor (StorePathAccessor storePath) in
  makeResult2 input infoAttrs accessor.

(** Lines 594-629: whether to fetch into the mirror. *)
Definition decideFetch (input : Input) (repoDir localRefFile : string) (now : Z)
  : M bool :=
  r ← lift (getRev input);
  doFetch ←
    match r with
    | Some rev =>
        try_catch
          (runProgram ["-C"; repoDir; "--git-dir"; gitDir repoInfo; "cat-file"; "-e";
                       gitRev rev];;
           mret false)
          (fun e =>
             match e with
             | ExecError status _ => Some (if WIFEXITED status then mret true else throw e)
             | _ => None
             end)
    | None =>
        if allRefs repoInfo then mret true
        else
          st ← stat localRefFile;
          mret match st with
               | None => true
               | Some mtime => negb (isCacheFileWithinTtl now mtime)
               end
    end;
  out ← runProgram ["-C"; repoDir; "--git-dir"; gitDir repoInfo; "rev-parse";
                    "--is-shallow-repository"];
  let isShallow := String.eqb (chomp out) "true" in
  mret (if isShallow && negb (shallow repoInfo) then true else doFetch).

Definition fetchRefOf (ref : string) : string :=
  if allRefs repoInfo then "refs/*"
  else if String.prefix "refs/" ref then ref
  else if String.eqb ref "HEAD" then ref
  else "refs/heads/" +:+ ref.

(** Lines 638-674: the [try] block around [git fetch]. *)
Definition tryFetch (input : Input) (ref repoDir : string) : M unit :=
  let fetchRef := fetchRefOf ref in
  let fetchOpts :=
    ["-C"; repoDir; "--git-dir"; gitDir repoInfo; "fetch"; "--quiet"; "--force";
     "--jobs"; getNumJobs] in
  fetchOpts ←
    (if shallow repoInfo then mret (fetchOpts ++ ["--depth=1"])%list
     else
       out ← runProgram ["-C"; repoDir; "--git-dir"; gitDir repoInfo; "rev-parse";
                         "--is-shallow-repository"];
       if String.eqb (chomp out) "true" then mret (fetchOpts ++ ["--unshallow"])%list
       else mret fetchOpts);
  src ←
    (if shallow repoInfo then
       r ← lift (getRev input);
       match r with
       | Some rev => mret (gitRev rev)
       | None => lift (Undefined "input.getRev()->gitRev()")
       end
     else mret fetchRef);
  runProgram (fetchOpts ++ ["--"; url repoInfo; src +:+ ":" +:+ fetchRef])%list;;
  mret tt.

(** Lines 675-678: the handler of [catch (Error & e)]. *)
Definition fetchFailed (localRefFile : string) (e : Exn) : option (M unit) :=
  if isError e then
    Some (ex ← pathExists localRefFile;
          if negb ex then throw e
          else warn ("could not update local clone of Git repository '"
                     +:+ url repoInfo
                     +:+ "'; continuing with the most recent version"))
  else None.

(** Lines 680-683: what follows the [try] statement. *)
Definition afterFetch (originalRef : option string) (ref localRefFile : string) (now : Z)
  : M unit :=
  touched ← touchCacheFile localRefFile now;
  (if negb touched then
     msg ← get_strerror;
     warn ("could not update mtime for file '" +:+ localRefFile +:+ "': " +:+ msg)
   else mret tt);;
  match originalRef with
  | Some _ => mret tt
  | None =>
      stored ← storeCachedHead (url repoInfo) ref;
      if negb stored then
        warn ("could not update cached head '" +:+ ref +:+ "' for '" +:+ url repoInfo
              +:+ "'")
      else mret tt
  end.

(** Lines 633-684: the body of [if (doFetch)]. *)
Definition fetchIntoMirror (input : Input) (originalRef : option string)
    (ref repoDir localRefFile : string) (now : Z) : M unit :=
  try_catch (tryFetch input ref repoDir) (fetchFailed localRefFile);;
  afterFetch originalRef ref localRefFile now.

End Commit.

(** Modelled from the spec: [dirOf], a path utility of util.hh (section
    1): the path up to its last slash. *)
Fixpoint dirOf_aux (s : string) : option string :=
  match s with
  | EmptyString => None
  | String c s' =>
      match dirOf_aux s' with
      | Some d => Some (String c d)
      | None => if Ascii.eqb c "/" then Some "" else None
      end
  end.

Definition dirOf (s : string) : string :=
  match dirOf_aux s with
  | None => "."
  | Some "" => "/"
  | Some d => d
  end.

(** Lines 589-592: the file of the ref in the mirror. *)
Definition localRefFileOf (cacheDir ref : string) : string :=
  if String.prefix "refs/" ref then cacheDir +:+ "/" +:+ ref
  else cacheDir +:+ "/refs/heads/" +:+ ref.

(** Line 554: the ref of the input, or the default ref of the
    repository. *)
Definition resolveRef (repoInfo : RepoInfo) (originalRef : option string) : M string :=
  match originalRef with
  | Some ref => mret ref
  | None => getDefaultRef repoInfo
  end.

(** Lines 585-687, under the lock of the mirror: create the mirror when
    it is missing, fetch when [decideFetch] says so, and read the
    revision of the ref when the input has none. *)
Definition updateMirror (repoInfo : RepoInfo) (input : Input)
    (originalRef : option string) (ref cacheDir : string) : M Input :=
  let repoDir := cacheDir in
  ex ← pathExists cacheDir;
  (if negb ex then
     runProgram ["-c"; "init.defaultBranch=" +:+ gitInitialBranch; "init"; "--bare";
                 repoDir];;
     mret tt
   else mret tt);;
  let localRefFile := localRefFileOf cacheDir ref in
  now ← get_time;
  doFetch ← decideFetch repoInfo input repoDir localRefFile now;
  (if doFetch : bool then
     fetchIntoMirror repoInfo input originalRef ref repoDir localRefFile now
   else mret tt);;
  r ← lift (getRev input);
  match r with
  | Some _ => mret input
  | None =>
      contents ← readFile localRefFile;
      rev ← lift (call (parseHash (chomp contents)));
      mret (set_attr input "rev" (AttrString (gitRev rev)))
  end.

(** Lines 570-690, the remote case: an early result from the unlocked
    cache record, or the input with its revision, the mirror as the
    directory of the repository, and [repoInfo] with [gitDir = "."]. *)
Definition resolveRemote (repoInfo : RepoInfo) (origRev : option Hash) (name : string)
    (input : Input) (unlockedAttrs : Attrs) (originalRef : option string) (ref : string)
  : M ((Accessor * Input) + (Input * string * RepoInfo)) :=
  res ← cacheLookup unlockedAttrs;
  hit ←
    match res return M (option (Accessor * Input)) with
    | Some (infoAttrs, storePath) =>
        s ← lift (getStrAttr infoAttrs "rev");
        rev2 ← lift (call (parseHash s));
        r ← lift (getRev input);
        if negb (bool_decide (is_Some r)) || bool_decide (r = Some rev2) then
          let input := set_attr input "rev" (AttrString (gitRev rev2)) in
          result ← makeResult repoInfo origRev input infoAttrs storePath;
          mret (Some result)
        else mret None
    | None => mret None
    end;
  match hit with
  | Some result => mret (inl result)
  | None =>
      let cacheDir := getCachePath (url repoInfo) in
      let repoDir := cacheDir in
      let repoInfo := set_gitDir repoInfo "." in
      emit (EvCreateDirs (dirOf cacheDir));;
      emit (EvLock (cacheDir +:+ ".lock"));;
      input ← at_scope_exit (updateMirror repoInfo input originalRef ref cacheDir)
                            (EvUnlock (cacheDir +:+ ".lock"));
      mret (inr (input, repoDir, repoInfo))
  end.

(** Lines 749-900: the work tree with its submodules. *)
Definition checkoutSubmodules (repoInfo : RepoInfo) (input : Input)
    (repoDir tmpDir : string) : M unit :=
  tmpGitDirForLocalSource ← createTempDir;
  at_scope_exit
    (pathToGitFolder ←
       (if isLocal repoInfo then
          runProgram ["-c"; "init.defaultBranch=" +:+ gitInitialBranch; "init"; tmpDir;
                      "--separate-git-dir"; tmpGitDirForLocalSource;
                      "--reference"; repoDir;
                      "-c"; "submodule.alternateLocation=superproject"];;
          mret tmpGitDirForLocalSource
        else mret (repoDir +:+ "/" +:+ gitDir repoInfo));
     (if isLocal repoInfo then
        config ← readFile (repoDir +:+ "/" +:+ gitDir repoInfo +:+ "/config");
        emit (EvWriteFile (pathToGitFolder +:+ "/config") config);;
        runProgram ["--git-dir"; pathToGitFolder; "--work-tree"; tmpDir;
                    "config"; "core.bare"; "false"];;
        mret tt
      else
        runProgram ["--git-dir"; pathToGitFolder; "--work-tree"; tmpDir;
                    "config"; "remote.origin.url"; url repoInfo];;
        mret tt);;
     r ← lift (getRev input);
     rev ← match r with
           | Some rev => mret rev
           | None => lift (Undefined "input.getRev()->gitRev()")
           end;
     runProgram ["--git-dir"; pathToGitFolder; "--work-tree"; tmpDir;
                 "checkout"; "--quiet"; gitRev rev; "."];;
     (if negb (shallow repoInfo) then
        runProgram ["--git-dir"; pathToGitFolder; "--work-tree"; tmpDir; "-C"; tmpDir;
                    "submodule"; "foreach"; "--recursive";
                    "git fetch --unshallow --jobs=" +:+ getNumJobs];;
        mret tt
      else mret tt);;
     let args :=
       ["--git-dir"; pathToGitFolder; "--work-tree"; tmpDir; "-C"; tmpDir;
        "submodule"; "update"; "--init"; "--recursive"; "--quiet"; "--recommend-shallow";
        "--jobs"; getNumJobs] in
     let args := if shallow repoInfo then (args ++ ["--depth=1"])%list else args in
     try_catch
       (let argsNoFetch := (args ++ ["--no-fetch"])%list in
        runProgram2 argsNoFetch)
       (fun e =>
          match e with
          | ExecError _ _ => Some (runProgram args;; mret tt)
          | _ => None
          end))
    (EvDeletePath tmpGitDirForLocalSource).

Definition revNotFoundMessage (rev ref url : string) : string :=
  "Cannot find Git revision '" +:+ rev +:+ "' in ref '" +:+ ref +:+ "' of repository '"
  +:+ url +:+ "'! Please make sure that the " +:+ ANSI_BOLD +:+ "rev" +:+ ANSI_NORMAL
  +:+ " exists on the " +:+ ANSI_BOLD +:+ "ref" +:+ ANSI_NORMAL
  +:+ " you've specified or add " +:+ ANSI_BOLD +:+ "allRefs = true;" +:+ ANSI_NORMAL
  +:+ " to " +:+ ANSI_BOLD +:+ "fetchGit" +:+ ANSI_NORMAL +:+ ".".

(** Lines 719-932: the accessor of a revision the cache does not have. *)
Definition materialize (repoInfo : RepoInfo) (origRev : option Hash) (name : string)
    (input : Input) (unlockedAttrs infoAttrs : Attrs) (ref repoDir : string) (rev : Hash)
  : M (Accessor * Input) :=
  if negb (submodules repoInfo) then
    let accessor := makeAccessor (GitInputAccessor (CanonPath repoDir) rev) in
    makeResult2 repoInfo origRev input infoAttrs accessor
  else
    tmpDir ← createTempDir;
    at_scope_exit
      ('(status, output) ←
         runProgramOpts ["-C"; repoDir; "--git-dir"; gitDir repoInfo; "cat-file";
                         "commit"; gitRev rev];
       if (WEXITSTATUS status =? 128) && str_contains "bad file" output then
         throw (Error (revNotFoundMessage (gitRev rev) ref (url repoInfo)))
       else
         _ ← lift (Input_to_string input);
         filter ←
           (if submodules repoInfo then
              checkoutSubmodules repoInfo input repoDir tmpDir;;
              mret isNotDotGitDirectory
            else
              runProgram2 ["-C"; repoDir; "--git-dir"; gitDir repoInfo; "archive";
                           gitRev rev];;
              emit (EvUnpackTarfile tmpDir);;
              mret defaultPathFilter);
         storePath ← addToStore name tmpDir filter;
         (if negb (bool_decide (is_Some origRev)) then
            emit (EvCacheAdd unlockedAttrs infoAttrs storePath false)
          else mret tt);;
         lockedAttrs ← getLockedAttrs repoInfo name input;
         emit (EvCacheAdd lockedAttrs infoAttrs storePath true);;
         makeResult repoInfo origRev input infoAttrs storePath)
      (EvDeletePath tmpDir).

(** Lines 692-932: from the shallowness check on. *)
Definition finishCommit (repoInfo : RepoInfo) (origRev : option Hash) (name : string)
    (input : Input) (unlockedAttrs : Attrs) (ref repoDir : string)
  : M (Accessor * Input) :=
  out ← runProgram ["-C"; repoDir; "--git-dir"; gitDir repoInfo; "rev-parse";
                    "--is-shallow-repository"];
  let isShallow := String.eqb (chomp out) "true" in
  if isShallow && negb (shallow repoInfo) then
    throw (Error ("'" +:+ url repoInfo +:+ "' is a shallow Git repository, but shallow "
                  +:+ "repositories are only allowed when `shallow = true;` is specified"))
  else
    r ← lift (getRev input);
    match r with
    | None => lift (Undefined "*input.getRev()")
    | Some rev =>
        lastModified ← getLastModified repoInfo repoDir rev;
        let infoAttrs : Attrs :=
          <["rev" := AttrString (gitRev rev)]>
            (<["lastModified" := AttrInt lastModified]> ∅) in
        infoAttrs ←
          (if negb (shallow repoInfo) then
             revCount ← getRevCount repoInfo repoDir rev;
             mret (<["revCount" := AttrInt revCount]> infoAttrs)
           else mret infoAttrs);
        lockedAttrs ← getLockedAttrs repoInfo name input;
        res ← cacheLookup lockedAttrs;
        match res with
        | Some (cachedInfo, storePath) =>
            makeResult repoInfo origRev input cachedInfo storePath
        | None =>
            materialize repoInfo origRev name input unlockedAttrs infoAttrs ref repoDir rev
        end
    end.

Definition getAccessorFromCommit (repoInfo : RepoInfo) (input : Input)
  : M (Accessor * Input) :=
  if isDirty repoInfo then lift (AssertionFailure "!repoInfo.isDirty")
  else
    origRev ← lift (getRev input);
    name ← lift (getName input);
    cached ←
      (if bool_decide (is_Some origRev) then
         lockedAttrs ← getLockedAttrs repoInfo name input;
         cacheLookup lockedAttrs
       else mret None);
    match cached with
    | Some (cachedInfo, storePath) =>
        makeResult repoInfo origRev input cachedInfo storePath
    | None =>
        originalRef ← lift (getRef input);
        ref ← resolveRef repoInfo originalRef;
        let input := set_attr input "ref" (AttrString ref) in
        let unlockedAttrs : Attrs :=
          <["type" := AttrString (cacheType repoInfo)]>
            (<["name" := AttrString name]>
            (<["url" := AttrString (url repoInfo)]>
            (<["ref" := AttrString ref]> ∅))) in
        resolved ←
          (if isLocal repoInfo then
             '(input, _) ← updateRev input repoInfo ref;
             mret (inr (input, url repoInfo, repoInfo))
           else
             resolveRemote repoInfo origRev name input unlockedAttrs originalRef ref);
        match resolved with
        | inl result => mret result
        | inr (input, repoDir, repoInfo) =>
            finishCommit repoInfo origRev name input unlockedAttrs ref repoDir
        end
    end.

(** ** [getAccessorFromCheckout] and [getAccessor] *)

Definition getAccessorFromCheckout (repoInfo : RepoInfo) (input : Input)
  : M (Accessor * Input) :=
  input ←
    (if negb (isDirty repoInfo) then
       ref ← getDefaultRef repoInfo;
       let input := set_attr input "ref" (AttrString ref) in
       '(input, rev) ← updateRev input repoInfo ref;
       revCount ← getRevCount repoInfo (url repoInfo) rev;
       let input := set_attr input "revCount" (AttrInt revCount) in
       lastModified ← getLastModified repoInfo (url repoInfo) rev;
       mret (set_attr input "lastModified" (AttrInt lastModified))
     else
       warnDirty repoInfo;;
       lastModified ← getLastModified_ref repoInfo (url repoInfo) "HEAD";
       mret (set_attr input "lastModified" (AttrInt lastModified)));
  files ← listFiles repoInfo;
  mret (makeAccessor (FSInputAccessor (CanonPath (url repoInfo)) files), input).

Definition getAccessor (_input : Input) : M (Accessor * Input) :=
  let input := _input in
  repoInfo ← getRepoInfo input;
  ref ← lift (getRef input);
  rev ← lift (if bool_decide (is_Some ref) then Ret None else getRev input);
  if bool_decide (is_Some ref) || bool_decide (is_Some rev) || negb (isLocal repoInfo) then
    getAccessorFromCommit repoInfo input
  else
    getAccessorFromCheckout repoInfo input.

Definition clone (input : Input) (destDir : string) : M unit :=
  repoInfo ← getRepoInfo input;
  let args := ["clone"; url repoInfo] in
  ref ← lift (getRef input);
  let args := match ref with
              | Some ref => (args ++ ["--branch"; ref])%list
              | None => args
              end in
  rev ← lift (getRev input);
  if bool_decide (is_Some rev) then
    throw (UnimplementedError "cloning a specific revision is not implemented")
  else
    runProgram (args ++ [destDir])%list;;
    mret tt.

End Fetch.

(** ** [putFile] *)

Section PutFile.

Context {X : Externals}.
Variable env : Env.

(** [CanonPath::operator +] and [CanonPath::rel] of canon-path.hh, and
    the failure of [writeFile] of util.hh (the message of its
    [SysError], when the file cannot be written), are parameters. *)
Variable canon_join : string -> string -> string.
Variable canon_rel : string -> string.
Variable write_error : list Event -> string -> option string.

Definition writeFile (path contents : string) : M unit := fun tr =>
  match write_error tr path with
  | Some msg => (Throw (Error msg), tr)
  | None => (Ret tt, (tr ++ [EvWriteFile path contents])%list)
  end.

Definition putFile (input : Input) (path contents : string) (commitMsg : option string)
  : M unit :=
  repoInfo ← getRepoInfo env input;
  if negb (isLocal repoInfo) then
    s ← lift (Input_to_string input);
    throw (Error ("cannot commit '" +:+ path +:+ "' to Git repository '" +:+ s
                  +:+ "' because it's not a working tree"))
  else
    let absPath := canon_join (CanonPath (url repoInfo)) path in
    writeFile absPath contents;;
    runProgram env ["-C"; url repoInfo; "--git-dir"; gitDir repoInfo; "add";
                    "--intent-to-add"; "--"; canon_rel path];;
    match commitMsg with
    | Some msg =>
        runProgram env ["-C"; url repoInfo; "--git-dir"; gitDir repoInfo; "commit";
                        canon_rel path; "-m"; msg];;
        mret tt
    | None => mret tt
    end.

End PutFile.

(** ** What is said about computations *)

(** A child process [git -C <dir> --git-dir <dir> fetch ...], the form
    in which the program calls [git fetch]. *)
Definition is_git_fetch_args (args : list string) : bool :=
  match args with
  | "-C" :: _ :: "--git-dir" :: _ :: "fetch" :: _ => true
  | _ => false
  end.

Definition is_git_fetch (ev : Event) : bool :=
  match ev with
  | EvRunProgram args => is_git_fetch_args args
  | _ => false
  end.

(** [returns Q c]: whenever [c] returns, its value satisfies [Q]. *)
Definition returns {A} (Q : A -> Prop) (c : M A) : Prop :=
  forall tr a tr', c tr = (Ret a, tr') -> Q a.

(** [emits P c]: however [c] ends, it has only added events that
    satisfy [P] to the trace. *)
Definition emits {A} (P : Event -> Prop) (c : M A) : Prop :=
  forall tr o tr', c tr = (o, tr') ->
    exists new, tr' = (tr ++ new)%list /\ Forall P new.

(** [quiet c]: [c] does not run [git fetch]. *)
Abbreviation quiet := (emits (fun ev => is_git_fetch ev = false)).

(** [keeps a b]: the attributes [b] carry [revCount] and [narHash] as
    [a] does. *)
Definition keeps (a b : Attrs) : Prop :=
  b !! "revCount" = a !! "revCount" /\ b !! "narHash" = a !! "narHash".

(** The attributes of a result, for a caller whose input had the
    attributes [a0]. *)
Definition locked_result (sh : bool) (a0 : Attrs) (r : Accessor * Input) : Prop :=
  is_Some (attrs r.2 !! "rev")
  /\ is_Some (attrs r.2 !! "lastModified")
  /\ (sh = false -> is_Some (attrs r.2 !! "revCount"))
  /\ (sh = true -> (is_Some (attrs r.2 !! "revCount") <-> is_Some (a0 !! "revCount")))
  /\ match backing r.1 with
     | StorePathAccessor _ => is_Some (attrs r.2 !! "narHash")
     | _ => is_Some (attrs r.2 !! "narHash") <-> is_Some (a0 !! "narHash")
     end.


(** ** What is said about addresses and repositories *)

(** The query parameters that [inputFromURL] turns into attributes. *)
Definition is_promoted (name : string) : bool :=
  bool_decide (name ∈ ["rev"; "ref"; "shallow"; "submodules"]).

(** The attribute that [inputFromURL] makes of the query parameter
    [name]. *)
Definition promoted (query : gmap string string) (name : string) : option Attr :=
  if bool_decide (name = "rev") || bool_decide (name = "ref") then
    AttrString <$> query !! name
  else if bool_decide (name = "shallow") || bool_decide (name = "submodules") then
    (fun value => AttrBool (bool_decide (value = "1"))) <$> query !! name
  else None.

(** The address without the prefix [git+] of its scheme and without the
    parameters that become attributes. *)
Definition plain_url (url : ParsedURL) : ParsedURL :=
  set_query
    (if String.prefix "git+" (url_scheme url)
     then set_scheme url (drop_chars 4 (url_scheme url)) else url)
    (filter (fun kv : string * string => is_promoted kv.1 = false) (url_query url)).

(** The cache type for the three flags. *)
Definition cacheTypeOf (shallow submodules allRefs : bool) : string :=
  (("git" +:+ (if shallow then "-shallow" else ""))
     +:+ (if submodules then "-submodules" else ""))
    +:+ (if allRefs then "-all-refs" else "").

(** ** What is said about traces *)

(** The keys under which [getLastModified] and [getRevCount] keep what
    they have found about a revision ([Cache::upsertFact]). *)
Definition is_rev_fact (key : string) : Prop :=
  exists rev : Hash,
    key = "git-" +:+ gitRev rev +:+ "-last-modified"
    \/ key = "git-" +:+ gitRev rev +:+ "-revcount".

(** [stores_no_tree ev]: [ev] is no copy into the store and no record
    of a store path in the fetcher cache ([Cache::add]), and it makes
    or deletes no temporary directory, unpacks no tar file and writes
    no file; if it writes a fact to the fetcher cache
    ([Cache::upsertFact]), the fact is the time or the count of a
    revision. *)
Definition stores_no_tree (ev : Event) : Prop :=
  match ev with
  | EvCreateTempDir _ | EvDeletePath _ | EvUnpackTarfile _ | EvWriteFile _ _
  | EvCacheAdd _ _ _ _ | EvAddToStore _ _ _ => False
  | EvUpsertFact key _ => is_rev_fact key
  | _ => True
  end.

(** [git archive], in the form of the call in git.cc, and the unpacking
    of what it writes. *)
Definition is_git_archive (ev : Event) : bool :=
  match ev with
  | EvRunProgram ("-C" :: _ :: "--git-dir" :: _ :: "archive" :: _) => true
  | EvUnpackTarfile _ => true
  | _ => false
  end.

(** A record of the fetcher cache that is not locked. *)
Definition is_unlocked_add (ev : Event) : bool :=
  match ev with
  | EvCacheAdd _ _ _ false => true
  | _ => false
  end.

(** Where the lock of a mirror is taken and released. *)
Definition is_lock_event (ev : Event) : bool :=
  match ev with
  | EvLock _ | EvUnlock _ => true
  | _ => false
  end.

(** [git -c init.defaultBranch=... init --bare <dir>] *)
Definition is_git_init_bare (args : list string) : bool :=
  (length args =? 5)%nat
  && match args with
     | [_; _; "init"; "--bare"; _] => true
     | _ => false
     end.

(** The steps of lines 600-690, which bring a mirror up to date: [git
    init --bare], [git fetch] and [git symbolic-ref] in the forms of
    the calls there, and the setting of a time stamp.  The commands of
    lines 805-897 are not among them: see [is_checkout_step]. *)
Definition is_mirror_fetch_step (ev : Event) : bool :=
  match ev with
  | EvRunProgram args =>
      match args with
      | "-C" :: _ :: "--git-dir" :: _ :: "fetch" :: _ => true
      | "-C" :: _ :: "--git-dir" :: _ :: "symbolic-ref" :: _ => true
      | _ => is_git_init_bare args
      end
  | EvTouch _ _ => true
  | _ => false
  end.

(** The making of a directory of the cache, the taking and the release
    of a lock, and the steps that bring a mirror up to date. *)
Definition is_mirror_work (ev : Event) : bool :=
  is_mirror_fetch_step ev || is_lock_event ev
  || match ev with EvCreateDirs _ => true | _ => false end.

(** [git --git-dir <dir> --work-tree <tmp> ...]: the commands of lines
    805-897 ([config], [checkout], [submodule foreach], [submodule
    update]), which work on the git directory [<dir>]. *)
Definition is_checkout_step (ev : Event) : bool :=
  match ev with
  | EvRunProgram ("--git-dir" :: _ :: "--work-tree" :: _) => true
  | _ => false
  end.

(** [checkout_in_mirror env repoInfo ev]: if [ev] is a command of lines
    805-897 and the repository is not a local one, the git directory
    that the command works on is the mirror of the repository in the
    cache. *)
Definition checkout_in_mirror {X : Externals} (env : Env) (repoInfo : RepoInfo)
    (ev : Event) : Prop :=
  match ev with
  | EvRunProgram ("--git-dir" :: dir :: "--work-tree" :: _) =>
      isLocal repoInfo = false -> dir = getCachePath env (url repoInfo) +:+ "/" +:+ "."
  | _ => True
  end.

(** [lock_scope held tr]: in [tr], which starts with the lock held or
    not, the steps that bring a mirror up to date run only while the
    lock is held, and the commands of lines 805-897 only while no lock
    is held. *)
Fixpoint lock_scope (held : bool) (tr : list Event) : bool :=
  match tr with
  | [] => true
  | EvLock _ :: tr' => lock_scope true tr'
  | EvUnlock _ :: tr' => lock_scope false tr'
  | ev :: tr' =>
      (if held then negb (is_checkout_step ev) else negb (is_mirror_fetch_step ev))
      && lock_scope held tr'
  end.

(** Whether the lock is held at the end of [tr]. *)
Fixpoint lock_held (held : bool) (tr : list Event) : bool :=
  match tr with
  | [] => held
  | EvLock _ :: tr' => lock_held true tr'
  | EvUnlock _ :: tr' => lock_held false tr'
  | _ :: tr' => lock_held held tr'
  end.

(** [locks_well c]: what [c] adds to the trace keeps to [lock_scope],
    and when [c] returns or throws no lock is held. *)
Definition locks_well {A} (c : M A) : Prop :=
  forall tr o tr', c tr = (o, tr') ->
    exists new, tr' = (tr ++ new)%list /\ lock_scope false new = true
                /\ (defined o -> lock_held false new = false).

(** ** What is said about the way a computation ends *)

(** [ends_well E Q c]: [c] fails no assertion; it returns a value that
    satisfies [Q], or throws, or leaves defined behaviour at a point
    that [E] allows. *)
Definition ends_well {A} (E : string -> Prop) (Q : A -> Prop) (c : M A) : Prop :=
  forall tr o tr', c tr = (o, tr') ->
    match o with
    | Ret a => Q a
    | Throw _ => True
    | AssertionFailure _ => False
    | Undefined w => E w
    end.

(** [rev_kept origRev input]: the input has a revision, and it is the
    one the caller gave, if the caller gave one. *)
Definition rev_kept {X : Externals} (origRev : option Hash) (input : Input) : Prop :=
  forall r, getRev input = Ret r -> is_Some r /\ (origRev = None \/ origRev = r).

(** ** What is said about temporary directories *)

(** The making of a temporary directory and the deleting of a path. *)
Definition is_temp_event (ev : Event) : bool :=
  match ev with
  | EvCreateTempDir _ | EvDeletePath _ => true
  | _ => false
  end.

(** [open_temps stack tr]: the temporary directories that are there
    after [tr], the last one first, when [stack] were there before;
    [None] when [tr] deletes a path that is not the directory made
    last. *)
Fixpoint open_temps (stack : list string) (tr : list Event) : option (list string) :=
  match tr with
  | [] => Some stack
  | EvCreateTempDir d :: tr' => open_temps (d :: stack) tr'
  | EvDeletePath d :: tr' =>
      match stack with
      | d' :: stack' => if String.eqb d d' then open_temps stack' tr' else None
      | [] => None
      end
  | _ :: tr' => open_temps stack tr'
  end.

(** [cleans_up c]: when [c] returns or throws, every temporary
    directory that it made has been deleted, and it has deleted nothing
    else. *)
Definition cleans_up {A} (c : M A) : Prop :=
  forall tr o tr', c tr = (o, tr') ->
    exists new, tr' = (tr ++ new)%list
                /\ (defined o -> forall stack, open_temps stack new = Some stack).

End Git.

(** * Concrete archives, libraries and worlds *)

Module Demo.
Import Git.

(** ** Archives *)

(** A member [pkg/link] that a Unix system stored as a symbolic link
    (mode 0120777). *)
Definition symlink_archive : Zip.zip :=
  [ {| Zip.de_name := "pkg/link"; Zip.de_size := 6; Zip.de_contents := Some "target";
       Zip.de_extattr := Some (Zip.ZIP_OPSYS_UNIX, 0xA1FF0000) |} ].

Definition symlink_members : Zip.Members :=
  [ ("/link", {| Zip.name := "pkg/link"; Zip.index := 0; Zip.size := 6 |}) ].

(** A file under [a/] in an archive that has no entry for [a/] itself,
    and a member [README] outside every directory. *)
Definition orphan_archive : Zip.zip :=
  [ {| Zip.de_name := "README"; Zip.de_size := 2; Zip.de_contents := Some "hi";
       Zip.de_extattr := Some (Zip.ZIP_OPSYS_UNIX, 0x81A40000) |};
    {| Zip.de_name := "pkg/a/b.txt"; Zip.de_size := 1; Zip.de_contents := Some "b";
       Zip.de_extattr := Some (Zip.ZIP_OPSYS_UNIX, 0x81A40000) |} ].

Definition orphan_members : Zip.Members :=
  [ ("/a/b.txt", {| Zip.name := "pkg/a/b.txt"; Zip.index := 1; Zip.size := 1 |}) ].

(** Paths that are canonical already. *)
Definition canonical (p : string) : string := p.

(** ** A small library *)

Definition mkURL (scheme authority path : string) (query : gmap string string)
  : ParsedURL :=
  {| url_url := scheme +:+ "://" +:+ authority +:+ path;
     url_base := scheme +:+ "://" +:+ authority +:+ path;
     url_scheme := scheme; url_authority := Some authority; url_path := path;
     url_query := query; url_fragment := "" |}.

(** The parameters of a query in the order of their keys, the order of
    the [std::map] that [ParsedURL::to_string] goes through. *)
Fixpoint insert_param (kv : string * string) (l : list (string * string))
  : list (string * string) :=
  match l with
  | [] => [kv]
  | kv' :: l' => if String.ltb kv.1 kv'.1 then kv :: l else kv' :: insert_param kv l'
  end.

Definition params_in_key_order (q : gmap string string) : list (string * string) :=
  foldr insert_param [] (map_to_list q).

Definition print_query (q : gmap string string) : string :=
  match params_in_key_order q with
  | [] => ""
  | (k, v) :: rest =>
      "?" +:+ k +:+ "=" +:+ v
      +:+ foldr (fun (kv : string * string) acc => "&" +:+ kv.1 +:+ "=" +:+ kv.2 +:+ acc)
                "" rest
  end.

Definition print_url (u : ParsedURL) : string :=
  url_scheme u +:+ ":"
  +:+ match url_authority u with Some a => "//" +:+ a | None => "" end
  +:+ url_path u +:+ print_query (url_query u)
  +:+ (if String.eqb (url_fragment u) "" then "" else "#" +:+ url_fragment u).

(** The parser knows two addresses. *)
Definition parse_url (s : string) : Exn + ParsedURL :=
  if String.eqb s "https://example.org/r.git" then
    inr (mkURL "https" "example.org" "/r.git" ∅)
  else if String.eqb s "file:///work/repo" then
    inr (mkURL "file" "" "/work/repo" ∅)
  else inl (BadURL ("'" +:+ s +:+ "' is not a valid URL")).

Definition is_hex (c : ascii) : bool :=
  let n := N_of_ascii c in
  ((48 <=? n) && (n <=? 57) || (97 <=? n) && (n <=? 102))%N.

Fixpoint all_hex (s : string) : bool :=
  match s with
  | EmptyString => true
  | String c s' => is_hex c && all_hex s'
  end.

Definition parse_hash (s : string) : Exn + Hash :=
  if (String.length s =? 40)%nat && all_hex s then
    inr {| hash_type := htSHA1; hash_base16 := s |}
  else inl (BadHash ("hash '" +:+ s +:+ "' has wrong length for hash type 'sha1'")).

(** The digits at the front of a string. *)
Fixpoint leading_digits (s : string) (acc : option N) : option N :=
  match s with
  | EmptyString => acc
  | String c s' =>
      let n := N_of_ascii c in
      if ((48 <=? n) && (n <=? 57))%N then
        leading_digits s' (Some (10 * default 0 acc + (n - 48)))%N
      else acc
  end.

(** [std::stoull]: the number that the digits at the front of the
    string stand for; none when there is no digit, and none when the
    number does not fit 64 bits. *)
Definition parse_uint64 (s : string) : option N :=
  match leading_digits s None with
  | Some n => if (n <? 2 ^ 64)%N then Some n else None
  | None => None
  end.

Fixpoint all_digits (s : string) : bool :=
  match s with
  | EmptyString => true
  | String c s' =>
      let n := N_of_ascii c in
      ((48 <=? n) && (n <=? 57))%N && all_digits s'
  end.

(** [string2Int<uint64_t>]: the number that the whole string stands
    for, when it fits 64 bits. *)
Definition whole_uint64 (s : string) : option N :=
  if all_digits s then parse_uint64 s else None.

Fixpoint until_tab (s : string) : string :=
  match s with
  | EmptyString => EmptyString
  | String c s' => if Ascii.eqb c "009" then "" else String c (until_tab s')
  end.

Definition parse_ls_remote_line (line : string) : option LsRemoteRefLine :=
  if String.prefix "ref: " line then
    Some {| kind := Symbolic; target := until_tab (drop_chars 5 line) |}
  else if String.eqb line "" then None
  else Some {| kind := Object; target := until_tab line |}.

#[global] Instance library : Externals := {|
  parseURL := parse_url;
  url_to_string := print_url;
  badGitRef := fun ref => String.prefix "-" ref || str_contains ".." ref
                          || str_contains " " ref;
  parseHash := parse_hash;
  hashString := fun key => "k" +:+ pretty (String.length key);
  parseLsRemoteLine := parse_ls_remote_line;
  stoull := parse_uint64;
  string2Int := whole_uint64;
  CanonPath := fun p => p;
|}.

(** ** Worlds *)

Definition nl : string := String "010" "".

Definition rev1 : string := "0123456789abcdef0123456789abcdef01234567".

Definition remote : string := "https://example.org/r.git".

Definition mirror : string := "/cache/nix/gitv4/k25".

Definition main_ref_file : string := mirror +:+ "/refs/heads/main".

Definition has_arg (a : string) (args : list string) : bool := bool_decide (a ∈ args).

Definition ran (p : list string -> bool) (tr : list Event) : bool :=
  existsb (fun ev => match ev with EvRunProgram args => p args | _ => false end) tr.

(** What distinguishes one world from the next: whether the mirror is a
    shallow repository, the wait status of [git fetch], the time stamp
    of the file of the ref [main] in the mirror (when the file is
    there), and the answer of [git cat-file commit]. *)
Record Scenario := {
  mirror_shallow : bool;
  fetch_status : Z;
  ref_mtime : option Z;
  cat_file_commit : Z * string;
}.

(** A world with a mirror of [remote] in place.  The clock stands at
    1000000 and the time to live is an hour.  A fetch with
    [--unshallow] makes the mirror complete, and a fetch that succeeds
    leaves the file of the ref behind. *)
Definition world (sc : Scenario) : Env := {|
  tarballTtl := 3600;
  maxBuildJobs := 4;
  allowDirty := true;
  warnDirtySetting := true;
  forceHttp := false;
  getCacheDir := "/cache";
  run := fun tr args =>
    if has_arg "--is-shallow-repository" args then
      (0, if mirror_shallow sc
             && negb (ran (fun a => has_arg "fetch" a && has_arg "--unshallow" a) tr)
          then "true" +:+ nl else "false" +:+ nl)
    else if has_arg "fetch" args then (fetch_status sc, "")
    else if has_arg "cat-file" args && has_arg "commit" args then cat_file_commit sc
    else if has_arg "cat-file" args then (256, "")
    else if has_arg "log" args then (0, "1700000000" +:+ nl)
    else if has_arg "rev-list" args then (0, "42" +:+ nl)
    else if has_arg "ls-remote" args then
      (0, "ref: refs/heads/main" +:+ String "009" "HEAD" +:+ nl)
    else if has_arg "rev-parse" args then (0, rev1 +:+ nl)
    else (0, "");
  time := fun _ => 1000000;
  stat_mtime := fun _ path =>
    if String.eqb path main_ref_file then ref_mtime sc else None;
  path_exists := fun tr path =>
    String.eqb path mirror
    || String.eqb path main_ref_file
       && (bool_decide (is_Some (ref_mtime sc))
           || (fetch_status sc =? 0) && ran (has_arg "fetch") tr);
  read_file := fun tr path =>
    if String.eqb path main_ref_file
       && (bool_decide (is_Some (ref_mtime sc))
           || (fetch_status sc =? 0) && ran (has_arg "fetch") tr)
    then Some (rev1 +:+ nl) else None;
  lutimes := fun _ _ _ => true;
  strerror_errno := fun _ => "No such file or directory";
  temp_dir := fun tr => "/tmp/nix-" +:+ pretty (length tr);
  cache_lookup := fun _ _ => None;
  query_fact := fun _ _ => None;
  nar_hash := fun _ _ => "sha256-47DEQpj8HBSa+/TImW+5JCeuQeRkm5NMpJWZG3hSuFU=";
  add_to_store := fun _ name _ _ => "/nix/store/0000-" +:+ name;
|}.

Definition git_input (more : list (string * Attr)) : Input :=
  {| attrs := <["type" := AttrString "git"]>
                (<["url" := AttrString remote]> (list_to_map more)) |}.

Definition remote_repo (shallow submodules : bool) : RepoInfo :=
  {| shallow := shallow; submodules := submodules; allRefs := false;
     cacheType := ("git" +:+ (if shallow then "-shallow" else ""))
                  +:+ (if submodules then "-submodules" else "");
     isLocal := false; isDirty := false; hasHead := true;
     url := remote; gitDir := ".git" |}.

(** The file of the ref is 100 seconds old, the mirror is complete. *)
Definition fresh : Scenario :=
  {| mirror_shallow := false; fetch_status := 0; ref_mtime := Some 999900;
     cat_file_commit := (0, "tree 4b825dc642cb6eb9a060e54bf8d69288fbee4904") |}.

(** ** Inputs *)

(** Attributes with a revision and no ref. *)
Definition rev_only_attrs : Attrs :=
  <["type" := AttrString "git"]>
    (<["url" := AttrString remote]> (<["rev" := AttrString rev1]> ∅)).

Definition hash1 : Hash := {| hash_type := htSHA1; hash_base16 := rev1 |}.

(** [git+https://example.org/r.git?submodules=1] *)
Definition submodules_url : ParsedURL :=
  mkURL "git+https" "example.org" "/r.git" {[ "submodules" := "1" ]}.

(** [git+https://example.org/r.git?ref=main&shallow=1] *)
Definition shallow_url : ParsedURL :=
  mkURL "git+https" "example.org" "/r.git" (<["ref" := "main"]> {[ "shallow" := "1" ]}).

(** ** What happened in a trace *)

Definition touched (path : string) (t : Z) (tr : list Event) : bool :=
  existsb (fun ev => match ev with
                     | EvTouch p t' => String.eqb p path && (t' =? t)
                     | _ => false
                     end) tr.

Definition warned (tr : list Event) : bool :=
  existsb (fun ev => match ev with EvWarn _ => true | _ => false end) tr.


(** No file of the ref yet. *)
Definition never_fetched : Scenario :=
  {| mirror_shallow := false; fetch_status := 0; ref_mtime := None;
     cat_file_commit := (0, "tree 4b825dc642cb6eb9a060e54bf8d69288fbee4904") |}.

(** The file of the ref is old, and [git fetch] exits with 128. *)
Definition stale_and_offline : Scenario :=
  {| mirror_shallow := false; fetch_status := 32768; ref_mtime := Some 9900;
     cat_file_commit := (0, "tree 4b825dc642cb6eb9a060e54bf8d69288fbee4904") |}.

(** [git cat-file commit] exits with 128 and says "bad file". *)
Definition commit_missing : Scenario :=
  {| mirror_shallow := false; fetch_status := 0; ref_mtime := Some 999900;
     cat_file_commit := (32768, "fatal: bad file") |}.

Definition main_input : Input := git_input [("ref", AttrString "main")].


(** ** An archive with directories *)

(** The directory [pkg/a/] with a file and a directory that has a file
    of its own, and the executable [pkg/ab]; the last member has the
    name of the third. *)
Definition tree_archive : Zip.zip :=
  [ {| Zip.de_name := "pkg/"; Zip.de_size := 0; Zip.de_contents := Some "";
       Zip.de_extattr := Some (Zip.ZIP_OPSYS_UNIX, 0x41ED0000) |};
    {| Zip.de_name := "pkg/a/"; Zip.de_size := 0; Zip.de_contents := Some "";
       Zip.de_extattr := Some (Zip.ZIP_OPSYS_UNIX, 0x41ED0000) |};
    {| Zip.de_name := "pkg/a/b.txt"; Zip.de_size := 1; Zip.de_contents := Some "b";
       Zip.de_extattr := Some (Zip.ZIP_OPSYS_UNIX, 0x81A40000) |};
    {| Zip.de_name := "pkg/a/c/"; Zip.de_size := 0; Zip.de_contents := Some "";
       Zip.de_extattr := Some (Zip.ZIP_OPSYS_UNIX, 0x41ED0000) |};
    {| Zip.de_name := "pkg/a/c/d"; Zip.de_size := 1; Zip.de_contents := Some "d";
       Zip.de_extattr := Some (Zip.ZIP_OPSYS_UNIX, 0x81A40000) |};
    {| Zip.de_name := "pkg/ab"; Zip.de_size := 2; Zip.de_contents := Some "#!";
       Zip.de_extattr := Some (Zip.ZIP_OPSYS_UNIX, 0x81ED0000) |};
    {| Zip.de_name := "pkg/a/b.txt"; Zip.de_size := 1; Zip.de_contents := Some "B";
       Zip.de_extattr := Some (Zip.ZIP_OPSYS_UNIX, 0x81A40000) |} ].

Definition tree_members : Zip.Members :=
  [ ("/", {| Zip.name := "pkg/"; Zip.index := 0; Zip.size := 0 |});
    ("/a/", {| Zip.name := "pkg/a/"; Zip.index := 1; Zip.size := 0 |});
    ("/a/b.txt", {| Zip.name := "pkg/a/b.txt"; Zip.index := 2; Zip.size := 1 |});
    ("/a/c/", {| Zip.name := "pkg/a/c/"; Zip.index := 3; Zip.size := 0 |});
    ("/a/c/d", {| Zip.name := "pkg/a/c/d"; Zip.index := 4; Zip.size := 1 |});
    ("/ab", {| Zip.name := "pkg/ab"; Zip.index := 5; Zip.size := 2 |}) ].

(** Two members with the same suffix from the first slash. *)
Definition twin_archive : Zip.zip :=
  [ {| Zip.de_name := "a/x"; Zip.de_size := 5; Zip.de_contents := Some "first";
       Zip.de_extattr := Some (Zip.ZIP_OPSYS_UNIX, 0x81A40000) |};
    {| Zip.de_name := "b/x"; Zip.de_size := 6; Zip.de_contents := Some "second";
       Zip.de_extattr := Some (Zip.ZIP_OPSYS_UNIX, 0x81A40000) |} ].

Definition twin_members : Zip.Members :=
  [ ("/x", {| Zip.name := "a/x"; Zip.index := 0; Zip.size := 5 |}) ].

(** ** More addresses, inputs and worlds *)

(** [git+https://example.org/r.git?ref=main&rev=0123...&shallow=1] *)
Definition pinned_url : ParsedURL :=
  mkURL "git+https" "example.org" "/r.git"
    (<["rev" := rev1]> (<["ref" := "main"]> {[ "shallow" := "1" ]})).

(** The input with the revision [rev1] and no ref. *)
Definition pinned_input : Input := git_input [("rev", AttrString rev1)].

(** What the fetcher cache holds for [rev1]. *)
Definition cached_info : Attrs :=
  <["rev" := AttrString rev1]>
    (<["lastModified" := AttrInt 1700000000]> (<["revCount" := AttrInt 42]> ∅)).

(** The fact that the trace has stored under a key last. *)
Definition fact_in (tr : list Event) (key : string) : option string :=
  fold_left (fun acc ev =>
               match ev with
               | EvUpsertFact k v => if String.eqb k key then Some v else acc
               | _ => acc
               end) tr None.

(** The world of [fresh] with changes: the answers of the child
    processes that [answers] gives, the paths in [paths], a record of
    the fetcher cache for every key when [cached] is set, and a fact
    cache that gives back the value it was given last. *)
Definition world_with (answers : list string -> option (Z * string)) (paths : list string)
    (cached : bool) : Env :=
  let w := world fresh in
  {| tarballTtl := tarballTtl w;
     maxBuildJobs := maxBuildJobs w;
     allowDirty := allowDirty w;
     warnDirtySetting := warnDirtySetting w;
     forceHttp := forceHttp w;
     getCacheDir := getCacheDir w;
     run := fun tr args =>
       match answers args with
       | Some answer => answer
       | None => run w tr args
       end;
     time := time w;
     stat_mtime := stat_mtime w;
     path_exists := fun tr path => bool_decide (path ∈ paths) || path_exists w tr path;
     read_file := read_file w;
     lutimes := lutimes w;
     strerror_errno := strerror_errno w;
     temp_dir := temp_dir w;
     cache_lookup := fun _ _ =>
       if cached then Some (cached_info, "/nix/store/0000-source") else None;
     query_fact := fact_in;
     nar_hash := nar_hash w;
     add_to_store := add_to_store w |}.

(** The revision [rev1] is in the mirror: [git cat-file -e] exits
    with 0. *)
Definition present_world : Env :=
  world_with (fun args => if has_arg "cat-file" args && has_arg "-e" args
                          then Some (0, "") else None) [] false.

(** The fetcher cache has a record of every revision. *)
Definition cached_world : Env := world_with (fun _ => None) [] true.

(** A work tree at [/work/repo], where [git diff] exits with
    [diff_status]. *)
Definition checkout : string := "/work/repo".

Definition checkout_world (diff_status : Z) : Env :=
  world_with (fun args => if has_arg "diff" args then Some (diff_status, "") else None)
             [checkout +:+ "/.git"] false.

Definition checkout_input : Input :=
  {| attrs := <["type" := AttrString "git"]>
                (<["url" := AttrString "file:///work/repo"]> ∅) |}.

Definition local_repo (dirty : bool) : RepoInfo :=
  {| shallow := false; submodules := false; allRefs := false; cacheType := "git";
     isLocal := true; isDirty := dirty; hasHead := true;
     url := checkout; gitDir := ".git" |}.

(** Paths as strings: [CanonPath::operator +] and [CanonPath::rel]. *)
Definition join (dir path : string) : string := dir +:+ path.

Definition rel (path : string) : string := drop_chars 1 path.

End Demo.

(** * Properties of the ZIP accessor *)

Module ZipFacts.
Import Zip.

(** ** The order of the map *)

Lemma cmp_str_irrefl a : cmp_str a a = false.
Proof.
  unfold cmp_str, String.ltb.
  destruct (String.compare a a) eqn:E; try reflexivity.
  pose proof (String.compare_antisym a a) as H. rewrite E in H. discriminate.
Qed.

Lemma cmp_str_total a b : cmp_str a b = false -> cmp_str b a = false -> a = b.
Proof.
  unfold cmp_str, String.ltb. intros H1 H2.
  destruct (String.compare a b) eqn:E.
  - now apply String.compare_eq_iff.
  - discriminate.
  - rewrite String.compare_antisym, E in H2. discriminate.
Qed.

Lemma equiv_key_iff a b : cmp_str a b || cmp_str b a = false <-> a = b.
Proof.
  split.
  - intros H. apply orb_false_elim in H as [H1 H2]. now apply cmp_str_total.
  - intros ->. now rewrite cmp_str_irrefl.
Qed.

(** ** [find] and [emplace] *)

Lemma find_spec k m :
  match find k m with
  | [] => ~ In k (keys m)
  | (k', _) :: _ => k' = k /\ In k (keys m)
  end.
Proof.
  induction m as [|[k' v'] m IH]; simpl.
  - tauto.
  - destruct (cmp_str k k' || cmp_str k' k) eqn:E.
    + destruct (find k m) as [|[k'' v''] r].
      * intros [->|H]; [|tauto].
        rewrite cmp_str_irrefl in E. discriminate.
      * destruct IH as [-> H]. tauto.
    + apply equiv_key_iff in E. subst. tauto.
Qed.

Lemma find_nil_iff k m : find k m = [] <-> ~ In k (keys m).
Proof.
  pose proof (find_spec k m) as H.
  destruct (find k m) as [|[k' v'] r]; split; intros; try tauto; try discriminate.
Qed.

Lemma find_suffix k m : exists front, m = (front ++ find k m)%list.
Proof.
  induction m as [|[k' v'] m [front IH]]; simpl.
  - now exists [].
  - destruct (cmp_str k k' || cmp_str k' k).
    + exists ((k', v') :: front). simpl. now f_equal.
    + now exists [].
Qed.

Lemma find_head_in k m kv r : find k m = kv :: r -> In kv m.
Proof.
  intros H. destruct (find_suffix k m) as [front E].
  rewrite E, H. apply in_or_app. right. now left.
Qed.

Lemma emplace_in kv k v m : In kv (emplace k v m) -> kv = (k, v) \/ In kv m.
Proof.
  induction m as [|[k' v'] m IH]; simpl.
  - intros [<-|[]]. now left.
  - destruct (cmp_str k k').
    + intros [<-|H]; [now left | now right].
    + destruct (cmp_str k' k).
      * intros [<-|H]; [right; now left |].
        destruct (IH H) as [->|H']; [now left | right; now right].
      * intros H. now right.
Qed.

Lemma emplace_keeps kv k v m : In kv m -> In kv (emplace k v m).
Proof.
  induction m as [|[k' v'] m IH]; simpl.
  - intros [].
  - destruct (cmp_str k k').
    + intros H. now right.
    + destruct (cmp_str k' k).
      * intros [<-|H]; [now left | right; now apply IH].
      * trivial.
Qed.

Lemma emplace_key k v m : In k (keys (emplace k v m)).
Proof.
  induction m as [|[k' v'] m IH]; simpl.
  - now left.
  - destruct (cmp_str k k') eqn:E1; [now left |].
    destruct (cmp_str k' k) eqn:E2; [right; exact IH |].
    left. simpl. symmetry. now apply cmp_str_total.
Qed.

Lemma keys_in k m : In k (keys m) <-> exists v, In (k, v) m.
Proof.
  unfold keys. rewrite in_map_iff. split.
  - intros [[k' v] [E H]]. simpl in E. subst. eauto.
  - intros [v H]. exists (k, v). auto.
Qed.

(** ** The constructor *)

Lemma strchr_head s c k : strchr s c = Some k -> exists k', k = String c k'.
Proof.
  induction s as [|a s IH]; simpl; [discriminate |].
  destruct (Ascii.eqb a c) eqn:E.
  - apply Ascii.eqb_eq in E. subst. intros [= <-]. eauto.
  - exact IH.
Qed.

Lemma zip_stat_index_lt za n : (n < length za)%nat -> exists sb, zip_stat_index za n = Some sb.
Proof.
  intros H. unfold zip_stat_index.
  destruct (lookup_lt_is_Some_2 za n H) as [de ->]. eauto.
Qed.

Lemma zip_stat_index_index za n sb : zip_stat_index za n = Some sb -> index sb = n.
Proof.
  unfold zip_stat_index. destruct (za !! n); [|discriminate]. now intros [= <-].
Qed.

Lemma zip_stat_index_bound za n sb : zip_stat_index za n = Some sb -> (n < length za)%nat.
Proof.
  unfold zip_stat_index. destruct (za !! n) eqn:E; [|discriminate].
  intros _. eapply lookup_lt_Some; eauto.
Qed.

Lemma index_loop_total zipPath za count n m0 :
  (n + count <= length za)%nat ->
  exists m, index_loop zipPath za n count m0 = Ret m.
Proof.
  revert n m0. induction count as [|count IH]; intros n m0 Hle; simpl.
  - eauto.
  - destruct (zip_stat_index_lt za n) as [sb ->]; [lia|].
    destruct (strchr (name sb) "/"); apply IH; lia.
Qed.

Lemma index_loop_sound zipPath za count n m0 m :
  index_loop zipPath za n count m0 = Ret m ->
  forall k sb, In (k, sb) m ->
    In (k, sb) m0 \/
    (zip_stat_index za (index sb) = Some sb /\ strchr (name sb) "/" = Some k).
Proof.
  revert n m0. induction count as [|count IH]; intros n m0; simpl.
  - intros [= <-]. auto.
  - destruct (zip_stat_index za n) as [sb0|] eqn:Es; [|discriminate].
    destruct (strchr (name sb0) "/") as [slash|] eqn:Ec.
    + intros H k sb Hin. destruct (IH _ _ H k sb Hin) as [Hin'|]; [|tauto].
      apply emplace_in in Hin' as [[= -> ->]|]; [|tauto].
      right. split; [|assumption].
      now rewrite (zip_stat_index_index _ _ _ Es).
    + intros H k sb Hin. exact (IH _ _ H k sb Hin).
Qed.

Lemma index_loop_keeps zipPath za count n m0 m :
  index_loop zipPath za n count m0 = Ret m ->
  forall k, In k (keys m0) -> In k (keys m).
Proof.
  revert n m0. induction count as [|count IH]; intros n m0; simpl.
  - now intros [= <-].
  - destruct (zip_stat_index za n) as [sb0|]; [|discriminate].
    destruct (strchr (name sb0) "/") as [slash|].
    + intros H k Hin. apply (IH _ _ H).
      apply keys_in in Hin as [v Hin]. apply keys_in. exists v.
      now apply emplace_keeps.
    + intros H k Hin. exact (IH _ _ H k Hin).
Qed.

Lemma index_loop_complete zipPath za count n m0 m :
  index_loop zipPath za n count m0 = Ret m ->
  forall i sb k, (n <= i < n + count)%nat ->
    zip_stat_index za i = Some sb -> strchr (name sb) "/" = Some k ->
    In k (keys m).
Proof.
  revert n m0. induction count as [|count IH]; intros n m0; simpl.
  - intros _ i sb k Hi. lia.
  - destruct (zip_stat_index za n) as [sb0|] eqn:Es; [|discriminate].
    intros H i sb k Hi Hs Hc.
    destruct (Nat.eq_dec i n) as [->|Hne].
    + rewrite Es in Hs. injection Hs as ->. rewrite Hc in H.
      eapply index_loop_keeps; [exact H|]. apply emplace_key.
    + destruct (strchr (name sb0) "/");
        (eapply IH; [exact H| |exact Hs|exact Hc]; lia).
Qed.

Lemma ZipInputAccessor_total zipPath za :
  exists members, ZipInputAccessor zipPath za = Ret members.
Proof. apply index_loop_total. unfold zip_get_num_entries. lia. Qed.

Lemma ZipInputAccessor_keys zipPath za members :
  ZipInputAccessor zipPath za = Ret members ->
  forall k, find k members <> [] <-> first_slash_key za k.
Proof.
  intros H k. rewrite find_nil_iff. split.
  - intros Hk. assert (Hin : In k (keys members)).
    { destruct (in_dec string_dec k (keys members)); tauto. }
    apply keys_in in Hin as [sb Hin].
    destruct (index_loop_sound _ _ _ _ _ _ H k sb Hin) as [[]|[Hs Hc]].
    now exists (index sb), sb.
  - intros (n & sb & Hs & Hc) Hno. apply Hno.
    eapply index_loop_complete; [exact H| |exact Hs|exact Hc].
    apply zip_stat_index_bound in Hs. unfold zip_get_num_entries. lia.
Qed.

Lemma append_inv_head (p a b : string) : p +:+ a = p +:+ b -> a = b.
Proof. induction p as [|c p IH]; simpl; [trivial|]. intros [= H]. auto. Qed.

Section Operations.

Variable canonPath : string -> string.
Variable zipPath : string.
Variable zipFile : zip.
Variable members : Members.

Lemma pathExists_find p :
  pathExists canonPath members p = true <-> find (canonPath p) members <> [].
Proof.
  unfold pathExists. destruct (find (canonPath p) members); split; congruence.
Qed.

Lemma readFile_missing p :
  readFile canonPath zipPath zipFile members p
    = Throw (Error ("file '" +:+ canonPath p +:+ "' does not exist"))
  <-> find (canonPath p) members = [].
Proof.
  unfold readFile. destruct (find (canonPath p) members) as [|[k sb] r].
  - tauto.
  - split; [|discriminate].
    destruct (zipFile !! index sb) as [[? ? [data|] ?]|]; simpl; try discriminate.
    destruct (N.of_nat _ =? size sb)%N; discriminate.
Qed.

Lemma lstat_missing p :
  lstat canonPath zipPath zipFile members p
    = Throw (Error ("file '" +:+ canonPath p +:+ "' does not exist"))
  <-> find (canonPath p) members = [] /\ find (canonPath p +:+ "/") members = [].
Proof.
  unfold lstat.
  assert (Hpost : forall (t : Type_) sb,
    match zip_file_get_external_attributes zipFile (index sb) with
    | None =>
        Throw (Error ("couldn't get external attributes of '" +:+ canonPath p +:+ "' in '"
                        +:+ zipPath +:+ "'"))
    | Some (opsys, attributes) =>
        if opsys =? ZIP_OPSYS_UNIX then
          if Z.land (Z.shiftr attributes 16) 0x3F000 =? 0x4000 then
            Ret {| type := t; isExecutable := false |}
          else if Z.land (Z.shiftr attributes 16) 0x3F000 =? 0x8000 then
            Ret {| type := t;
                   isExecutable := negb (Z.land (Z.shiftr attributes 16) 0x40 =? 0) |}
          else if Z.land (Z.shiftr attributes 16) 0x3F000 =? 0xA000 then
            Ret {| type := t; isExecutable := false |}
          else
            Throw (Error ("file '" +:+ canonPath p +:+ "' in '" +:+ zipPath
                          +:+ "' has unsupported type "
                          +:+ fmt_octal (Z.land (Z.shiftr attributes 16) 0x3F000)))
        else Ret {| type := t; isExecutable := false |}
    end = Throw (Error ("file '" +:+ canonPath p +:+ "' does not exist")) ->
    False).
  { intros t sb.
    destruct (zip_file_get_external_attributes _ _) as [[opsys attributes]|];
      [|discriminate].
    destruct (opsys =? ZIP_OPSYS_UNIX); [|discriminate].
    repeat (match goal with |- context [if ?b then _ else _] => destruct b end;
            try discriminate).
    intros [= H]. apply (append_inv_head (canonPath p)) in H. discriminate. }
  destruct (find (canonPath p) members) as [|[k sb] r].
  - destruct (find (canonPath p +:+ "/") members) as [|[k' sb'] r'].
    + tauto.
    + split; [|intros [_ ?]; discriminate]. intros H.
      destruct (Hpost _ _ H).
  - split; [|intros [? _]; discriminate]. intros H.
    destruct (Hpost _ _ H).
Qed.

Lemma readDirectory_missing p :
  readDirectory canonPath members p
    = Throw (Error ("directory '" +:+ (canonPath p +:+ "/") +:+ "' does not exist"))
  <-> find (canonPath p +:+ "/") members = [].
Proof.
  unfold readDirectory. destruct (find (canonPath p +:+ "/") members); split;
    congruence.
Qed.

End Operations.

(** ** The claims about the accessor *)

(** C8, as the code has it.  For a member that a Unix system stored and
    that [lstat] finds under its own key, the mode in the upper 16 bits
    of the external attributes does not reach the result: for the mode
    of a directory (0040000) and for the mode of a symbolic link
    (0120000), [lstat] returns the type [tRegular], not executable.  The
    type decoded from the mode is assigned to the variable that the
    switch declares, and the [Stat] is built from the other one. *)
Theorem lstat_type_is_not_the_decoded_one
    (canonPath : string -> string) (zipPath : string) (zipFile : zip)
    (members : Members) (p k : string) (sb : zip_stat) (r : Members) (attributes : Z) :
  find (canonPath p) members = (k, sb) :: r ->
  zip_file_get_external_attributes zipFile (index sb)
    = Some (ZIP_OPSYS_UNIX, attributes) ->
  Z.land (Z.shiftr attributes 16) 0x3F000 = 0x4000
  \/ Z.land (Z.shiftr attributes 16) 0x3F000 = 0xA000 ->
  lstat canonPath zipPath zipFile members p
    = Ret {| type := tRegular; isExecutable := false |}.
Proof.
  intros Hfind Hattr Hmode. unfold lstat. rewrite Hfind, Hattr.
  rewrite Z.eqb_refl. destruct Hmode as [-> | ->]; reflexivity.
Qed.

(** The member [pkg/link] of [symlink_archive] is a symbolic link, and
    [lstat] says it is a regular file. *)
Lemma lstat_type_is_not_the_decoded_one_witness :
  ZipInputAccessor "src.zip" Demo.symlink_archive = Ret Demo.symlink_members
  /\ lstat Demo.canonical "src.zip" Demo.symlink_archive Demo.symlink_members "/link"
     = Ret {| type := tRegular; isExecutable := false |}.
Proof.
  split; [reflexivity |].
  apply (lstat_type_is_not_the_decoded_one Demo.canonical "src.zip"
           Demo.symlink_archive Demo.symlink_members "/link" "/link"
           {| name := "pkg/link"; index := 0; size := 6 |} [] 0xA1FF0000).
  - reflexivity.
  - reflexivity.
  - right. reflexivity.
Defined.

(** The other parts of the decoding are as they should be: for the mode
    of a regular file the executable bit is bit 0100 of the mode, and
    any mode other than the three is an error. *)
Lemma lstat_unix_regular_and_unsupported
    (canonPath : string -> string) (zipPath : string) (zipFile : zip)
    (members : Members) (p k : string) (sb : zip_stat) (r : Members) (attributes : Z) :
  find (canonPath p) members = (k, sb) :: r ->
  zip_file_get_external_attributes zipFile (index sb)
    = Some (ZIP_OPSYS_UNIX, attributes) ->
  (Z.land (Z.shiftr attributes 16) 0x3F000 = 0x8000 ->
   lstat canonPath zipPath zipFile members p
   = Ret {| type := tRegular;
            isExecutable := negb (Z.land (Z.shiftr attributes 16) 0x40 =? 0) |})
  /\ (Z.land (Z.shiftr attributes 16) 0x3F000 <> 0x4000 ->
      Z.land (Z.shiftr attributes 16) 0x3F000 <> 0x8000 ->
      Z.land (Z.shiftr attributes 16) 0x3F000 <> 0xA000 ->
      exists msg, lstat canonPath zipPath zipFile members p = Throw (Error msg)).
Proof.
  intros Hfind Hattr. unfold lstat. rewrite Hfind, Hattr, Z.eqb_refl. split.
  - intros ->. reflexivity.
  - intros H1 H2 H3.
    apply Z.eqb_neq in H1, H2, H3. rewrite H1, H2, H3. eauto.
Qed.

(** In [orphan_archive], [README] has no slash and is not in the index,
    and [pkg/a/b.txt] is found as [/a/b.txt], not under its own name. *)
Example orphan_archive_index :
  ZipInputAccessor "src.zip" Demo.orphan_archive = Ret Demo.orphan_members
  /\ pathExists Demo.canonical Demo.orphan_members "/README" = false
  /\ pathExists Demo.canonical Demo.orphan_members "README" = false
  /\ pathExists Demo.canonical Demo.orphan_members "/a/b.txt" = true
  /\ pathExists Demo.canonical Demo.orphan_members "pkg/a/b.txt" = false
  /\ readFile Demo.canonical "src.zip" Demo.orphan_archive Demo.orphan_members "/a/b.txt"
     = Ret "b".
Proof. repeat split; reflexivity. Qed.

(** C10.  [readDirectory p] throws "directory ... does not exist"
    exactly when the index has no key equal to the canonical form of [p]
    followed by a slash, whatever else the index holds, and returns a
    listing when it has one. *)
Theorem readDirectory_needs_the_directory_entry
    (canonPath : string -> string) (members : Members) (p : string) :
  (find (canonPath p +:+ "/") members = []
   -> readDirectory canonPath members p
      = Throw (Error ("directory '" +:+ (canonPath p +:+ "/") +:+ "' does not exist")))
  /\ (find (canonPath p +:+ "/") members <> []
      -> exists entries, readDirectory canonPath members p = Ret entries)
  /\ (find (canonPath p +:+ "/") members = [] <-> ~ In (canonPath p +:+ "/") (keys members)).
Proof.
  split; [|split].
  - apply readDirectory_missing.
  - unfold readDirectory. destruct (find (canonPath p +:+ "/") members); [congruence|].
    eauto.
  - apply find_nil_iff.
Qed.

(** The archive [orphan_archive] has the file [/a/b.txt] and no entry
    for [/a/]: the directory cannot be listed, though the file exists. *)
Lemma readDirectory_needs_the_directory_entry_witness :
  ZipInputAccessor "src.zip" Demo.orphan_archive = Ret Demo.orphan_members
  /\ pathExists Demo.canonical Demo.orphan_members "/a/b.txt" = true
  /\ readDirectory Demo.canonical Demo.orphan_members "/a"
     = Throw (Error "directory '/a/' does not exist").
Proof.
  split; [reflexivity |]. split; [reflexivity |].
  apply (readDirectory_needs_the_directory_entry Demo.canonical Demo.orphan_members "/a").
  reflexivity.
Defined.

End ZipFacts.


(** * Properties of the Git input scheme *)

Module GitFacts.
Import Git.

(** ** Computations that return or throw *)

Lemma obind_Ret {A B} (c : outcome A) (f : A -> outcome B) b :
  (c ≫= f) = Ret b -> exists a, c = Ret a /\ f a = Ret b.
Proof. destruct c; simpl; try discriminate. eauto. Qed.

Ltac bind_inv H :=
  let a := fresh "a" in
  let E := fresh "E" in
  apply obind_Ret in H as (a & E & H).

Ltac case_in H :=
  match type of H with
  | context [if ?b then _ else _] => destruct b eqn:?
  | context [match ?x with _ => _ end] => destruct x eqn:?
  end; try discriminate.

Lemma defined_bind {A B} (c : outcome A) (f : A -> outcome B) :
  defined c -> (forall a, defined (f a)) -> defined (c ≫= f).
Proof. destruct c; simpl; auto. Qed.

Lemma defined_call {A} (r : Exn + A) : defined (call r).
Proof. now destruct r. Qed.

Lemma defined_not_Ret {A} (o : outcome A) :
  defined o -> (forall a, o <> Ret a) -> exists e, o = Throw e.
Proof. destruct o; simpl; try tauto; eauto. intros _ H. now destruct (H a). Qed.

Section SchemeFacts.

Context {X : Externals}.

Lemma maybeGetStrAttr_None a k :
  maybeGetStrAttr a k = Ret None <-> a !! k = None.
Proof.
  unfold maybeGetStrAttr. destruct (a !! k) as [[]|]; split; congruence.
Qed.

Lemma maybeGetStrAttr_Some a k s :
  maybeGetStrAttr a k = Ret (Some s) <-> a !! k = Some (AttrString s).
Proof.
  unfold maybeGetStrAttr. destruct (a !! k) as [[]|]; split; congruence.
Qed.

Lemma defined_maybeGetStrAttr a k : defined (maybeGetStrAttr a k).
Proof. unfold maybeGetStrAttr. now destruct (a !! k) as [[]|]. Qed.

Lemma defined_maybeGetBoolAttr a k : defined (maybeGetBoolAttr a k).
Proof. unfold maybeGetBoolAttr. now destruct (a !! k) as [[]|]. Qed.

Lemma defined_getStrAttr a k : defined (getStrAttr a k).
Proof.
  unfold getStrAttr. apply defined_bind; [apply defined_maybeGetStrAttr|].
  now intros [].
Qed.

Lemma getRev_None input : getRev input = Ret None <-> attrs input !! "rev" = None.
Proof.
  unfold getRev. split.
  - intros H. bind_inv H. destruct a as [s|].
    + bind_inv H. discriminate.
    + now apply maybeGetStrAttr_None.
  - intros H. apply maybeGetStrAttr_None in H. now rewrite H.
Qed.

Lemma getRev_Some input h :
  getRev input = Ret (Some h) ->
  exists s, attrs input !! "rev" = Some (AttrString s) /\ parseHash s = inr h.
Proof.
  unfold getRev. intros H. bind_inv H. destruct a as [s|]; [|discriminate].
  bind_inv H. injection H as ->. exists s. split.
  - now apply maybeGetStrAttr_Some.
  - destruct (parseHash s); simpl in *; congruence.
Qed.

Lemma defined_getRev input : defined (getRev input).
Proof.
  unfold getRev. apply defined_bind; [apply defined_maybeGetStrAttr|].
  intros [s|]; [|exact I]. apply defined_bind; [apply defined_call | now intros].
Qed.

Lemma defined_toURL input : defined (toURL input).
Proof.
  unfold toURL.
  repeat (apply defined_bind;
          [first [apply defined_getStrAttr | apply defined_call | apply defined_getRev
                 | apply defined_maybeGetStrAttr | apply defined_maybeGetBoolAttr]
          | intros ?]).
  exact I.
Qed.

Lemma defined_Input_to_string input : defined (Input_to_string input).
Proof.
  unfold Input_to_string. apply defined_bind; [apply defined_toURL | now intros].
Qed.

Lemma inputFromAttrs_attrs a input :
  inputFromAttrs a = Ret (Some input) -> attrs input = a.
Proof.
  unfold inputFromAttrs. intros H.
  bind_inv H. repeat case_in H.
  repeat bind_inv H. repeat case_in H; now injection H as <-.
Qed.

Lemma defined_applyOverrides input ref rev : defined (applyOverrides input ref rev).
Proof.
  unfold applyOverrides.
  apply defined_bind; [apply defined_maybeGetStrAttr |].
  intros [r|]; [exact I |].
  apply defined_bind; [apply defined_getRev |].
  intros [h|]; [|exact I].
  apply defined_bind; [apply defined_Input_to_string | now intros].
Qed.

Lemma applyOverrides_Ret input ref rev res :
  applyOverrides input ref rev = Ret res ->
  is_Some (attrs res !! "rev") -> is_Some (attrs res !! "ref").
Proof.
  unfold applyOverrides. intros H. bind_inv H. destruct a as [r|].
  - injection H as <-. intros _. apply maybeGetStrAttr_Some in E. rewrite E. eauto.
  - bind_inv H. destruct a as [h|].
    + bind_inv H. discriminate.
    + injection H as <-. apply getRev_None in E0. rewrite E0.
      intros [? ?]. discriminate.
Qed.

Lemma first_unsupported_foldr (l : list (string * Attr)) :
  foldr (fun (kv : string * Attr) acc =>
           if supported_attribute kv.1 then acc
           else match acc with
                | Some n => if String.ltb kv.1 n then Some kv.1 else acc
                | None => Some kv.1
                end) None l = None
  <-> Forall (fun kv => supported_attribute kv.1 = true) l.
Proof.
  induction l as [|kv l IH]; simpl.
  - split; [constructor | reflexivity].
  - destruct (supported_attribute kv.1) eqn:E.
    + rewrite IH. split; [now constructor | now inversion 1].
    + split.
      * destruct (foldr _ None l); [destruct (String.ltb _ _)|]; discriminate.
      * inversion 1; congruence.
Qed.

Lemma first_unsupported_None (a : Attrs) :
  first_unsupported a = None
  <-> forall k v, a !! k = Some v -> supported_attribute k = true.
Proof.
  unfold first_unsupported. rewrite first_unsupported_foldr, Forall_forall. split.
  - intros H k v Hk. apply (H (k, v)). now apply elem_of_map_to_list.
  - intros H [k v] Hin. apply elem_of_map_to_list in Hin. exact (H k v Hin).
Qed.

Lemma inputFromAttrs_ignores_rev (a : Attrs) (rev : string) input :
  inputFromAttrs a = Ret (Some input) ->
  inputFromAttrs (<["rev" := AttrString rev]> a)
  = Ret (Some {| attrs := <["rev" := AttrString rev]> a |}).
Proof.
  unfold inputFromAttrs. intros H.
  assert (Hun : first_unsupported (<["rev" := AttrString rev]> a) = None).
  { destruct (first_unsupported a) eqn:E.
    - destruct (maybeGetStrAttr a "type"); simpl in H; try discriminate.
      destruct (negb _); discriminate.
    - apply first_unsupported_None. intros k v.
      destruct (decide (k = "rev")) as [->|Hne]; [reflexivity|].
      rewrite lookup_insert_ne by congruence.
      apply (proj1 (first_unsupported_None a) E). }
  rewrite Hun.
  unfold getStrAttr, maybeGetStrAttr, maybeGetBoolAttr in *.
  rewrite !lookup_insert_ne by discriminate.
  destruct (a !! "type") as [[]|]; simpl in *; try discriminate.
  destruct (negb _); [discriminate|].
  destruct (first_unsupported a); [discriminate|].
  destruct (a !! "url") as [[]|]; simpl in *; try discriminate.
  destruct (parseURL s0); simpl in *; try discriminate.
  destruct (a !! "shallow") as [[]|]; simpl in *; try discriminate;
  destruct (a !! "submodules") as [[]|]; simpl in *; try discriminate;
  destruct (a !! "allRefs") as [[]|]; simpl in *; try discriminate;
  destruct (a !! "ref") as [[]|]; simpl in *; try discriminate;
  try (destruct (badGitRef _); [discriminate|]); reflexivity.
Qed.
(** C5, as the code has it.  [applyOverrides] returns only inputs in
    which a [rev] comes with a [ref], and throws when the overridden
    attributes have a [rev] and no [ref].  [inputFromAttrs] does not
    look at [rev]: attributes that it accepts are accepted with any
    [rev] added, with or without a [ref]. *)
Theorem applyOverrides_rev_needs_ref
    (input : Input) (ref : option string) (rev : option Hash) :
  (forall res, applyOverrides input ref rev = Ret res ->
     is_Some (attrs res !! "rev") -> is_Some (attrs res !! "ref"))
  /\ (ref = None -> attrs input !! "ref" = None ->
      is_Some rev \/ is_Some (attrs input !! "rev") ->
      exists e, applyOverrides input ref rev = Throw e)
  /\ (forall (a : Attrs) (s : string) accepted,
        inputFromAttrs a = Ret (Some accepted) ->
        inputFromAttrs (<["rev" := AttrString s]> a)
        = Ret (Some {| attrs := <["rev" := AttrString s]> a |})).
Proof.
  split; [intros res; apply applyOverrides_Ret |].
  split; [|intros a s accepted; apply inputFromAttrs_ignores_rev].
  intros -> Href Hrev.
  apply defined_not_Ret; [apply defined_applyOverrides |].
  intros res H. pose proof (applyOverrides_Ret _ _ _ _ H) as Himp.
  unfold applyOverrides in H. bind_inv H.
  assert (Hres : attrs res !! "ref" = None /\ is_Some (attrs res !! "rev")).
  { destruct a as [r|].
    - exfalso. apply maybeGetStrAttr_Some in E.
      destruct rev; simpl in E; [rewrite lookup_insert_ne in E by discriminate|];
        congruence.
    - bind_inv H. destruct a as [h|]; [bind_inv H; discriminate|].
      injection H as <-. destruct rev as [h|]; simpl.
      + rewrite lookup_insert_ne by discriminate. rewrite lookup_insert_eq. eauto.
      + split; [exact Href|]. destruct Hrev as [[? ?]|]; [discriminate | assumption]. }
  destruct Hres as [Hnone Hsome]. destruct (Himp Hsome) as [? ?]. congruence.
Qed.

(** [toURL] takes the parameter [submodules] from the address in the
    attribute [url] and from nowhere else. *)
Lemma toURL_submodules_from_url input u s u0 :
  toURL input = Ret u ->
  getStrAttr (attrs input) "url" = Ret s -> parseURL s = inr u0 ->
  url_query u !! "submodules" = url_query u0 !! "submodules".
Proof.
  unfold toURL. intros H Hs Hu. rewrite Hs in H. simpl in H. rewrite Hu in H.
  simpl in H. repeat bind_inv H. injection H as <-.
  repeat match goal with
         | |- context [if ?b then _ else _] => destruct b
         | |- context [match ?x with _ => _ end] => destruct x
         end; simpl; rewrite ?lookup_insert_ne by discriminate; reflexivity.
Qed.

End SchemeFacts.

(** Overriding the revision of an input that has no ref. *)
Lemma applyOverrides_rev_needs_ref_witness :
  exists e, applyOverrides (X := Demo.library) (Demo.git_input []) None (Some Demo.hash1)
            = Throw e.
Proof.
  apply (proj1 (proj2 (applyOverrides_rev_needs_ref (X := Demo.library)
                         (Demo.git_input []) None (Some Demo.hash1)))).
  - reflexivity.
  - reflexivity.
  - left. eauto.
Defined.

(** C5, as it is stated, fails for [inputFromAttrs]: the attributes
    [type = "git"], [url], [rev], without a [ref], are accepted as they
    are. *)
Lemma inputFromAttrs_accepts_rev_without_ref :
  inputFromAttrs (X := Demo.library) Demo.rev_only_attrs
    = Ret (Some {| attrs := Demo.rev_only_attrs |})
  /\ Demo.rev_only_attrs !! "rev" = Some (AttrString Demo.rev1)
  /\ Demo.rev_only_attrs !! "ref" = None.
Proof. repeat split; vm_compute; reflexivity. Qed.

(** C6, at the address [git+https://example.org/r.git?submodules=1]:
    [inputFromURL] moves the parameter into the attribute [submodules],
    and [toURL] gives an address without it, which is not the one that
    came in. *)
Theorem toURL_does_not_restore_submodules :
  exists input url',
    inputFromURL (X := Demo.library) Demo.submodules_url = Ret (Some input)
    /\ attrs input !! "submodules" = Some (AttrBool true)
    /\ toURL input = Ret url'
    /\ url_query Demo.submodules_url !! "submodules" = Some "1"
    /\ url_query url' !! "submodules" = None
    /\ ~ same_url url' Demo.submodules_url.
Proof.
  eexists. eexists. split; [vm_compute; reflexivity |].
  split; [vm_compute; reflexivity |].
  split; [vm_compute; reflexivity |].
  split; [vm_compute; reflexivity |].
  split; [vm_compute; reflexivity |].
  intros (_ & _ & _ & Hq & _).
  apply (f_equal (fun q : gmap string string => q !! "submodules")) in Hq.
  vm_compute in Hq. discriminate.
Qed.

(** The parameters [ref] and [shallow=1] do come back. *)
Example toURL_restores_ref_and_shallow :
  exists input url',
    inputFromURL (X := Demo.library) Demo.shallow_url = Ret (Some input)
    /\ toURL input = Ret url'
    /\ same_url url' Demo.shallow_url.
Proof.
  eexists. eexists. split; [vm_compute; reflexivity |].
  split; [vm_compute; reflexivity |].
  repeat split; vm_compute; reflexivity.
Qed.

(** ** Computations on the trace *)

Lemma bind_unfold {A B} (c : M A) (f : A -> M B) tr :
  (c ≫= f) tr =
  match c tr with
  | (Ret a, tr') => f a tr'
  | (Throw e, tr') => (Throw e, tr')
  | (AssertionFailure w, tr') => (AssertionFailure w, tr')
  | (Undefined w, tr') => (Undefined w, tr')
  end.
Proof. reflexivity. Qed.

Lemma bind_Ret_inv {A B} (c : M A) (f : A -> M B) tr b tr' :
  (c ≫= f) tr = (Ret b, tr') ->
  exists a t1, c tr = (Ret a, t1) /\ f a t1 = (Ret b, tr').
Proof.
  rewrite bind_unfold. destruct (c tr) as [[a|e|w|w] t1]; try discriminate. eauto.
Qed.

Lemma at_scope_exit_Ret_inv {A} (c : M A) ev tr a tr' :
  at_scope_exit c ev tr = (Ret a, tr') -> exists t1, c tr = (Ret a, t1).
Proof.
  unfold at_scope_exit. destruct (c tr) as [[a'|e|w|w] t1]; try discriminate.
  intros [= <- _]. eauto.
Qed.

Lemma lift_Ret_inv {A} (o : outcome A) tr a tr' :
  lift o tr = (Ret a, tr') -> o = Ret a /\ tr' = tr.
Proof. unfold lift. now intros [= -> ->]. Qed.

Lemma mret_Ret_inv {A} (x : A) tr a tr' :
  (mret x : M A) tr = (Ret a, tr') -> a = x /\ tr' = tr.
Proof. unfold mret, M_ret. now intros [= -> ->]. Qed.

(** One step back from a computation that returned. *)
Ltac minv H :=
  lazymatch type of H with
  | (_ ≫= _) _ = (Ret _, _) =>
      let a := fresh "a" in let t := fresh "t" in let E := fresh "E" in
      apply bind_Ret_inv in H as (a & t & E & H)
  | mret _ _ = (Ret _, _) =>
      let E := fresh "E" in
      apply mret_Ret_inv in H as [H E]; try subst
  | lift _ _ = (Ret _, _) =>
      let E := fresh "E" in
      apply lift_Ret_inv in H as [H E]; try subst
  | throw _ _ = (Ret _, _) => discriminate H
  | at_scope_exit _ _ _ = (Ret _, _) =>
      let t := fresh "t" in
      apply at_scope_exit_Ret_inv in H as [t H]
  | (if ?b then _ else _) _ = (Ret _, _) => destruct b eqn:?
  | (match ?x with _ => _ end) _ = (Ret _, _) => destruct x eqn:?
  end.

Ltac minv_all H := repeat (minv H; simplify_eq).

Ltac minv_hyps :=
  repeat (match goal with H : _ = (Ret _, _) |- _ => minv H end; simplify_eq).

(** ** What a computation adds to the trace *)

Section EmitsLogic.

Context {A B : Type} (P : Event -> Prop).

Lemma emits_pure (c : M A) :
  (forall tr, (c tr).2 = tr) -> emits P c.
Proof.
  intros H tr o tr' E. exists []. rewrite app_nil_r. split; [|constructor].
  specialize (H tr). rewrite E in H. simpl in H. congruence.
Qed.

Lemma emits_ret (a : A) : emits P (mret a).
Proof. now apply emits_pure. Qed.

Lemma emits_lift (o : outcome A) : emits P (lift o).
Proof. now apply emits_pure. Qed.

Lemma emits_throw e : emits P (throw e : M A).
Proof. now apply emits_pure. Qed.

Lemma emits_emit ev : P ev -> emits P (emit ev).
Proof.
  intros H tr o tr' [= <- <-]. exists [ev]. split; [reflexivity|]. now constructor.
Qed.

Lemma emits_bind (c : M A) (f : A -> M B) :
  emits P c -> (forall a, emits P (f a)) -> emits P (c ≫= f).
Proof.
  intros Hc Hf tr o tr' E. unfold mbind, M_bind in E.
  destruct (c tr) as [o1 t1] eqn:Ec.
  destruct (Hc _ _ _ Ec) as (n1 & -> & F1).
  destruct o1 as [a|e|w|w].
  - destruct (Hf a _ _ _ E) as (n2 & -> & F2).
    exists (n1 ++ n2)%list. split; [now rewrite app_assoc|]. now apply Forall_app.
  - injection E as <- <-. eauto.
  - injection E as <- <-. eauto.
  - injection E as <- <-. eauto.
Qed.

(** When the value of [c] is known to satisfy [Q], the continuation is
    only run on such values. *)
Lemma emits_bind_returns (Q : A -> Prop) (c : M A) (f : A -> M B) :
  emits P c -> returns Q c -> (forall a, Q a -> emits P (f a)) -> emits P (c ≫= f).
Proof.
  intros Hc Hq Hf tr o tr' E. unfold mbind, M_bind in E.
  destruct (c tr) as [o1 t1] eqn:Ec.
  destruct (Hc _ _ _ Ec) as (n1 & -> & F1).
  destruct o1 as [a|e|w|w].
  - destruct (Hf a (Hq _ _ _ Ec) _ _ _ E) as (n2 & -> & F2).
    exists (n1 ++ n2)%list. split; [now rewrite app_assoc|]. now apply Forall_app.
  - injection E as <- <-. eauto.
  - injection E as <- <-. eauto.
  - injection E as <- <-. eauto.
Qed.

Lemma emits_try_catch (c : M A) h :
  emits P c -> (forall e k, h e = Some k -> emits P k) -> emits P (try_catch c h).
Proof.
  intros Hc Hh tr o tr' E. unfold try_catch in E.
  destruct (c tr) as [o1 t1] eqn:Ec.
  destruct (Hc _ _ _ Ec) as (n1 & -> & F1).
  destruct o1 as [a|e|w|w]; try (injection E as <- <-; eauto; fail).
  destruct (h e) as [k|] eqn:Ek.
  - destruct (Hh _ _ Ek _ _ _ E) as (n2 & -> & F2).
    exists (n1 ++ n2)%list. split; [now rewrite app_assoc|]. now apply Forall_app.
  - injection E as <- <-. eauto.
Qed.

Lemma emits_at_scope_exit (c : M A) ev :
  emits P c -> P ev -> emits P (at_scope_exit c ev).
Proof.
  intros Hc Hev tr o tr' E. unfold at_scope_exit in E.
  destruct (c tr) as [o1 t1] eqn:Ec.
  destruct (Hc _ _ _ Ec) as (n1 & -> & F1).
  destruct o1 as [a|e|w|w]; injection E as <- <-; eauto.
  - exists (n1 ++ [ev])%list. split; [now rewrite app_assoc|].
    apply Forall_app. split; [assumption | now constructor].
  - exists (n1 ++ [ev])%list. split; [now rewrite app_assoc|].
    apply Forall_app. split; [assumption | now constructor].
Qed.

End EmitsLogic.

(** A computation that emits nothing leaves the trace as it is. *)
Lemma emits_nothing {A} (c : M A) tr o tr' :
  emits (fun _ => False) c -> c tr = (o, tr') -> tr' = tr.
Proof.
  intros H E. destruct (H _ _ _ E) as (new & -> & F).
  destruct new as [|ev new]; [now rewrite app_nil_r|]. now inversion F.
Qed.

(** ** The attributes of a returned input *)

Section ResultFacts.

Context {X : Externals}.
Variable env : Env.

Lemma keeps_refl (a : Attrs) : keeps a a.
Proof. now split. Qed.

Lemma keeps_insert (a b : Attrs) k v :
  k <> "revCount" -> k <> "narHash" -> keeps a b -> keeps a (<[k := v]> b).
Proof.
  intros H1 H2 [Hr Hn]. split; rewrite lookup_insert_ne by congruence; assumption.
Qed.

Lemma keeps_set_ref (input : Input) ref :
  keeps (attrs input) (attrs (set_attr input "ref" (AttrString ref))).
Proof. simpl. apply keeps_insert; [discriminate | discriminate | apply keeps_refl]. Qed.

Lemma makeResult2_attrs repoInfo origRev input infoAttrs accessor tr r tr' :
  makeResult2 repoInfo origRev input infoAttrs accessor tr = (Ret r, tr') ->
  backing r.1 = backing accessor
  /\ is_Some (attrs r.2 !! "rev")
  /\ is_Some (attrs r.2 !! "lastModified")
  /\ (shallow repoInfo = false -> is_Some (attrs r.2 !! "revCount"))
  /\ (shallow repoInfo = true -> attrs r.2 !! "revCount" = attrs input !! "revCount")
  /\ attrs r.2 !! "narHash" = attrs input !! "narHash".
Proof.
  unfold makeResult2. intros H.
  minv H. minv E. minv_all H.
  lazymatch goal with
  | Hrev : getRev input = Ret ?a, Hsome : negb (bool_decide (is_Some ?a)) = false |- _ =>
      destruct a as [h|]; [|discriminate Hsome];
      apply getRev_Some in Hrev as (s & Hs & _)
  end.
  lazymatch goal with
  | Hi : (if negb (shallow repoInfo) then _ else _) _ = (Ret ?i, _) |- _ =>
      assert (Ha : attrs i !! "rev" = Some (AttrString s)
                   /\ (shallow repoInfo = false -> is_Some (attrs i !! "revCount"))
                   /\ (shallow repoInfo = true ->
                       attrs i !! "revCount" = attrs input !! "revCount")
                   /\ attrs i !! "narHash" = attrs input !! "narHash");
      [ destruct (shallow repoInfo); simpl in Hi; minv_all Hi; simpl;
        rewrite ?lookup_insert_eq, ?lookup_insert_ne by discriminate;
        repeat split; eauto; discriminate
      | ]
  end.
  destruct Ha as (H1 & H2 & H3 & H4). simpl.
  rewrite lookup_insert_eq, !lookup_insert_ne by discriminate. rewrite H1.
  repeat split; eauto.
Qed.

Lemma makeResult2_locked repoInfo origRev input infoAttrs accessor (a0 : Attrs) tr r tr' :
  makeResult2 repoInfo origRev input infoAttrs accessor tr = (Ret r, tr') ->
  keeps a0 (attrs input) ->
  (forall sp, backing accessor <> StorePathAccessor sp) ->
  locked_result (shallow repoInfo) a0 r.
Proof.
  intros H [Hrc Hnh] Hacc.
  apply makeResult2_attrs in H as (Hb & H1 & H2 & H3 & H4 & H5).
  unfold locked_result. do 3 (split; [assumption|]). split.
  - intros Hsh. now rewrite (H4 Hsh), Hrc.
  - rewrite Hb. destruct (backing accessor) eqn:Eb.
    + now destruct (Hacc storePath).
    + now rewrite H5, Hnh.
    + now rewrite H5, Hnh.
Qed.

Lemma makeResult_locked repoInfo origRev input infoAttrs storePath (a0 : Attrs) tr r tr' :
  makeResult env repoInfo origRev input infoAttrs storePath tr = (Ret r, tr') ->
  keeps a0 (attrs input) ->
  locked_result (shallow repoInfo) a0 r.
Proof.
  unfold makeResult. intros H [Hrc Hnh]. minv H.
  apply makeResult2_attrs in H as (Hb & H1 & H2 & H3 & H4 & H5).
  simpl in *. rewrite lookup_insert_ne in H4 by discriminate.
  rewrite lookup_insert_eq in H5.
  unfold locked_result. do 3 (split; [assumption|]). split.
  - intros Hsh. now rewrite (H4 Hsh), Hrc.
  - rewrite Hb. rewrite H5. eauto.
Qed.

Lemma updateRev_rev input repoInfo ref tr i h tr' :
  updateRev env input repoInfo ref tr = (Ret (i, h), tr') ->
  is_Some (attrs i !! "rev")
  /\ forall k, k <> "rev" -> attrs i !! k = attrs input !! k.
Proof.
  unfold updateRev. intros H. minv_all H; minv_hyps.
  - match goal with E : getRev _ = Ret (Some _) |- _ =>
      apply getRev_Some in E as (s & -> & _) end.
    eauto.
  - simpl. rewrite lookup_insert_eq. split; [eauto|].
    intros k Hk. now rewrite lookup_insert_ne.
Qed.

Lemma updateRev_keeps input repoInfo ref tr i h tr' (a0 : Attrs) :
  updateRev env input repoInfo ref tr = (Ret (i, h), tr') ->
  keeps a0 (attrs input) -> keeps a0 (attrs i).
Proof.
  intros H [Hrc Hnh]. apply updateRev_rev in H as [_ Hoff].
  split; rewrite Hoff by discriminate; assumption.
Qed.

Lemma updateMirror_keeps repoInfo input originalRef ref cacheDir tr i tr' (a0 : Attrs) :
  updateMirror env repoInfo input originalRef ref cacheDir tr = (Ret i, tr') ->
  keeps a0 (attrs input) -> keeps a0 (attrs i).
Proof.
  unfold updateMirror. intros H Hk. do 6 minv H. minv_all H.
  - exact Hk.
  - simpl. now apply keeps_insert.
Qed.

Lemma resolveRemote_locked repoInfo origRev name input unlockedAttrs originalRef ref
    tr r tr' (a0 : Attrs) :
  resolveRemote env repoInfo origRev name input unlockedAttrs originalRef ref tr
    = (Ret r, tr') ->
  keeps a0 (attrs input) ->
  match r with
  | inl res => locked_result (shallow repoInfo) a0 res
  | inr (i, _, repoInfo') =>
      keeps a0 (attrs i) /\ shallow repoInfo' = shallow repoInfo
  end.
Proof.
  unfold resolveRemote. intros H Hk. minv H. minv H.
  lazymatch goal with
  | Hl : _ = (Ret ?hit, _), Hr : match ?hit with _ => _ end _ = _ |- _ =>
      assert (Hhit : forall res, hit = Some res -> locked_result (shallow repoInfo) a0 res);
      [ intros res ->; minv_all Hl;
        eapply makeResult_locked; [eassumption|]; simpl; now apply keeps_insert
      | destruct hit as [res|] ]
  end.
  - minv H. now apply Hhit.
  - minv_all H. minv_hyps. all: (split; [|reflexivity]).
    all: eapply updateMirror_keeps; eassumption.
Qed.

Lemma materialize_locked repoInfo origRev name input unlockedAttrs infoAttrs ref repoDir
    rev tr r tr' (a0 : Attrs) :
  materialize env repoInfo origRev name input unlockedAttrs infoAttrs ref repoDir rev tr
    = (Ret r, tr') ->
  keeps a0 (attrs input) ->
  locked_result (shallow repoInfo) a0 r.
Proof.
  unfold materialize. intros H Hk. minv H.
  - eapply makeResult2_locked; [eassumption | assumption | discriminate].
  - minv_all H. minv_all H.
    all: eapply makeResult_locked; eassumption.
Qed.

Lemma finishCommit_locked repoInfo origRev name input unlockedAttrs ref repoDir
    tr r tr' (a0 : Attrs) :
  finishCommit env repoInfo origRev name input unlockedAttrs ref repoDir tr
    = (Ret r, tr') ->
  keeps a0 (attrs input) ->
  locked_result (shallow repoInfo) a0 r.
Proof.
  unfold finishCommit. intros H Hk. minv_all H.
  - eapply makeResult_locked; eassumption.
  - eapply materialize_locked; eassumption.
Qed.

Lemma getAccessorFromCommit_locked repoInfo input tr r tr' :
  getAccessorFromCommit env repoInfo input tr = (Ret r, tr') ->
  locked_result (shallow repoInfo) (attrs input) r.
Proof.
  unfold getAccessorFromCommit. intros H. minv_all H; minv_hyps.
  all: try (eapply makeResult_locked; [eassumption | apply keeps_refl]).
  all: repeat match goal with
         | E : updateRev _ _ _ _ _ = (Ret _, _) |- _ =>
             apply (updateRev_keeps _ _ _ _ _ _ _ (attrs input)) in E;
             [|apply keeps_set_ref]
         | E : resolveRemote _ _ _ _ _ _ _ _ _ = (Ret _, _) |- _ =>
             apply (resolveRemote_locked _ _ _ _ _ _ _ _ _ _ (attrs input)) in E;
             [|apply keeps_set_ref]
         end.
  all: try assumption.
  all: try (eapply finishCommit_locked; eassumption).
  all: simpl in *.
  all: match goal with
       | E : _ /\ shallow _ = shallow _ |- _ =>
           destruct E as (Hk' & Hsh); rewrite <- Hsh
       end.
  all: eapply finishCommit_locked; eassumption.
Qed.

Lemma getAccessorFromCheckout_attrs repoInfo input tr r tr' :
  getAccessorFromCheckout env repoInfo input tr = (Ret r, tr') ->
  isDirty repoInfo = false ->
  is_Some (attrs r.2 !! "rev")
  /\ is_Some (attrs r.2 !! "lastModified")
  /\ is_Some (attrs r.2 !! "revCount")
  /\ attrs r.2 !! "narHash" = attrs input !! "narHash".
Proof.
  unfold getAccessorFromCheckout. intros H Hd. rewrite Hd in H. simpl in H.
  minv_all H; minv_hyps. simpl.
  match goal with E : updateRev _ _ _ _ _ = _ |- _ =>
    apply updateRev_rev in E as [Hrev Hoff] end.
  split; [|split; [|split]].
  - rewrite !lookup_insert_ne by discriminate. exact Hrev.
  - rewrite lookup_insert_eq. eauto.
  - rewrite lookup_insert_ne by discriminate. rewrite lookup_insert_eq. eauto.
  - rewrite !lookup_insert_ne by discriminate. rewrite Hoff by discriminate.
    simpl. now rewrite lookup_insert_ne by discriminate.
Qed.

(** C1, as the code has it.  An input that [getAccessorFromCommit]
    returns has [rev] and [lastModified]; it has [revCount] when
    [shallow] is false, and when [shallow] is true it has [revCount]
    exactly when the input of the caller had it; it has [narHash] when
    the accessor reads a store path, and otherwise exactly when the
    input of the caller had it.  An input that [getAccessorFromCheckout]
    returns for a clean work tree has [rev], [lastModified] and
    [revCount], and [narHash] exactly when the input of the caller had
    it. *)
Theorem returned_input_attributes (repoInfo : RepoInfo) (input : Input) :
  (forall tr acc input' tr',
     getAccessorFromCommit env repoInfo input tr = (Ret (acc, input'), tr') ->
     is_Some (attrs input' !! "rev")
     /\ is_Some (attrs input' !! "lastModified")
     /\ (shallow repoInfo = false -> is_Some (attrs input' !! "revCount"))
     /\ (shallow repoInfo = true ->
         (is_Some (attrs input' !! "revCount") <-> is_Some (attrs input !! "revCount")))
     /\ match backing acc with
        | StorePathAccessor _ => is_Some (attrs input' !! "narHash")
        | _ => is_Some (attrs input' !! "narHash") <-> is_Some (attrs input !! "narHash")
        end)
  /\ (forall tr acc input' tr',
        isDirty repoInfo = false ->
        getAccessorFromCheckout env repoInfo input tr = (Ret (acc, input'), tr') ->
        is_Some (attrs input' !! "rev")
        /\ is_Some (attrs input' !! "lastModified")
        /\ is_Some (attrs input' !! "revCount")
        /\ (is_Some (attrs input' !! "narHash") <-> is_Some (attrs input !! "narHash"))).
Proof.
  split.
  - intros tr acc input' tr' H.
    exact (getAccessorFromCommit_locked _ _ _ _ _ H).
  - intros tr acc input' tr' Hd H.
    destruct (getAccessorFromCheckout_attrs _ _ _ _ _ H Hd) as (H1 & H2 & H3 & H4).
    simpl in *. rewrite H4. tauto.
Qed.

End ResultFacts.

(** With submodules the result comes from the store and has all four
    attributes. *)
Lemma returned_input_attributes_witness :
  exists r tr',
    getAccessorFromCommit (X := Demo.library) (Demo.world Demo.fresh)
      (Demo.remote_repo false true) Demo.main_input [] = (Ret r, tr')
    /\ is_Some (attrs r.2 !! "rev")
    /\ is_Some (attrs r.2 !! "lastModified")
    /\ is_Some (attrs r.2 !! "revCount")
    /\ is_Some (attrs r.2 !! "narHash").
Proof.
  destruct (getAccessorFromCommit (X := Demo.library) (Demo.world Demo.fresh)
              (Demo.remote_repo false true) Demo.main_input [])
    as [[[acc input']|e|w|w] tr'] eqn:E;
    [| vm_compute in E; discriminate ..].
  exists (acc, input'), tr'. split; [reflexivity|].
  destruct (proj1 (returned_input_attributes (X := Demo.library) (Demo.world Demo.fresh)
                     (Demo.remote_repo false true) Demo.main_input)
              [] acc input' tr' E) as (H1 & H2 & H3 & _ & H5).
  assert (Hb : exists sp, backing acc = StorePathAccessor sp).
  { vm_compute in E. injection E as <- _ _. eexists. reflexivity. }
  destruct Hb as [sp Hb]. rewrite Hb in H5.
  simpl. auto.
Defined.

(** C1, as it is stated, fails on the path that does not go through
    the store: with [submodules] false, an input without [narHash] comes
    back without [narHash]. *)
Lemma native_accessor_result_has_no_narHash :
  exists acc input' tr',
    getAccessorFromCommit (X := Demo.library) (Demo.world Demo.fresh)
      (Demo.remote_repo false false) Demo.main_input [] = (Ret (acc, input'), tr')
    /\ is_Some (attrs input' !! "rev")
    /\ attrs input' !! "narHash" = None.
Proof.
  eexists _, _, _. split; [vm_compute; reflexivity|].
  split; [eexists|]; vm_compute; reflexivity.
Qed.

(** ** Fetching into the mirror *)

Section FetchFacts.

Context {X : Externals}.
Variable env : Env.

(** C2, as the code has it.  With [shallow] true and no [rev] in the
    input, the [try] block of the fetch reads the revision through the
    empty [input.getRev()] while it builds the refspec: the behaviour
    is undefined, no [git fetch] has been started, and no handler of
    the [try] statement applies. *)
Theorem shallow_fetch_without_rev_is_undefined
    (repoInfo : RepoInfo) (input : Input) (originalRef : option string)
    (ref repoDir localRefFile : string) (now : Z) (tr : list Event) :
  shallow repoInfo = true -> attrs input !! "rev" = None ->
  tryFetch env repoInfo input ref repoDir tr
    = (Undefined "input.getRev()->gitRev()", tr)
  /\ fetchIntoMirror env repoInfo input originalRef ref repoDir localRefFile now tr
     = (Undefined "input.getRev()->gitRev()", tr).
Proof.
  intros Hsh Hrev. apply getRev_None in Hrev.
  assert (H : tryFetch env repoInfo input ref repoDir tr
              = (Undefined "input.getRev()->gitRev()", tr)).
  { unfold tryFetch. rewrite Hsh, Hrev. reflexivity. }
  split; [exact H|].
  unfold fetchIntoMirror. rewrite bind_unfold. unfold try_catch. now rewrite H.
Qed.

Lemma afterFetch_trace repoInfo originalRef ref localRefFile now t :
  exists o rest,
    afterFetch env repoInfo originalRef ref localRefFile now t
      = (o, (t ++ EvTouch localRefFile now :: rest)%list)
    /\ (originalRef = None ->
        In (EvRunProgram ["-C"; getCachePath env (url repoInfo); "--git-dir"; ".";
                          "symbolic-ref"; "--"; "HEAD"; ref]) rest)
    /\ (is_Some originalRef ->
        Forall (fun ev => match ev with EvRunProgram _ => False | _ => True end) rest).
Proof.
  unfold afterFetch, touchCacheFile, storeCachedHead, try_catch, runProgram,
    runProgramOpts, get_strerror, warn, emit, throw, lift.
  unfold mbind, M_bind, mret, M_ret.
  destruct (lutimes env t localRefFile now); simpl;
    (destruct originalRef as [r|];
     [ eexists _, _; split;
       [rewrite <- ?app_assoc; simpl; reflexivity|];
       split; [discriminate | intros _; repeat constructor]
     | match goal with
       | |- context [run env ?t' ?args] => destruct (run env t' args) as [status output]
       end;
       destruct (statusOk status); simpl;
       [| destruct (WIFEXITED status); simpl];
       (eexists _, _; split;
        [rewrite <- ?app_assoc; simpl; reflexivity|];
        split; [intros _; simpl; tauto | intros [? ?]; discriminate]) ]).
Qed.

(** C4, as the code has it.  When the [try] block of the fetch throws
    an [Error] and the file of the ref exists, a warning is emitted and
    the function goes on as after a fetch that succeeded; when the file
    does not exist the exception leaves the function and nothing is
    touched.  What follows the [try] statement is the same on both
    paths that go on: the time stamp of the file of the ref is set to
    [now], and when the caller gave no ref, [git symbolic-ref] writes
    the resolved ref to [HEAD] of the mirror; with a ref from the
    caller no further child process runs. *)
Theorem fetch_failure_and_ref_file
    (repoInfo : RepoInfo) (input : Input) (originalRef : option string)
    (ref repoDir localRefFile : string) (now : Z) (tr t1 : list Event) :
  (forall e,
     tryFetch env repoInfo input ref repoDir tr = (Throw e, t1) -> isError e = true ->
     (path_exists env t1 localRefFile = true ->
      fetchIntoMirror env repoInfo input originalRef ref repoDir localRefFile now tr
      = afterFetch env repoInfo originalRef ref localRefFile now
          (t1 ++ [EvWarn ("could not update local clone of Git repository '"
                          +:+ url repoInfo
                          +:+ "'; continuing with the most recent version")])%list)
     /\ (path_exists env t1 localRefFile = false ->
         fetchIntoMirror env repoInfo input originalRef ref repoDir localRefFile now tr
         = (Throw e, t1)))
  /\ (tryFetch env repoInfo input ref repoDir tr = (Ret tt, t1) ->
      fetchIntoMirror env repoInfo input originalRef ref repoDir localRefFile now tr
      = afterFetch env repoInfo originalRef ref localRefFile now t1)
  /\ (forall t, exists o rest,
        afterFetch env repoInfo originalRef ref localRefFile now t
          = (o, (t ++ EvTouch localRefFile now :: rest)%list)
        /\ (originalRef = None ->
            In (EvRunProgram ["-C"; getCachePath env (url repoInfo); "--git-dir"; ".";
                              "symbolic-ref"; "--"; "HEAD"; ref]) rest)
        /\ (is_Some originalRef ->
            Forall (fun ev => match ev with EvRunProgram _ => False | _ => True end)
                   rest)).
Proof.
  split; [|split].
  - intros e Hf He. unfold fetchIntoMirror. rewrite bind_unfold.
    unfold try_catch. rewrite Hf. unfold fetchFailed. rewrite He.
    rewrite bind_unfold. unfold pathExists at 1 2.
    split; intros ->; reflexivity.
  - intros Hf. unfold fetchIntoMirror. rewrite bind_unfold.
    unfold try_catch. now rewrite Hf.
  - intros t. apply afterFetch_trace.
Qed.

(** C7, as the code has it.  With [submodules] true, when [git cat-file
    commit <rev>] exits with status 128 and its output contains "bad
    file", the materialization throws the error that names the
    revision, the ref and the repository and suggests [allRefs = true;],
    after it has removed its temporary directory.  With [submodules]
    false the materialization is the result for the accessor of the
    revision in the repository, and [git cat-file commit] does not
    run. *)
Theorem missing_commit_is_reported
    (repoInfo : RepoInfo) (origRev : option Hash) (name : string) (input : Input)
    (unlockedAttrs infoAttrs : Attrs) (ref repoDir : string) (rev : Hash)
    (tr : list Event) :
  (forall status output,
     submodules repoInfo = true ->
     run env (tr ++ [EvCreateTempDir (temp_dir env tr)])%list
         ["-C"; repoDir; "--git-dir"; gitDir repoInfo; "cat-file"; "commit"; gitRev rev]
       = (status, output) ->
     WEXITSTATUS status = 128 ->
     str_contains "bad file" output = true ->
     materialize env repoInfo origRev name input unlockedAttrs infoAttrs ref repoDir rev
       tr
     = (Throw (Error (revNotFoundMessage (gitRev rev) ref (url repoInfo))),
        (tr ++ [EvCreateTempDir (temp_dir env tr);
                EvRunProgram ["-C"; repoDir; "--git-dir"; gitDir repoInfo; "cat-file";
                              "commit"; gitRev rev];
                EvDeletePath (temp_dir env tr)])%list))
  /\ (submodules repoInfo = false ->
      materialize env repoInfo origRev name input unlockedAttrs infoAttrs ref repoDir rev
        tr
      = makeResult2 repoInfo origRev input infoAttrs
          (makeAccessor (GitInputAccessor (CanonPath repoDir) rev)) tr
      /\ forall o tr',
           makeResult2 repoInfo origRev input infoAttrs
             (makeAccessor (GitInputAccessor (CanonPath repoDir) rev)) tr = (o, tr') ->
           tr' = tr).
Proof.
  split.
  - intros status output Hsub Hrun Hstatus Hout. unfold materialize. rewrite Hsub. simpl.
    rewrite bind_unfold. unfold createTempDir at 1. unfold at_scope_exit.
    rewrite bind_unfold. unfold runProgramOpts at 1. rewrite Hrun.
    rewrite Hstatus, Hout. simpl. unfold throw, lift.
    now rewrite <- !app_assoc.
  - intros Hsub. unfold materialize. rewrite Hsub. simpl. split; [reflexivity|].
    intros o tr'. apply emits_nothing. unfold makeResult2.
    repeat first [ apply emits_bind; [|intros ?] | apply emits_lift | apply emits_ret
                 | match goal with
                   | |- emits _ (if ?b then _ else _) => destruct b
                   end ].
Qed.

End FetchFacts.

(** A shallow input with the ref [main] and no revision, in a world
    where the ref has never been fetched. *)
Lemma shallow_fetch_without_rev_is_undefined_witness :
  fetchIntoMirror (X := Demo.library) (Demo.world Demo.never_fetched)
    (set_gitDir (Demo.remote_repo true false) ".") Demo.main_input (Some "main") "main"
    Demo.mirror Demo.main_ref_file 1000000 []
  = (Undefined "input.getRev()->gitRev()", []).
Proof.
  apply (shallow_fetch_without_rev_is_undefined (X := Demo.library)
           (Demo.world Demo.never_fetched)
           (set_gitDir (Demo.remote_repo true false) ".") Demo.main_input
           (Some "main") "main" Demo.mirror Demo.main_ref_file 1000000 []).
  - reflexivity.
  - reflexivity.
Defined.

(** The whole of [getAccessorFromCommit] on that input, in a world where
    the ref has never been fetched: it ends in undefined behaviour, and
    no [git fetch] has run. *)
Example shallow_input_without_rev_in_a_new_mirror :
  (getAccessorFromCommit (X := Demo.library) (Demo.world Demo.never_fetched)
     (Demo.remote_repo true false) Demo.main_input []).1
  = Undefined "input.getRev()->gitRev()"
  /\ existsb is_git_fetch
       (getAccessorFromCommit (X := Demo.library) (Demo.world Demo.never_fetched)
          (Demo.remote_repo true false) Demo.main_input []).2 = false.
Proof. split; vm_compute; reflexivity. Qed.

(** In a world where [git fetch] exits with 128 and the file of the ref
    is there, the fetch goes on after the warning. *)
Lemma fetch_failure_and_ref_file_witness :
  fetchIntoMirror (X := Demo.library) (Demo.world Demo.stale_and_offline)
    (set_gitDir (Demo.remote_repo false false) ".") Demo.main_input (Some "main") "main"
    Demo.mirror Demo.main_ref_file 1000000 []
  = afterFetch (X := Demo.library) (Demo.world Demo.stale_and_offline)
      (set_gitDir (Demo.remote_repo false false) ".") (Some "main") "main"
      Demo.main_ref_file 1000000
      [EvRunProgram ["-C"; Demo.mirror; "--git-dir"; "."; "rev-parse";
                     "--is-shallow-repository"];
       EvRunProgram ["-C"; Demo.mirror; "--git-dir"; "."; "fetch"; "--quiet"; "--force";
                     "--jobs"; "4"; "--"; Demo.remote;
                     "refs/heads/main:refs/heads/main"];
       EvWarn ("could not update local clone of Git repository '" +:+ Demo.remote
               +:+ "'; continuing with the most recent version")].
Proof.
  apply (proj1 (proj1 (fetch_failure_and_ref_file (X := Demo.library)
                         (Demo.world Demo.stale_and_offline)
                         (set_gitDir (Demo.remote_repo false false) ".")
                         Demo.main_input (Some "main") "main" Demo.mirror
                         Demo.main_ref_file 1000000 []
                         [EvRunProgram ["-C"; Demo.mirror; "--git-dir"; "."; "rev-parse";
                                        "--is-shallow-repository"];
                          EvRunProgram ["-C"; Demo.mirror; "--git-dir"; "."; "fetch";
                                        "--quiet"; "--force"; "--jobs"; "4"; "--";
                                        Demo.remote; "refs/heads/main:refs/heads/main"]])
                  (ExecError 32768 "program 'git' failed with exit code 128")
                  ltac:(vm_compute; reflexivity) ltac:(reflexivity))).
  vm_compute. reflexivity.
Defined.

(** C4, as it is stated, fails: in a world where [git fetch] exits with
    128 and the file of the ref is there, the fetch of an input without
    a ref warns, and then the time stamp of the file is set to the
    present time and [git symbolic-ref] writes [HEAD]. *)
Lemma failed_fetch_touches_ref_file_and_head :
  Demo.fetch_status Demo.stale_and_offline = 32768
  /\ statusOk 32768 = false
  /\ Demo.ran is_git_fetch_args
       (getAccessorFromCommit (X := Demo.library) (Demo.world Demo.stale_and_offline)
          (Demo.remote_repo false false) (Demo.git_input []) []).2 = true
  /\ Demo.warned
       (getAccessorFromCommit (X := Demo.library) (Demo.world Demo.stale_and_offline)
          (Demo.remote_repo false false) (Demo.git_input []) []).2 = true
  /\ Demo.touched Demo.main_ref_file 1000000
       (getAccessorFromCommit (X := Demo.library) (Demo.world Demo.stale_and_offline)
          (Demo.remote_repo false false) (Demo.git_input []) []).2 = true
  /\ Demo.ran (Demo.has_arg "symbolic-ref")
       (getAccessorFromCommit (X := Demo.library) (Demo.world Demo.stale_and_offline)
          (Demo.remote_repo false false) (Demo.git_input []) []).2 = true.
Proof. repeat split; vm_compute; reflexivity. Qed.

(** With submodules, in a world where [git cat-file commit] exits with
    128 and says "bad file". *)
Lemma missing_commit_is_reported_witness :
  (getAccessorFromCommit (X := Demo.library) (Demo.world Demo.commit_missing)
     (Demo.remote_repo false true) Demo.main_input []).1
  = Throw (Error (revNotFoundMessage Demo.rev1 "main" Demo.remote))
  /\ materialize (X := Demo.library) (Demo.world Demo.commit_missing)
       (set_gitDir (Demo.remote_repo false true) ".") None "source" Demo.main_input
       ∅ ∅ "main" Demo.mirror Demo.hash1 []
     = (Throw (Error (revNotFoundMessage Demo.rev1 "main" Demo.remote)),
        [EvCreateTempDir "/tmp/nix-0";
         EvRunProgram ["-C"; Demo.mirror; "--git-dir"; "."; "cat-file"; "commit";
                       Demo.rev1];
         EvDeletePath "/tmp/nix-0"]).
Proof.
  split; [vm_compute; reflexivity|].
  apply (proj1 (missing_commit_is_reported (X := Demo.library)
                  (Demo.world Demo.commit_missing)
                  (set_gitDir (Demo.remote_repo false true) ".") None "source"
                  Demo.main_input ∅ ∅ "main" Demo.mirror Demo.hash1 [])
               32768 "fatal: bad file").
  - reflexivity.
  - vm_compute. reflexivity.
  - reflexivity.
  - reflexivity.
Defined.

(** C7, as it is stated, fails without submodules: in a world where
    [git cat-file commit] would exit with 128 and say "bad file", the
    function returns the accessor of the revision and never runs
    [git cat-file commit]. *)
Lemma missing_commit_is_not_checked_without_submodules :
  Demo.cat_file_commit Demo.commit_missing = (32768, "fatal: bad file")
  /\ WEXITSTATUS 32768 = 128
  /\ (exists input' tr',
        getAccessorFromCommit (X := Demo.library) (Demo.world Demo.commit_missing)
          (Demo.remote_repo false false) Demo.main_input []
        = (Ret ({| backing := GitInputAccessor Demo.mirror Demo.hash1;
                   pathDisplay :=
                     Some (LAQUO +:+ "git+https://example.org/r.git?ref=main&rev="
                           +:+ Demo.rev1 +:+ RAQUO) |}, input'), tr')
        /\ Demo.ran (Demo.has_arg "cat-file") tr' = false).
Proof.
  split; [reflexivity|]. split; [reflexivity|].
  eexists _, _. split; vm_compute; reflexivity.
Qed.

(** ** Computations that do not fetch *)


Create HintDb quiet discriminated.
#[global] Hint Constants Opaque : quiet.

Section Quiet.
Context {X : Externals}.
Variable env : Env.

Lemma quiet_runProgramOpts args :
  is_git_fetch (EvRunProgram args) = false -> quiet (runProgramOpts env args).
Proof.
  intros H tr o tr' [= <- <-]. exists [EvRunProgram args]. split; [reflexivity|].
  now constructor.
Qed.

Lemma quiet_createTempDir : quiet (createTempDir env).
Proof.
  intros tr o tr' [= <- <-]. eexists [_]. split; [reflexivity|]. now constructor.
Qed.

Lemma quiet_addToStore n p f : quiet (addToStore env n p f).
Proof.
  intros tr o tr' [= <- <-]. eexists [_]. split; [reflexivity|]. now constructor.
Qed.

Lemma quiet_touchCacheFile p t : quiet (touchCacheFile env p t).
Proof.
  intros tr o tr' [= <- <-]. eexists [_]. split; [reflexivity|]. now constructor.
Qed.

Lemma quiet_readFile p : quiet (readFile env p).
Proof.
  apply emits_pure. intros tr. unfold readFile. now destruct (read_file env tr p).
Qed.

Ltac quiet_step :=
  lazymatch goal with
  | |- emits _ (mret _) => apply emits_ret
  | |- emits _ (lift _) => apply emits_lift
  | |- emits _ (throw _) => apply emits_throw
  | |- emits _ (emit _) => apply emits_emit; reflexivity
  | |- emits _ (warn _) => apply emits_emit; reflexivity
  | |- emits _ (_ ≫= _) => apply emits_bind; [|intros ?]
  | |- emits _ (try_catch _ _) =>
      apply emits_try_catch;
      [|let e := fresh "e" in let k := fresh "k" in let Hk := fresh "Hk" in
        intros e k Hk; try (destruct e; simpl in Hk); simplify_eq]
  | |- emits _ (at_scope_exit _ _) => apply emits_at_scope_exit; [|reflexivity]
  | |- emits _ (runProgramOpts _ _) => apply quiet_runProgramOpts; reflexivity
  | |- emits _ (get_time _) => now apply emits_pure
  | |- emits _ (stat _ _) => now apply emits_pure
  | |- emits _ (pathExists _ _) => now apply emits_pure
  | |- emits _ (get_strerror _) => now apply emits_pure
  | |- emits _ (cacheLookup _ _) => now apply emits_pure
  | |- emits _ (queryFact _ _) => now apply emits_pure
  | |- emits _ (queryNarHash _ _) => now apply emits_pure
  | |- emits _ (if ?b then _ else _) => destruct b eqn:?
  | |- emits _ (match ?x with _ => _ end) => destruct x eqn:?
  | |- emits _ _ => solve [auto 1 with quiet nocore]
  end.

Ltac quiet_auto := repeat quiet_step.

Lemma quiet_runProgram args :
  is_git_fetch (EvRunProgram args) = false -> quiet (runProgram env args).
Proof.
  intros H. unfold runProgram. apply emits_bind; [now apply quiet_runProgramOpts|].
  intros ?. quiet_auto.
Qed.

Lemma quiet_runProgram2 args :
  is_git_fetch (EvRunProgram args) = false -> quiet (runProgram2 env args).
Proof.
  intros H. unfold runProgram2. apply emits_bind; [now apply quiet_runProgramOpts|].
  intros ?. quiet_auto.
Qed.

#[local] Hint Extern 1 (emits _ (runProgram _ _)) =>
  (apply quiet_runProgram; reflexivity) : quiet.
#[local] Hint Extern 1 (emits _ (runProgram2 _ _)) =>
  (apply quiet_runProgram2; reflexivity) : quiet.
#[local] Hint Resolve quiet_createTempDir quiet_addToStore quiet_touchCacheFile
  quiet_readFile : quiet.

Lemma quiet_readHead path : quiet (readHead env path).
Proof. unfold readHead. quiet_auto. Qed.

Lemma quiet_storeCachedHead u r : quiet (storeCachedHead env u r).
Proof. unfold storeCachedHead. quiet_auto. Qed.

#[local] Hint Resolve quiet_readHead quiet_storeCachedHead : quiet.

Lemma quiet_readHeadCached u : quiet (readHeadCached env u).
Proof. unfold readHeadCached. quiet_auto. Qed.

#[local] Hint Resolve quiet_readHeadCached : quiet.

Lemma quiet_getDefaultRef r : quiet (getDefaultRef env r).
Proof. unfold getDefaultRef. quiet_auto. Qed.

#[local] Hint Resolve quiet_getDefaultRef : quiet.

Lemma quiet_resolveRef r o : quiet (resolveRef env r o).
Proof. unfold resolveRef. quiet_auto. Qed.

Lemma quiet_updateRev i r ref : quiet (updateRev env i r ref).
Proof. unfold updateRev. quiet_auto. Qed.

Lemma quiet_do_stoull s : quiet (do_stoull s).
Proof. unfold do_stoull. quiet_auto. Qed.

#[local] Hint Resolve quiet_resolveRef quiet_updateRev quiet_do_stoull : quiet.

Lemma quiet_getLastModified_ref r d ref : quiet (getLastModified_ref env r d ref).
Proof. unfold getLastModified_ref. quiet_auto. Qed.

#[local] Hint Resolve quiet_getLastModified_ref : quiet.

Lemma quiet_getLastModified r d rev : quiet (getLastModified env r d rev).
Proof. unfold getLastModified. quiet_auto. Qed.

Lemma quiet_getRevCount r d rev : quiet (getRevCount env r d rev).
Proof. unfold getRevCount. quiet_auto. Qed.

Lemma quiet_getLockedAttrs r n i : quiet (getLockedAttrs r n i).
Proof. unfold getLockedAttrs. quiet_auto. Qed.

Lemma quiet_makeResult2 r o i a acc : quiet (makeResult2 r o i a acc).
Proof. unfold makeResult2. quiet_auto. Qed.

#[local] Hint Resolve quiet_getLastModified quiet_getRevCount quiet_getLockedAttrs
  quiet_makeResult2 : quiet.

Lemma quiet_makeResult r o i a sp : quiet (makeResult env r o i a sp).
Proof. unfold makeResult. quiet_auto. Qed.

Lemma quiet_checkoutSubmodules r i d t : quiet (checkoutSubmodules env r i d t).
Proof. unfold checkoutSubmodules. destruct (shallow r); quiet_auto. Qed.

#[local] Hint Resolve quiet_makeResult quiet_checkoutSubmodules : quiet.

Lemma quiet_materialize r o n i u a ref d rev :
  quiet (materialize env r o n i u a ref d rev).
Proof. unfold materialize. quiet_auto. Qed.

#[local] Hint Resolve quiet_materialize : quiet.

Lemma quiet_finishCommit r o n i u ref d : quiet (finishCommit env r o n i u ref d).
Proof. unfold finishCommit. quiet_auto. Qed.

#[local] Hint Resolve quiet_finishCommit : quiet.

(** *** A fresh ref *)

Section Fresh.

Variable repoInfo : RepoInfo.
Variable input : Input.
Variables (ref : string) (now mtime : Z).

Let cacheDir := getCachePath env (url repoInfo).
Let localRefFile := localRefFileOf cacheDir ref.
Let mirrorInfo := set_gitDir repoInfo ".".

Hypothesis no_rev : attrs input !! "rev" = None.
Hypothesis not_allRefs : allRefs repoInfo = false.
Hypothesis clock : forall t, time env t = now.
Hypothesis ref_file : forall t, stat_mtime env t localRefFile = Some mtime.
Hypothesis within_ttl : now < mtime + tarballTtl env.
Hypothesis not_shallow :
  shallow repoInfo = true
  \/ forall t, chomp (run env t ["-C"; cacheDir; "--git-dir"; "."; "rev-parse";
                                 "--is-shallow-repository"]).2 <> "true".

Lemma decideFetch_fresh :
  returns (fun doFetch => doFetch = false)
          (decideFetch env mirrorInfo input cacheDir localRefFile now).
Proof.
  intros tr b tr' H. unfold decideFetch in H.
  rewrite (proj2 (getRev_None input) no_rev) in H.
  unfold mbind at 1, M_bind at 1 in H. simpl in H.
  rewrite not_allRefs in H.
  unfold mbind at 1, M_bind at 1 in H.
  unfold mbind at 1, M_bind at 1 in H. unfold stat at 1 in H. rewrite ref_file in H.
  unfold mret at 1, M_ret at 1 in H.
  unfold isCacheFileWithinTtl in H.
  destruct (Z.ltb_spec now (mtime + tarballTtl env)) as [_|Hge]; [|lia].
  simpl in H.
  unfold mbind at 1, M_bind at 1 in H.
  destruct (runProgram env _ tr) as [[out| | |] t1] eqn:E; try discriminate.
  injection H as <- _.
  destruct not_shallow as [-> | Hns].
  - simpl. now rewrite andb_false_r.
  - unfold runProgram, runProgramOpts in E. unfold mbind, M_bind in E.
    specialize (Hns tr). simpl in E, Hns.
    destruct (run env tr _) as [status output] eqn:Er.
    destruct (statusOk status); [|discriminate]. injection E as <- _.
    simpl in Hns. destruct (String.eqb_spec (chomp output) "true"); [contradiction|].
    reflexivity.
Qed.

Lemma quiet_decideFetch :
  quiet (decideFetch env mirrorInfo input cacheDir localRefFile now).
Proof.
  unfold decideFetch. quiet_auto.
Qed.

Lemma get_time_now : returns (fun t => t = now) (get_time env).
Proof. intros tr a tr' [= <- _]. apply clock. Qed.

Lemma quiet_updateMirror originalRef :
  quiet (updateMirror env mirrorInfo input originalRef ref cacheDir).
Proof.
  unfold updateMirror.
  apply emits_bind; [quiet_step|]. intros ex.
  apply emits_bind; [quiet_auto|]. intros _.
  eapply emits_bind_returns; [quiet_step | apply get_time_now |]. intros ? ->.
  eapply emits_bind_returns; [apply quiet_decideFetch | apply decideFetch_fresh |].
  intros doFetch ->.
  quiet_auto.
Qed.

#[local] Hint Resolve quiet_updateMirror : quiet.


End Fresh.

(** A mirror that is a shallow repository is fetched when [shallow] is
    false, whatever the file of the ref says. *)
Lemma shallow_mirror_forces_fetch (repoInfo : RepoInfo) (input : Input)
    (repoDir localRefFile : string) (now : Z) :
  shallow repoInfo = false ->
  (forall t, chomp (run env t ["-C"; repoDir; "--git-dir"; gitDir repoInfo; "rev-parse";
                               "--is-shallow-repository"]).2 = "true") ->
  returns (fun doFetch => doFetch = true)
          (decideFetch env repoInfo input repoDir localRefFile now).
Proof.
  intros Hsh Hshallow tr b tr' H. unfold decideFetch in H.
  do 4 minv H.
  match goal with
  | E : runProgram _ _ ?t = (Ret ?out, _) |- _ =>
      unfold runProgram, runProgramOpts in E; rewrite bind_unfold in E;
      specialize (Hshallow t); destruct (run env t _) as [status output];
      destruct (statusOk status); [|discriminate E];
      injection E as <- _; simpl in Hshallow; rewrite Hshallow
  end.
  now rewrite Hsh.
Qed.


End Quiet.



End GitFacts.

(** * Lemmas on strings *)

Module StringLaws.

Lemma append_cons a s t : String a s +:+ t = String a (s +:+ t).
Proof. reflexivity. Qed.

Lemma append_nil t : "" +:+ t = t.
Proof. reflexivity. Qed.

Lemma append_nil_r s : s +:+ "" = s.
Proof. induction s as [|c s IH]; [reflexivity|]. rewrite append_cons. now rewrite IH. Qed.

Lemma append_assoc (a b c : string) : (a +:+ b) +:+ c = a +:+ b +:+ c.
Proof.
  induction a as [|x a IH]; [reflexivity|]. rewrite !append_cons. now rewrite IH.
Qed.

Lemma append_length a b : String.length (a +:+ b) = (String.length a + String.length b)%nat.
Proof.
  induction a as [|c a IH]; [reflexivity|]. rewrite append_cons. simpl. now rewrite IH.
Qed.

Lemma append_inv_tail_char (a b : string) (c d : ascii) :
  a +:+ String c "" = b +:+ String d "" -> a = b /\ c = d.
Proof.
  revert b. induction a as [|x a IH]; intros [|y b];
    rewrite ?append_cons, ?append_nil.
  - intros [= ->]. auto.
  - intros [= -> H]. destruct b; discriminate.
  - intros [= -> H]. destruct a; discriminate.
  - intros [= -> H]. destruct (IH _ H) as [-> ->]. auto.
Qed.

Lemma substring_0_length n s :
  String.length (String.substring 0 n s) = Nat.min n (String.length s).
Proof.
  revert s. induction n as [|n IH]; intros [|c s]; simpl; auto.
Qed.

Lemma substring_0_append a b : String.substring 0 (String.length a) (a +:+ b) = a.
Proof.
  induction a as [|c a IH]; [now destruct b|]. rewrite append_cons. simpl. now rewrite IH.
Qed.

Lemma prefix_app p k :
  String.prefix p k = true <-> k = p +:+ drop_chars (String.length p) k.
Proof.
  revert k. induction p as [|a p IH]; intros k; simpl.
  - destruct k; simpl; tauto.
  - destruct k as [|b k]; simpl; [split; discriminate|].
    destruct (ascii_dec a b) as [->|Hne].
    + rewrite IH. split.
      * intros H. rewrite append_cons, <- H. reflexivity.
      * rewrite append_cons. intros [= H]. exact H.
    + rewrite append_cons. split; [discriminate | intros [= H _]; congruence].
Qed.

Lemma prefix_append p rest : String.prefix p (p +:+ rest) = true.
Proof.
  induction p as [|a p IH]; [now destruct rest|].
  rewrite append_cons. simpl. destruct (ascii_dec a a); [exact IH | congruence].
Qed.

Lemma drop_chars_append p rest : drop_chars (String.length p) (p +:+ rest) = rest.
Proof.
  induction p as [|a p IH]; [now destruct rest|]. rewrite append_cons. exact IH.
Qed.

(** ** The first occurrence of a character *)

Lemma strchr_split s c t :
  strchr s c = Some t ->
  exists pre, s = pre +:+ t /\ strchr pre c = None
              /\ String.substring 0 (String.length s - String.length t) s = pre.
Proof.
  induction s as [|a s IH]; simpl; [discriminate|].
  destruct (Ascii.eqb a c) eqn:E.
  - intros [= <-]. exists "". simpl. rewrite Nat.sub_diag. auto.
  - intros H. destruct (IH H) as (pre & Hs & Hpre & Hsub).
    exists (String a pre). rewrite append_cons. simpl. rewrite E.
    split; [now f_equal|]. split; [exact Hpre|].
    assert (Hlen : (String.length t <= String.length s)%nat).
    { rewrite Hs. clear. induction pre; [rewrite append_nil; lia|].
      rewrite append_cons. simpl. lia. }
    replace (S (String.length s) - String.length t)%nat
      with (S (String.length s - String.length t)) by lia.
    now rewrite Hsub.
Qed.

Lemma strchr_append_None pre c t :
  strchr pre c = None -> strchr (pre +:+ String c t) c = Some (String c t).
Proof.
  induction pre as [|a pre IH]; [rewrite append_nil|rewrite append_cons]; simpl.
  - now rewrite Ascii.eqb_refl.
  - destruct (Ascii.eqb a c); [discriminate | exact IH].
Qed.

End StringLaws.

(** * The order of the index of the ZIP accessor, and what the
      operations read from it *)

Module ZipLaws.
Import Zip StringLaws.

(** ** [cmp_str] is a strict order *)

Lemma ascii_compare_refl a : Ascii.compare a a = Eq.
Proof. unfold Ascii.compare. apply N.compare_refl. Qed.

Lemma ascii_compare_lt_trans a b c :
  Ascii.compare a b = Lt -> Ascii.compare b c = Lt -> Ascii.compare a c = Lt.
Proof.
  unfold Ascii.compare. rewrite !N.compare_lt_iff. lia.
Qed.

Lemma cmp_str_nil_r a : cmp_str a "" = false.
Proof. now destruct a. Qed.

Lemma cmp_str_cons a s b t :
  cmp_str (String a s) (String b t)
  = match Ascii.compare a b with Lt => true | Eq => cmp_str s t | Gt => false end.
Proof.
  unfold cmp_str, String.ltb. simpl. now destruct (Ascii.compare a b).
Qed.

Lemma cmp_str_trans a b c : cmp_str a b = true -> cmp_str b c = true -> cmp_str a c = true.
Proof.
  revert b c. induction a as [|x a IH]; intros [|y b] [|z c]; try discriminate;
    try reflexivity.
  rewrite !cmp_str_cons.
  destruct (Ascii.compare x y) eqn:Exy; try discriminate;
    destruct (Ascii.compare y z) eqn:Eyz; try discriminate.
  - apply Ascii.compare_eq_iff in Exy, Eyz. subst. rewrite ascii_compare_refl.
    apply IH.
  - apply Ascii.compare_eq_iff in Exy. subst. now rewrite Eyz.
  - apply Ascii.compare_eq_iff in Eyz. subst. now rewrite Exy.
  - now rewrite (ascii_compare_lt_trans _ _ _ Exy Eyz).
Qed.

Lemma cmp_str_asym a b : cmp_str a b = true -> cmp_str b a = false.
Proof.
  intros H. destruct (cmp_str b a) eqn:E; [|reflexivity].
  pose proof (cmp_str_trans _ _ _ H E) as C.
  now rewrite ZipFacts.cmp_str_irrefl in C.
Qed.

(** ** Maps in order *)

Lemma ordered_cons kv m :
  ordered (kv :: m) <-> ordered m /\ Forall (key_lt kv) m.
Proof.
  unfold ordered. split.
  - intros H. now apply StronglySorted_inv in H.
  - intros [H1 H2]. now constructor.
Qed.



Lemma emplace_ordered k v m : ordered m -> ordered (emplace k v m).
Proof.
  induction m as [|[k' v'] m IH]; simpl; intros H.
  - apply ordered_cons. split; [exact H | constructor].
  - destruct (cmp_str k k') eqn:E1.
    + apply ordered_cons. split; [exact H|].
      apply ordered_cons in H as [H1 H2]. constructor; [exact E1|].
      rewrite List.Forall_forall in *. intros kv Hin. specialize (H2 _ Hin).
      unfold key_lt in *. simpl in *. eapply cmp_str_trans; eassumption.
    + destruct (cmp_str k' k) eqn:E2; [|exact H].
      apply ordered_cons in H as [H1 H2]. apply ordered_cons. split; [auto|].
      rewrite List.Forall_forall in *. intros kv Hin.
      apply ZipFacts.emplace_in in Hin as [->|Hin]; [exact E2 | auto].
Qed.

Lemma emplace_present k v m : ordered m -> In k (keys m) -> emplace k v m = m.
Proof.
  induction m as [|[k' v'] m IH]; simpl; [tauto|].
  intros H Hin. apply ordered_cons in H as [H1 H2].
  destruct Hin as [->|Hin].
  - now rewrite ZipFacts.cmp_str_irrefl.
  - assert (Hlt : cmp_str k' k = true).
    { apply ZipFacts.keys_in in Hin as [v0 Hin].
      rewrite List.Forall_forall in H2. exact (H2 _ Hin). }
    rewrite (cmp_str_asym _ _ Hlt), Hlt. f_equal. auto.
Qed.

Lemma emplace_absent k v m : ~ In k (keys m) -> In (k, v) (emplace k v m).
Proof.
  induction m as [|[k' v'] m IH]; simpl; intros H.
  - now left.
  - destruct (cmp_str k k') eqn:E1; [now left|].
    destruct (cmp_str k' k) eqn:E2.
    + right. apply IH. tauto.
    + exfalso. apply H. left. symmetry. now apply ZipFacts.cmp_str_total.
Qed.

Lemma find_ordered k v m :
  ordered m -> In (k, v) m -> exists r, find k m = (k, v) :: r.
Proof.
  induction m as [|[k' v'] m IH]; simpl; [tauto|].
  intros H Hin. apply ordered_cons in H as [H1 H2].
  destruct Hin as [[= -> ->]|Hin].
  - rewrite ZipFacts.cmp_str_irrefl. simpl. eauto.
  - assert (Hlt : cmp_str k' k = true).
    { rewrite List.Forall_forall in H2. exact (H2 _ Hin). }
    rewrite Hlt, orb_true_r. auto.
Qed.

(** ** The constructor *)

Lemma first_entries_step za n m sb :
  first_entries za n m -> zip_stat_index za n = Some sb ->
  first_entries za (S n)
    match strchr (name sb) "/" with Some slash => emplace slash sb m | None => m end.
Proof.
  intros (Ho & Hs & Hc) Hn. pose proof (ZipFacts.zip_stat_index_index _ _ _ Hn) as Hi.
  destruct (strchr (name sb) "/") as [slash|] eqn:Es.
  - destruct (in_dec string_dec slash (keys m)) as [Hin|Hout].
    + rewrite (emplace_present _ _ _ Ho Hin). split; [exact Ho|]. split.
      * intros k sb0 H0. destruct (Hs _ _ H0) as (? & ? & ? & ?).
        repeat split; auto; lia.
      * intros j sb0 k Hj Hj0 Hk. destruct (Nat.eq_dec j n) as [->|Hne].
        -- rewrite Hn in Hj0. injection Hj0 as <-. congruence.
        -- apply (Hc j sb0 k); auto. lia.
    + split; [now apply emplace_ordered|]. split.
      * intros k sb0 H0. apply ZipFacts.emplace_in in H0 as [[= -> ->]|H0].
        -- rewrite Hi. repeat split; auto.
           intros j sb' Hj Hj' Hk. apply Hout. apply (Hc j sb' slash); auto.
        -- destruct (Hs _ _ H0) as (? & ? & ? & ?). repeat split; auto; lia.
      * intros j sb0 k Hj Hj0 Hk. destruct (Nat.eq_dec j n) as [->|Hne].
        -- rewrite Hn in Hj0. injection Hj0 as <-. rewrite Es in Hk.
           injection Hk as <-. apply ZipFacts.emplace_key.
        -- apply ZipFacts.keys_in. 
           assert (Hin : In k (keys m)) by (apply (Hc j sb0 k); auto; lia).
           apply ZipFacts.keys_in in Hin as [v Hin]. exists v.
           now apply ZipFacts.emplace_keeps.
  - split; [exact Ho|]. split.
    + intros k sb0 H0. destruct (Hs _ _ H0) as (? & ? & ? & ?). repeat split; auto; lia.
    + intros j sb0 k Hj Hj0 Hk. destruct (Nat.eq_dec j n) as [->|Hne].
      * rewrite Hn in Hj0. injection Hj0 as <-. congruence.
      * apply (Hc j sb0 k); auto. lia.
Qed.

Lemma index_loop_first_entries zipPath za count n m0 m :
  first_entries za n m0 ->
  index_loop zipPath za n count m0 = Ret m ->
  first_entries za (n + count) m.
Proof.
  revert n m0. induction count as [|count IH]; intros n m0 H0; simpl.
  - intros [= <-]. now rewrite Nat.add_0_r.
  - destruct (zip_stat_index za n) as [sb|] eqn:Es; [|discriminate].
    pose proof (first_entries_step _ _ _ _ H0 Es) as H1.
    replace (n + S count)%nat with (S n + count)%nat by lia.
    destruct (strchr (name sb) "/"); apply IH; exact H1.
Qed.

Lemma ZipInputAccessor_first_entries zipPath za members :
  ZipInputAccessor zipPath za = Ret members ->
  first_entries za (length za) members.
Proof.
  intros H. apply (index_loop_first_entries zipPath za (length za) 0 []); [|exact H].
  split; [constructor|]. split; [intros ? ? []|]. intros; lia.
Qed.

Lemma zip_stat_index_entry za n sb :
  zip_stat_index za n = Some sb <->
  exists de, za !! n = Some de /\ sb = {| name := de_name de; index := n; size := de_size de |}.
Proof.
  unfold zip_stat_index. destruct (za !! n) as [de|]; split.
  - intros [= <-]. eauto.
  - intros (de' & [= <-] & ->). reflexivity.
  - discriminate.
  - intros (de' & ? & _). discriminate.
Qed.


(** ** The claim about the index *)

(** C9, as the code has it.  For an archive that libzip has opened and
    whose entries it can stat, the constructor builds the index.  Every
    pair of the index is an entry of the archive under the suffix of
    its name that starts at the first slash, so every key begins with a
    slash.  For an entry whose name has a slash, that suffix is a key,
    and the pair under the key is the first entry of the archive with
    the suffix: the entry itself is in the index exactly when no entry
    before it has the same suffix ([emplace] keeps what is there).  An
    entry without a slash is in no pair.  [pathExists], [readFile],
    [lstat] and [readDirectory] look the canonical path up among these
    keys: whether they find it depends on the first-slash suffixes
    only. *)
Theorem members_keyed_by_first_entry_of_suffix
    (canonPath : string -> string) (zipPath : string) (za : zip) :
  exists members,
    ZipInputAccessor zipPath za = Ret members
    /\ (forall k sb, In (k, sb) members ->
          zip_stat_index za (index sb) = Some sb
          /\ strchr (name sb) "/" = Some k
          /\ exists rest, k = String "/" rest)
    /\ (forall n sb slash, zip_stat_index za n = Some sb ->
          strchr (name sb) "/" = Some slash ->
          (exists first r,
             find slash members = (slash, first) :: r
             /\ (index first <= n)%nat
             /\ zip_stat_index za (index first) = Some first
             /\ strchr (name first) "/" = Some slash
             /\ forall j sb', (j < index first)%nat -> zip_stat_index za j = Some sb' ->
                              strchr (name sb') "/" <> Some slash)
          /\ (In (slash, sb) members <->
              forall j sb', (j < n)%nat -> zip_stat_index za j = Some sb' ->
                            strchr (name sb') "/" <> Some slash))
    /\ (forall n sb, zip_stat_index za n = Some sb ->
          strchr (name sb) "/" = None -> forall k, ~ In (k, sb) members)
    /\ (forall p, pathExists canonPath members p = true
                  <-> first_slash_key za (canonPath p))
    /\ (forall p, readFile canonPath zipPath za members p
                    = Throw (Error ("file '" +:+ canonPath p +:+ "' does not exist"))
                  <-> ~ first_slash_key za (canonPath p))
    /\ (forall p, lstat canonPath zipPath za members p
                    = Throw (Error ("file '" +:+ canonPath p +:+ "' does not exist"))
                  <-> ~ first_slash_key za (canonPath p)
                      /\ ~ first_slash_key za (canonPath p +:+ "/"))
    /\ (forall p, readDirectory canonPath members p
                    = Throw (Error ("directory '" +:+ (canonPath p +:+ "/")
                                    +:+ "' does not exist"))
                  <-> ~ first_slash_key za (canonPath p +:+ "/")).
Proof.
  destruct (ZipFacts.ZipInputAccessor_total zipPath za) as [members Hm].
  exists members. split; [exact Hm |].
  pose proof (ZipFacts.ZipInputAccessor_keys _ _ _ Hm) as Hkeys.
  destruct (ZipInputAccessor_first_entries _ _ _ Hm) as (Ho & Hs & Hc).
  assert (Hnil : forall k, find k members = [] <-> ~ first_slash_key za k).
  { intros k. rewrite <- Hkeys. destruct (find k members); split; try congruence.
    intros H. exfalso. apply H. discriminate. }
  split.
  { intros k sb Hin. destruct (Hs _ _ Hin) as (_ & Hstat & Hslash & _).
    split; [exact Hstat|]. split; [exact Hslash|].
    exact (ZipFacts.strchr_head _ _ _ Hslash). }
  split.
  { intros n sb slash Hn Hslash.
    pose proof (ZipFacts.zip_stat_index_bound _ _ _ Hn) as Hlt.
    pose proof (ZipFacts.zip_stat_index_index _ _ _ Hn) as Hidx.
    assert (Hkey : In slash (keys members)) by exact (Hc n sb slash Hlt Hn Hslash).
    apply ZipFacts.keys_in in Hkey as [first Hin].
    destruct (Hs _ _ Hin) as (_ & Hstat & Hsl & Hfirst).
    assert (Hle : (index first <= n)%nat).
    { destruct (Nat.le_gt_cases (index first) n) as [|Hgt]; [assumption|].
      destruct (Hfirst n sb Hgt Hn Hslash). }
    split.
    - destruct (find_ordered _ _ _ Ho Hin) as [r Hr]. exists first, r. auto.
    - split.
      + intros Hsb. destruct (Hs _ _ Hsb) as (_ & _ & _ & Hf). now rewrite Hidx in Hf.
      + intros Hno. assert (Heq : index first = n).
        { destruct (Nat.eq_dec (index first) n) as [|Hne]; [assumption|].
          destruct (Hno (index first) first); [lia | exact Hstat | exact Hsl]. }
        rewrite Heq in Hstat. rewrite Hn in Hstat. injection Hstat as ->. exact Hin. }
  split.
  { intros n sb Hn Hnone k Hin. destruct (Hs _ _ Hin) as (_ & _ & Hsl & _). congruence. }
  split.
  { intros p. split.
    - intros H. apply Hkeys. now apply ZipFacts.pathExists_find.
    - intros H. apply ZipFacts.pathExists_find. now apply Hkeys. }
  split.
  { intros p. split.
    - intros H. apply Hnil. now apply ZipFacts.readFile_missing in H.
    - intros H. apply ZipFacts.readFile_missing. now apply Hnil. }
  split.
  { intros p. split.
    - intros H. apply ZipFacts.lstat_missing in H as [H1 H2]. split; now apply Hnil.
    - intros [H1 H2]. apply ZipFacts.lstat_missing. split; now apply Hnil. }
  intros p. split.
  - intros H. apply Hnil. now apply ZipFacts.readDirectory_missing in H.
  - intros H. apply ZipFacts.readDirectory_missing. now apply Hnil.
Qed.

(** C9, as it is stated, fails for the second of two entries with the
    same suffix: in [twin_archive] the entry [b/x] has a slash and is
    in no pair of the index, and [/x] is [a/x]. *)
Lemma later_entry_with_the_same_suffix_is_not_indexed :
  ZipInputAccessor "src.zip" Demo.twin_archive = Ret Demo.twin_members
  /\ zip_stat_index Demo.twin_archive 1 = Some {| name := "b/x"; index := 1; size := 6 |}
  /\ strchr "b/x" "/" = Some "/x"
  /\ (forall k, ~ In (k, {| name := "b/x"; index := 1; size := 6 |}) Demo.twin_members)
  /\ readFile Demo.canonical "src.zip" Demo.twin_archive Demo.twin_members "/x"
     = Ret "first".
Proof.
  split; [reflexivity|]. split; [reflexivity|]. split; [reflexivity|].
  split; [|reflexivity].
  intros k [H|[]]. discriminate H.
Qed.

(** X2.  On the index that the constructor builds, [readFile p]
    returns [buf] exactly when the archive has an entry whose name has
    the canonical path as the suffix from its first slash, the first
    such entry can be opened, its contents have at least as many bytes
    as the size in its header, and [buf] is the first [size] bytes of
    them. *)
Theorem readFile_reads_the_first_entry
    (canonPath : string -> string) (zipPath : string) (za : zip) :
  exists members,
    ZipInputAccessor zipPath za = Ret members
    /\ forall p buf,
         readFile canonPath zipPath za members p = Ret buf <->
         exists n de data,
           za !! n = Some de
           /\ strchr (de_name de) "/" = Some (canonPath p)
           /\ (forall j de', (j < n)%nat -> za !! j = Some de' ->
                 strchr (de_name de') "/" <> Some (canonPath p))
           /\ de_contents de = Some data
           /\ (N.to_nat (de_size de) <= String.length data)%nat
           /\ buf = String.substring 0 (N.to_nat (de_size de)) data.
Proof.
  destruct (ZipFacts.ZipInputAccessor_total zipPath za) as [members Hm].
  exists members. split; [exact Hm|].
  destruct (ZipInputAccessor_first_entries _ _ _ Hm) as (Ho & Hs & Hc).
  intros p buf. unfold readFile. split.
  - destruct (find (canonPath p) members) as [|[k sb] r] eqn:Ef; [discriminate|].
    pose proof (ZipFacts.find_spec (canonPath p) members) as Hk. rewrite Ef in Hk.
    destruct Hk as [-> _].
    pose proof (ZipFacts.find_head_in _ _ _ _ Ef) as Hin.
    destruct (Hs _ _ Hin) as (_ & Hidx & Hslash & Hfirst).
    apply zip_stat_index_entry in Hidx as (de & Hde & Hsb).
    rewrite Hde. destruct de as [nm sz [data|] ea]; [|discriminate].
    destruct (N.eqb_spec
                (N.of_nat (String.length (String.substring 0 (N.to_nat (size sb)) data)))
                (size sb)) as [Hlen|]; [|discriminate].
    intros [= <-]. exists (index sb), {| de_name := nm; de_size := sz;
                                        de_contents := Some data; de_extattr := ea |}, data.
    rewrite Hsb in *. simpl in *.
    split; [exact Hde|]. split; [exact Hslash|]. split.
    { intros j de' Hj Hde'. apply (Hfirst j {| name := de_name de'; index := j;
                                              size := de_size de' |}); [exact Hj|].
      apply zip_stat_index_entry. eauto. }
    split; [reflexivity|]. split; [|reflexivity].
    rewrite substring_0_length in Hlen. lia.
  - intros (n & de & data & Hde & Hslash & Hfirst & Hdata & Hlen & ->).
    set (sb := {| name := de_name de; index := n; size := de_size de |}).
    assert (Hn : zip_stat_index za n = Some sb) by (apply zip_stat_index_entry; eauto).
    assert (Hin : In (canonPath p) (keys members)).
    { apply (Hc n sb); [|exact Hn|exact Hslash]. eapply lookup_lt_Some; eauto. }
    apply ZipFacts.keys_in in Hin as [sb0 Hin].
    destruct (Hs _ _ Hin) as (_ & Hidx0 & Hslash0 & Hfirst0).
    assert (index sb0 = n).
    { destruct (Nat.lt_trichotomy (index sb0) n) as [Hlt|[Heq|Hgt]]; [|exact Heq|].
      - apply zip_stat_index_entry in Hidx0 as (de0 & Hde0 & Hsb0).
        destruct (Hfirst _ _ Hlt Hde0). rewrite Hsb0 in Hslash0. exact Hslash0.
      - destruct (Hfirst0 _ _ Hgt Hn Hslash). }
    assert (sb0 = sb) by congruence. subst sb0.
    destruct (find_ordered _ _ _ Ho Hin) as [r ->]. simpl.
    rewrite Hde. destruct de as [nm sz c ea]. simpl in *. subst c.
    rewrite substring_0_length.
    destruct (N.eqb_spec (N.of_nat (Nat.min (N.to_nat sz) (String.length data))) sz);
      [reflexivity | lia].
Qed.

(** ** Keys with a prefix *)

Lemma cmp_str_append p rest : rest <> "" -> cmp_str p (p +:+ rest) = true.
Proof.
  intros H. induction p as [|a p IH].
  - rewrite append_nil. destruct rest; [congruence | reflexivity].
  - rewrite append_cons, cmp_str_cons, ascii_compare_refl. exact IH.
Qed.

(** Between a string and a string that it is a prefix of, every string
    has that prefix. *)
Lemma prefix_between p k1 k2 :
  cmp_str p k1 = true -> cmp_str k1 k2 = true -> String.prefix p k2 = true ->
  String.prefix p k1 = true.
Proof.
  revert k1 k2. induction p as [|a p IH]; intros k1 k2; [now destruct k1|].
  destruct k1 as [|b k1]; [discriminate|].
  destruct k2 as [|c k2]; [now rewrite cmp_str_nil_r|].
  rewrite !cmp_str_cons. simpl.
  destruct (ascii_dec a c) as [<-|]; [|discriminate].
  destruct (Ascii.compare a b) eqn:Eab; [| |discriminate].
  - apply Ascii.compare_eq_iff in Eab. subst b. rewrite ascii_compare_refl.
    destruct (ascii_dec a a); [|congruence]. apply IH.
  - rewrite Ascii.compare_antisym in Eab.
    destruct (Ascii.compare b a); simpl in Eab; discriminate.
Qed.

(** ** [readDirectory] *)

Lemma child_name_spec path k name :
  String.prefix path k = true ->
  child_name path k = Some name <-> entry_name path k name.
Proof.
  intros Hp. apply prefix_app in Hp. unfold child_name, entry_name.
  set (start := drop_chars (String.length path) k) in *. split.
  - destruct (strchr start "/") as [slash|] eqn:Es.
    + destruct (String.eqb_spec slash "/") as [->|]; [|discriminate].
      destruct (strchr_split _ _ _ Es) as (pre & Hs & Hpre & Hsub).
      rewrite Hsub. intros [= <-]. split; [exact Hpre|]. right. now rewrite <- Hs.
    + intros [= <-]. split; [exact Es|]. now left.
  - intros [Hn [Hk|Hk]].
    + assert (start = name) as ->.
      { subst start. rewrite Hk. apply drop_chars_append. }
      now rewrite Hn.
    + assert (start = name +:+ "/") as ->.
      { subst start. rewrite Hk. apply drop_chars_append. }
      rewrite (strchr_append_None _ _ _ Hn). simpl.
      rewrite append_length. simpl.
      replace (String.length name + 1 - 1)%nat with (String.length name) by lia.
      now rewrite substring_0_append.
Qed.

Lemma readDirectory_loop_cons path first sb i entries :
  readDirectory_loop path ((first, sb) :: i) entries
  = if String.prefix path first then
      readDirectory_loop path i
        match child_name path first with
        | Some n => entries_emplace n None entries
        | None => entries
        end
    else entries.
Proof.
  simpl. unfold child_name. destruct (String.prefix path first); [|reflexivity].
  destruct (strchr _ "/") as [slash|]; [|reflexivity].
  now destruct (String.eqb slash "/").
Qed.

Lemma entries_emplace_lookup n v (es : DirEntries) name :
  entries_emplace n v es !! name
  = match es !! name with
    | Some w => Some w
    | None => if decide (n = name) then Some v else None
    end.
Proof.
  unfold entries_emplace. destruct (es !! n) as [w|] eqn:E.
  - destruct (es !! name) eqn:E'; [reflexivity|].
    destruct (decide (n = name)) as [->|]; [congruence | reflexivity].
  - destruct (decide (n = name)) as [->|Hne].
    + now rewrite lookup_insert_eq, E.
    + rewrite lookup_insert_ne by exact Hne. now destruct (es !! name).
Qed.

Lemma readDirectory_loop_keeps path i entries name v :
  entries !! name = Some v -> readDirectory_loop path i entries !! name = Some v.
Proof.
  revert entries. induction i as [|[first sb] i IH]; intros entries H; [exact H|].
  rewrite readDirectory_loop_cons. destruct (String.prefix path first); [|exact H].
  apply IH. destruct (child_name path first); [|exact H].
  now rewrite entries_emplace_lookup, H.
Qed.

Lemma readDirectory_loop_sound path i entries name v :
  readDirectory_loop path i entries !! name = Some v ->
  entries !! name = Some v
  \/ (v = None /\ exists k, In k (keys i) /\ String.prefix path k = true
                            /\ child_name path k = Some name).
Proof.
  revert entries. induction i as [|[first sb] i IH]; intros entries; [now left|].
  rewrite readDirectory_loop_cons.
  destruct (String.prefix path first) eqn:Ep; [|now left].
  intros H. destruct (IH _ H) as [H'|(-> & k & Hin & Hk)].
  - destruct (child_name path first) as [n|] eqn:Ec; [|now left].
    rewrite entries_emplace_lookup in H'.
    destruct (entries !! name); [now left|].
    destruct (decide (n = name)) as [->|]; [|discriminate].
    injection H' as <-. right. split; [reflexivity|]. exists first. simpl. auto.
  - right. split; [reflexivity|]. exists k. simpl. tauto.
Qed.

Lemma readDirectory_loop_complete path i entries k name :
  ordered i -> Forall (fun kv => cmp_str path kv.1 = true) i ->
  In k (keys i) -> String.prefix path k = true -> child_name path k = Some name ->
  is_Some (readDirectory_loop path i entries !! name).
Proof.
  revert entries. induction i as [|[first sb] i IH]; intros entries Ho Hgt Hin Hp Hc;
    [destruct Hin|].
  apply ordered_cons in Ho as [Ho Hlt]. inversion Hgt as [|? ? Hfirst Hrest]; subst.
  simpl in Hfirst. rewrite readDirectory_loop_cons. destruct Hin as [Hk|Hin].
  - simpl in Hk. subst first. rewrite Hp, Hc.
    destruct (readDirectory_loop path i (entries_emplace name None entries) !! name)
      as [v|] eqn:E; [eauto|].
    assert (is_Some (entries_emplace name None entries !! name)) as [w Hw].
    { rewrite entries_emplace_lookup. destruct (entries !! name); [eauto|].
      destruct (decide (name = name)); [eauto | congruence]. }
    rewrite (readDirectory_loop_keeps _ _ _ _ _ Hw) in E. discriminate.
  - assert (Hpf : String.prefix path first = true).
    { apply (prefix_between path first k); [exact Hfirst| |exact Hp].
      apply ZipFacts.keys_in in Hin as [v Hin].
      rewrite List.Forall_forall in Hlt. exact (Hlt _ Hin). }
    rewrite Hpf. now apply IH.
Qed.

Lemma find_ordered_tail k m kv i :
  ordered m -> find k m = kv :: i ->
  kv.1 = k /\ ordered i /\ Forall (fun x => cmp_str k x.1 = true) i
  /\ forall k', In k' (keys m) -> cmp_str k k' = true -> In k' (keys i).
Proof.
  induction m as [|[k0 v0] m IH]; simpl; [discriminate|].
  intros Ho Hf. apply ordered_cons in Ho as [Ho Hlt].
  destruct (cmp_str k k0 || cmp_str k0 k) eqn:E.
  - destruct (IH Ho Hf) as (H1 & H2 & H3 & H4). do 3 (split; [assumption|]).
    intros k' [<-|Hin] Hk'; [|auto]. exfalso.
    assert (Hk : In k (keys m)).
    { pose proof (ZipFacts.find_spec k m) as Hs. rewrite Hf in Hs.
      destruct kv. tauto. }
    apply ZipFacts.keys_in in Hk as [v Hk].
    rewrite List.Forall_forall in Hlt. specialize (Hlt _ Hk). unfold key_lt in Hlt.
    simpl in Hlt. apply cmp_str_asym in Hlt. congruence.
  - apply ZipFacts.equiv_key_iff in E. subst k0. injection Hf as <- <-.
    split; [reflexivity|]. split; [exact Ho|]. split; [exact Hlt|].
    intros k' [<-|Hin] Hk'; [|exact Hin].
    now rewrite ZipFacts.cmp_str_irrefl in Hk'.
Qed.

Lemma readDirectory_ordered canonPath members p entries :
  ordered members ->
  readDirectory canonPath members p = Ret entries ->
  forall name,
    (is_Some (entries !! name) -> entries !! name = Some None)
    /\ (entries !! name = Some None <->
        exists k, In k (keys members) /\ k <> canonPath p +:+ "/"
                  /\ entry_name (canonPath p +:+ "/") k name).
Proof.
  intros Ho. unfold readDirectory.
  set (path := canonPath p +:+ "/").
  destruct (find path members) as [|kv i] eqn:Ef; [discriminate|]. intros [= <-] name.
  destruct (find_ordered_tail _ _ _ _ Ho Ef) as (Hkv & Hoi & Hgt & Hafter).
  assert (Hsub : forall k, In k (keys i) -> In k (keys members)).
  { intros k Hk. destruct (ZipFacts.find_suffix path members) as [front E].
    rewrite E, Ef. unfold keys. rewrite map_app. apply in_or_app. right. now right. }
  assert (Hsound : forall v, readDirectory_loop path i ∅ !! name = Some v ->
            v = None /\ exists k, In k (keys members) /\ k <> path
                                  /\ entry_name path k name).
  { intros v Hv. apply readDirectory_loop_sound in Hv as [Hv|(-> & k & Hin & Hp & Hc)].
    - rewrite lookup_empty in Hv. discriminate.
    - split; [reflexivity|]. exists k. split; [auto|]. split.
      + intros ->. apply ZipFacts.keys_in in Hin as [v Hin].
        rewrite List.Forall_forall in Hgt. specialize (Hgt _ Hin). simpl in Hgt.
        now rewrite ZipFacts.cmp_str_irrefl in Hgt.
      + now apply child_name_spec. }
  split.
  - intros [v Hv]. destruct (Hsound _ Hv) as [-> _]. exact Hv.
  - split.
    + intros Hv. now destruct (Hsound _ Hv).
    + intros (k & Hin & Hne & Hen).
      assert (Hp : String.prefix path k = true).
      { destruct Hen as [_ [-> | ->]]; apply prefix_append. }
      assert (Hlt : cmp_str path k = true).
      { destruct Hen as [_ [Hk | Hk]]; rewrite Hk; apply cmp_str_append.
        - intros ->. apply Hne. now rewrite Hk, append_nil_r.
        - now destruct name. }
      destruct (readDirectory_loop_complete path i ∅ k name Hoi Hgt
                  (Hafter _ Hin Hlt) Hp (proj2 (child_name_spec _ _ _ Hp) Hen)) as [v Hv].
      destruct (Hsound _ Hv) as [-> _]. exact Hv.
Qed.

(** X3.  On the index that the constructor builds, a listing that
    [readDirectory p] returns maps every name in it to no type
    ([std::nullopt]), and it has the name [name] exactly when some key
    of the index other than the directory's own is the directory's key
    followed by [name], with or without a slash at the end, where
    [name] has no slash itself: the files and directories directly
    under [p], and nothing deeper. *)
Theorem readDirectory_lists_the_children
    (canonPath : string -> string) (zipPath : string) (za : zip) :
  exists members,
    ZipInputAccessor zipPath za = Ret members
    /\ forall p entries name,
         readDirectory canonPath members p = Ret entries ->
         (is_Some (entries !! name) -> entries !! name = Some None)
         /\ (entries !! name = Some None <->
             exists k, first_slash_key za k /\ k <> canonPath p +:+ "/"
                       /\ entry_name (canonPath p +:+ "/") k name).
Proof.
  destruct (ZipFacts.ZipInputAccessor_total zipPath za) as [members Hm].
  exists members. split; [exact Hm|]. intros p entries name Hr.
  destruct (ZipInputAccessor_first_entries _ _ _ Hm) as (Ho & _ & _).
  destruct (readDirectory_ordered _ _ _ _ Ho Hr name) as [H1 H2].
  split; [exact H1|]. rewrite H2.
  assert (Hk : forall k, In k (keys members) <-> first_slash_key za k).
  { intros k. rewrite <- (ZipFacts.ZipInputAccessor_keys _ _ _ Hm k).
    rewrite ZipFacts.find_nil_iff.
    destruct (in_dec string_dec k (keys members)); tauto. }
  split; intros (k & Hin & Hrest); exists k; (split; [now apply Hk | exact Hrest]).
Qed.

(** ** [lstat] *)

(** X4.  When [lstat p] returns, the type in the result is [tRegular]
    if the canonical path is a key of the index and [tDirectory] if
    only the path with a slash at the end is one, whatever the origin
    system and the mode of the entry say; and the result is executable
    exactly when the entry found was stored by a Unix system with the
    mode of a regular file (0100000) and bit 0100 set. *)
Theorem lstat_type_follows_the_key
    (canonPath : string -> string) (zipPath : string) (zipFile : zip)
    (members : Members) (p : string) (st : Stat) :
  lstat canonPath zipPath zipFile members p = Ret st ->
  type st = (if pathExists canonPath members p then tRegular else tDirectory)
  /\ (isExecutable st = true <->
      exists k sb r attributes,
        (if pathExists canonPath members p then find (canonPath p) members
         else find (canonPath p +:+ "/") members) = (k, sb) :: r
        /\ zip_file_get_external_attributes zipFile (index sb)
           = Some (ZIP_OPSYS_UNIX, attributes)
        /\ Z.land (Z.shiftr attributes 16) 0x3F000 = 0x8000
        /\ Z.land (Z.shiftr attributes 16) 0x40 <> 0).
Proof.
  unfold lstat, pathExists.
  set (i := find (canonPath p) members).
  assert (Hgen : forall (t : Type_) (k : string) (sb : zip_stat) (r : Members),
    match zip_file_get_external_attributes zipFile (index sb) with
    | None =>
        Throw (Error ("couldn't get external attributes of '" +:+ canonPath p +:+ "' in '"
                        +:+ zipPath +:+ "'"))
    | Some (opsys, attributes) =>
        if opsys =? ZIP_OPSYS_UNIX then
          if Z.land (Z.shiftr attributes 16) 0x3F000 =? 0x4000 then
            Ret {| type := t; isExecutable := false |}
          else if Z.land (Z.shiftr attributes 16) 0x3F000 =? 0x8000 then
            Ret {| type := t;
                   isExecutable := negb (Z.land (Z.shiftr attributes 16) 0x40 =? 0) |}
          else if Z.land (Z.shiftr attributes 16) 0x3F000 =? 0xA000 then
            Ret {| type := t; isExecutable := false |}
          else
            Throw (Error ("file '" +:+ canonPath p +:+ "' in '" +:+ zipPath
                          +:+ "' has unsupported type "
                          +:+ fmt_octal (Z.land (Z.shiftr attributes 16) 0x3F000)))
        else Ret {| type := t; isExecutable := false |}
    end = Ret st ->
    type st = t
    /\ (isExecutable st = true <->
        exists k' sb' r' attributes,
          (k, sb) :: r = (k', sb') :: r'
          /\ zip_file_get_external_attributes zipFile (index sb')
             = Some (ZIP_OPSYS_UNIX, attributes)
          /\ Z.land (Z.shiftr attributes 16) 0x3F000 = 0x8000
          /\ Z.land (Z.shiftr attributes 16) 0x40 <> 0)).
  { intros t k sb r.
    destruct (zip_file_get_external_attributes zipFile (index sb))
      as [[opsys attributes]|] eqn:Ea; [|discriminate].
    assert (Hno : forall st', st' = {| type := t; isExecutable := false |} ->
              (opsys = ZIP_OPSYS_UNIX -> Z.land (Z.shiftr attributes 16) 0x3F000 <> 0x8000) ->
              type st' = t
              /\ (isExecutable st' = true <->
                  exists k' sb' r' attributes',
                    (k, sb) :: r = (k', sb') :: r'
                    /\ zip_file_get_external_attributes zipFile (index sb')
                       = Some (ZIP_OPSYS_UNIX, attributes')
                    /\ Z.land (Z.shiftr attributes' 16) 0x3F000 = 0x8000
                    /\ Z.land (Z.shiftr attributes' 16) 0x40 <> 0)).
    { intros st' -> Hmode. split; [reflexivity|]. simpl. split; [discriminate|].
      intros (k' & sb' & r' & a' & [= <- <- <-] & Ha' & Hm & _).
      rewrite Ea in Ha'. injection Ha' as -> <-. now destruct Hmode. }
    destruct (Z.eqb_spec opsys ZIP_OPSYS_UNIX) as [->|Hos].
    - destruct (Z.eqb_spec (Z.land (Z.shiftr attributes 16) 0x3F000) 0x4000) as [E1|E1].
      { intros [= <-]. apply Hno; [reflexivity|]. intros _. rewrite E1. discriminate. }
      destruct (Z.eqb_spec (Z.land (Z.shiftr attributes 16) 0x3F000) 0x8000) as [E2|E2].
      { intros H. assert (Hst : st = {| type := t;
                    isExecutable := negb (Z.land (Z.shiftr attributes 16) 0x40 =? 0) |})
          by congruence.
        clear H. subst st. split; [reflexivity|]. cbn [isExecutable]. split.
        - intros Hx. exists k, sb, r, attributes. do 3 (split; [auto|]).
          destruct (Z.eqb_spec (Z.land (Z.shiftr attributes 16) 0x40) 0);
            [discriminate | assumption].
        - intros (k' & sb' & r' & a' & [= <- <- <-] & Ha' & _ & Hbit).
          rewrite Ea in Ha'. injection Ha' as <-.
          destruct (Z.eqb_spec (Z.land (Z.shiftr attributes 16) 0x40) 0);
            [contradiction | reflexivity]. }
      destruct (Z.eqb_spec (Z.land (Z.shiftr attributes 16) 0x3F000) 0xA000) as [E3|E3];
        [|discriminate].
      intros [= <-]. apply Hno; [reflexivity|]. intros _. exact E2.
    - intros [= <-]. apply Hno; [reflexivity|]. intros ->. now destruct Hos. }
  destruct i as [|[k sb] r] eqn:Ei.
  - destruct (find (canonPath p +:+ "/") members) as [|[k sb] r] eqn:Ed; [discriminate|].
    apply Hgen.
  - apply Hgen.
Qed.

(** The executable [/ab] of [tree_archive]. *)
Lemma lstat_type_follows_the_key_witness :
  exists st,
    lstat Demo.canonical "src.zip" Demo.tree_archive Demo.tree_members "/ab" = Ret st
    /\ type st = tRegular /\ isExecutable st = true.
Proof.
  destruct (lstat Demo.canonical "src.zip" Demo.tree_archive Demo.tree_members "/ab")
    as [st|e|w|w] eqn:E; [| vm_compute in E; discriminate ..].
  exists st. split; [reflexivity|].
  destruct (lstat_type_follows_the_key _ _ _ _ _ _ E) as [Ht Hx].
  split; [exact Ht|]. apply Hx.
  exists "/ab", {| name := "pkg/ab"; index := 5; size := 2 |}, [], 0x81ED0000.
  repeat split; vm_compute; congruence.
Defined.

(** In [tree_archive] the second [pkg/a/b.txt] is not in the index and
    is not what [readFile] reads; [/a] lists [b.txt] and [c], not [d],
    which is deeper, and not [ab], which is beside it. *)
Example tree_archive_index :
  ZipInputAccessor "src.zip" Demo.tree_archive = Ret Demo.tree_members
  /\ readFile Demo.canonical "src.zip" Demo.tree_archive Demo.tree_members "/a/b.txt"
     = Ret "b"
  /\ readDirectory Demo.canonical Demo.tree_members "/a"
     = Ret (<["b.txt" := None]> (<["c" := None]> ∅))
  /\ lstat Demo.canonical "src.zip" Demo.tree_archive Demo.tree_members "/a"
     = Ret {| type := tDirectory; isExecutable := false |}.
Proof. repeat split; vm_compute; reflexivity. Qed.

End ZipLaws.

(** * The scheme, the repository and the traces of the Git fetcher *)

Module GitLaws.
Import Git GitFacts StringLaws.

(** ** Addresses and attributes *)

Section SchemeLaws.

Context {X : Externals}.

Lemma emplace_lookup {V} (k : string) (v : V) (m : gmap string V) k' :
  emplace k v m !! k'
  = match m !! k' with
    | Some w => Some w
    | None => if decide (k = k') then Some v else None
    end.
Proof.
  unfold emplace. destruct (m !! k) as [w|] eqn:E.
  - destruct (m !! k') eqn:E'; [reflexivity|].
    destruct (decide (k = k')) as [->|]; [congruence | reflexivity].
  - destruct (decide (k = k')) as [->|Hne].
    + now rewrite lookup_insert_eq, E.
    + rewrite lookup_insert_ne by exact Hne. now destruct (m !! k').
Qed.

Lemma promote_fold (l : list (string * string)) (a : Attrs) (q : gmap string string) :
  forall a' q', fold_left promote_param l (a, q) = (a', q') ->
  forall k,
    a' !! k = match a !! k with
              | Some v => Some v
              | None => promoted (list_to_map l) k
              end
    /\ q' !! k = match q !! k with
                 | Some v => Some v
                 | None => if is_promoted k then None
                           else (list_to_map l : gmap string string) !! k
                 end.
Proof.
  revert a q. induction l as [|[name value] l IH]; intros a q a' q'; simpl.
  - intros [= <- <-] k. unfold promoted. rewrite !lookup_empty. simpl.
    destruct (a !! k), (q !! k); repeat case_match; auto.
  - intros H k.
    destruct (bool_decide (name = "rev") || bool_decide (name = "ref")) eqn:E1;
      [|destruct (bool_decide (name = "shallow") || bool_decide (name = "submodules"))
          eqn:E2];
      destruct (IH _ _ _ _ H k) as [Ha Hq]; rewrite Ha, Hq; clear Ha Hq H IH;
      rewrite ?emplace_lookup; unfold promoted, is_promoted.
    + split.
      * destruct (a !! k); [reflexivity|].
        destruct (decide (name = k)) as [->|Hne].
        -- rewrite E1. now rewrite lookup_insert_eq.
        -- now rewrite lookup_insert_ne by exact Hne.
      * destruct (q !! k); [reflexivity|].
        destruct (decide (name = k)) as [->|Hne].
        -- apply orb_true_iff in E1 as [E1|E1]; apply bool_decide_eq_true in E1;
             subst k; reflexivity.
        -- now rewrite lookup_insert_ne by exact Hne.
    + split.
      * destruct (a !! k); [reflexivity|].
        destruct (decide (name = k)) as [->|Hne].
        -- rewrite E1, E2. now rewrite lookup_insert_eq.
        -- now rewrite lookup_insert_ne by exact Hne.
      * destruct (q !! k); [reflexivity|].
        destruct (decide (name = k)) as [->|Hne].
        -- apply orb_true_iff in E2 as [E2|E2]; apply bool_decide_eq_true in E2;
             subst k; reflexivity.
        -- now rewrite lookup_insert_ne by exact Hne.
    + split.
      * destruct (a !! k); [reflexivity|].
        destruct (decide (name = k)) as [->|Hne].
        -- now rewrite E1, E2.
        -- now rewrite lookup_insert_ne by exact Hne.
      * destruct (q !! k); [reflexivity|].
        destruct (decide (name = k)) as [->|Hne].
        -- rewrite lookup_insert_eq.
           apply orb_false_iff in E1 as [E1a E1b]. apply orb_false_iff in E2 as [E2a E2b].
           apply bool_decide_eq_false in E1a, E1b, E2a, E2b.
           rewrite bool_decide_eq_false_2; [reflexivity|].
           rewrite !elem_of_cons, elem_of_nil. tauto.
        -- now rewrite lookup_insert_ne by exact Hne.
Qed.


Lemma inputFromURL_attrs (url : ParsedURL) :
  url_scheme url ∈ ["git"; "git+http"; "git+https"; "git+ssh"; "git+file"] ->
  exists a : Attrs,
    inputFromURL url = inputFromAttrs a
    /\ a !! "type" = Some (AttrString "git")
    /\ a !! "url" = Some (AttrString (url_to_string (plain_url url)))
    /\ (forall k, is_promoted k = true -> a !! k = promoted (url_query url) k)
    /\ (forall k, k <> "type" -> k <> "url" -> is_promoted k = false -> a !! k = None).
Proof.
  intros Hs. unfold inputFromURL. rewrite bool_decide_eq_true_2 by exact Hs.
  cbn [negb]. cbv zeta. cbn [url_query set_query].
  destruct (fold_left promote_param (map_to_list (url_query url))
              (emplace "type" (AttrString "git") ∅, ∅)) as [a q] eqn:Ef.
  pose proof (promote_fold _ _ _ _ _ Ef) as Hf.
  rewrite list_to_map_to_list in Hf.
  assert (Hq : q = filter (fun kv : string * string => is_promoted kv.1 = false)
                     (url_query url)).
  { apply map_eq. intros k. destruct (Hf k) as [_ ->]. rewrite lookup_empty.
    rewrite map_lookup_filter. destruct (url_query url !! k) as [v|] eqn:E; simpl.
    - destruct (is_promoted k);
        [rewrite option_guard_False by discriminate
        |rewrite option_guard_True by reflexivity]; reflexivity.
    - now destruct (is_promoted k). }
  assert (Hu : set_query
                 (set_query
                    (if String.prefix "git+" (url_scheme url)
                     then set_scheme url (drop_chars 4 (url_scheme url)) else url) ∅) q
               = plain_url url).
  { unfold plain_url. rewrite <- Hq. now destruct (String.prefix "git+" (url_scheme url)). }
  rewrite Hu. eexists. split; [reflexivity|].
  assert (Ha : forall k, a !! k = match (emplace "type" (AttrString "git") ∅ : Attrs) !! k with
                                  | Some v => Some v
                                  | None => promoted (url_query url) k
                                  end).
  { intros k. now destruct (Hf k) as [-> _]. }
  assert (Ht : forall k, (emplace "type" (AttrString "git") ∅ : Attrs) !! k
                         = if decide ("type" = k) then Some (AttrString "git") else None).
  { intros k. rewrite emplace_lookup, lookup_empty. reflexivity. }
  assert (Hl : forall k,
            emplace "url" (AttrString (url_to_string (plain_url url))) a !! k
            = if decide ("type" = k) then Some (AttrString "git")
              else match promoted (url_query url) k with
                   | Some v => Some v
                   | None => if decide ("url" = k)
                             then Some (AttrString (url_to_string (plain_url url)))
                             else None
                   end).
  { intros k. rewrite emplace_lookup, Ha, Ht. now destruct (decide ("type" = k)). }
  split; [now rewrite Hl|]. split; [now rewrite Hl|]. split.
  - intros k Hk. rewrite Hl. destruct (decide ("type" = k)) as [<-|]; [discriminate|].
    destruct (promoted (url_query url) k) eqn:Ep; [reflexivity|].
    destruct (decide ("url" = k)) as [<-|]; [discriminate | reflexivity].
  - intros k H1 H2 Hk. rewrite Hl. destruct (decide ("type" = k)); [congruence|].
    assert (Hp : promoted (url_query url) k = None).
    { unfold promoted. unfold is_promoted in Hk. apply bool_decide_eq_false in Hk.
      rewrite !elem_of_cons, elem_of_nil in Hk.
      rewrite !bool_decide_eq_false_2 by tauto. reflexivity. }
    rewrite Hp. destruct (decide ("url" = k)); [congruence | reflexivity].
Qed.


Lemma maybeGetBoolAttr_Ret (a : Attrs) k o :
  maybeGetBoolAttr a k = Ret o <-> a !! k = AttrBool <$> o.
Proof.
  unfold maybeGetBoolAttr. destruct (a !! k) as [[]|], o; simpl; split; congruence.
Qed.

Lemma maybeGetStrAttr_Ret (a : Attrs) k o :
  maybeGetStrAttr a k = Ret o <-> a !! k = AttrString <$> o.
Proof.
  unfold maybeGetStrAttr. destruct (a !! k) as [[]|], o; simpl; split; congruence.
Qed.

(** X5.  [inputFromAttrs] returns an input exactly when [type] is the
    string ["git"], every attribute has one of the eleven supported
    names, [url] is a string that [parseURL] accepts, each of [shallow],
    [submodules] and [allRefs] that is present is a Boolean, and [ref],
    when present, is a string that the pattern of bad ref names does not
    match; the input then has exactly the attributes given.  It returns
    no input, without an error, exactly when [type] is missing or is a
    string other than ["git"]. *)
Theorem inputFromAttrs_accepts (a : Attrs) :
  (forall input,
     inputFromAttrs a = Ret (Some input) <->
     input = {| attrs := a |}
     /\ a !! "type" = Some (AttrString "git")
     /\ (forall k v, a !! k = Some v -> supported_attribute k = true)
     /\ (exists s u, a !! "url" = Some (AttrString s) /\ parseURL s = inr u)
     /\ (forall k v, k ∈ ["shallow"; "submodules"; "allRefs"] -> a !! k = Some v ->
           exists b, v = AttrBool b)
     /\ (forall v, a !! "ref" = Some v -> exists r, v = AttrString r /\ badGitRef r = false))
  /\ (inputFromAttrs a = Ret None <->
      a !! "type" = None \/ exists s, a !! "type" = Some (AttrString s) /\ s <> "git").
Proof.
  split.
  - intros input. unfold inputFromAttrs. split.
    + intros H. bind_inv H. apply maybeGetStrAttr_Ret in E.
      destruct (bool_decide_reflect (a0 = Some "git")) as [->|]; [|discriminate].
      simpl in *. destruct (first_unsupported a) eqn:Eu; [discriminate|].
      bind_inv H. bind_inv H. bind_inv H. bind_inv H. bind_inv H. bind_inv H.
      apply maybeGetBoolAttr_Ret in E2, E3, E4. apply maybeGetStrAttr_Ret in E5.
      unfold getStrAttr in E0. bind_inv E0. apply maybeGetStrAttr_Ret in E6.
      destruct a6 as [s|]; [|discriminate]. injection E0 as ->.
      destruct (parseURL a0) as [e|u] eqn:Ep; [discriminate|].
      assert (Hin : input = {| attrs := a |}
                    /\ forall v, a !! "ref" = Some v ->
                                 exists r, v = AttrString r /\ badGitRef r = false).
      { rewrite E5. destruct a5 as [r|]; simpl.
        - destruct (badGitRef r) eqn:Eb; [discriminate|]. injection H as <-.
          split; [reflexivity|]. intros v [= <-]. eauto.
        - injection H as <-. split; [reflexivity|]. discriminate. }
      destruct Hin as [-> Href]. split; [reflexivity|]. split; [exact E|].
      split; [now apply first_unsupported_None|]. split; [eauto|]. split; [|exact Href].
      intros k v Hk Hv. rewrite !elem_of_cons, elem_of_nil in Hk.
      destruct Hk as [->|[->|[->|[]]]].
      * rewrite E2 in Hv. destruct a2; simpl in Hv; [|discriminate]. injection Hv as <-. eauto.
      * rewrite E3 in Hv. destruct a3; simpl in Hv; [|discriminate]. injection Hv as <-. eauto.
      * rewrite E4 in Hv. destruct a4; simpl in Hv; [|discriminate]. injection Hv as <-. eauto.
    + intros (-> & Ht & Hsup & (s & u & Hurl & Hp) & Hbool & Href).
      apply first_unsupported_None in Hsup.
      unfold getStrAttr, maybeGetStrAttr, maybeGetBoolAttr.
      rewrite Ht, Hurl. simpl. rewrite Hsup. simpl. rewrite Hp. simpl.
      assert (Hb : forall k, k ∈ ["shallow"; "submodules"; "allRefs"] ->
                exists o, a !! k = AttrBool <$> o).
      { intros k Hk. destruct (a !! k) as [v|] eqn:Ev; [|now exists None].
        destruct (Hbool k v Hk Ev) as [b ->]. now exists (Some b). }
      destruct (Hb "shallow") as [o1 ->]; [set_solver|].
      destruct (Hb "submodules") as [o2 ->]; [set_solver|].
      destruct (Hb "allRefs") as [o3 ->]; [set_solver|].
      destruct o1, o2, o3; simpl;
        (destruct (a !! "ref") as [v|] eqn:Er; [|reflexivity];
         destruct (Href v eq_refl) as (r & -> & Hbad); simpl; now rewrite Hbad).
  - unfold inputFromAttrs, maybeGetStrAttr.
    destruct (a !! "type") as [[s| |]|] eqn:Et; simpl.
    + destruct (bool_decide_reflect (Some s = Some "git")) as [[= ->]|Hne]; simpl.
      * split.
        -- intros H. exfalso. destruct (first_unsupported a); [discriminate|].
           bind_inv H. bind_inv H. bind_inv H. bind_inv H. bind_inv H. bind_inv H.
           destruct a5; [destruct (badGitRef _)|]; discriminate.
        -- intros [?|(s & [= <-] & Hs)]; [discriminate | congruence].
      * split; [|reflexivity]. intros _. right. exists s. split; [reflexivity|].
        congruence.
    + split; [discriminate|]. intros [?|(s & ? & _)]; discriminate.
    + split; [discriminate|]. intros [?|(s & ? & _)]; discriminate.
    + split; [|reflexivity]. now left.
Qed.

Lemma inputFromURL_Ret (url : ParsedURL) (input : Input) :
  inputFromURL url = Ret (Some input) ->
  url_scheme url ∈ ["git"; "git+http"; "git+https"; "git+ssh"; "git+file"]
  /\ attrs input !! "type" = Some (AttrString "git")
  /\ attrs input !! "url" = Some (AttrString (url_to_string (plain_url url)))
  /\ (forall k, is_promoted k = true -> attrs input !! k = promoted (url_query url) k)
  /\ (forall k, k <> "type" -> k <> "url" -> is_promoted k = false ->
        attrs input !! k = None).
Proof.
  intros H.
  destruct (decide (url_scheme url
                    ∈ ["git"; "git+http"; "git+https"; "git+ssh"; "git+file"]))
    as [Hs|Hs].
  - split; [exact Hs|].
    destruct (inputFromURL_attrs url Hs) as (a & Ha & H1 & H2 & H3 & H4).
    rewrite Ha in H. apply inputFromAttrs_attrs in H. rewrite H. auto.
  - unfold inputFromURL in H. rewrite bool_decide_eq_false_2 in H by exact Hs.
    discriminate.
Qed.

(** X6.  [inputFromURL] takes no address whose scheme is not one of
    the five.  In an input that it returns, [type] is ["git"]; [url] is
    the address printed without the prefix [git+] of its scheme and
    without the parameters [rev], [ref], [shallow] and [submodules];
    [rev] and [ref] are the parameters of that name as strings;
    [shallow] and [submodules] are Booleans that are true exactly for
    the value ["1"]; and there is no other attribute. *)
Theorem inputFromURL_promotes_parameters (url : ParsedURL) :
  (url_scheme url ∉ ["git"; "git+http"; "git+https"; "git+ssh"; "git+file"] ->
   inputFromURL url = Ret None)
  /\ forall input,
       inputFromURL url = Ret (Some input) ->
       url_scheme url ∈ ["git"; "git+http"; "git+https"; "git+ssh"; "git+file"]
       /\ attrs input !! "type" = Some (AttrString "git")
       /\ attrs input !! "url" = Some (AttrString (url_to_string (plain_url url)))
       /\ (forall k, is_promoted k = true ->
             attrs input !! k = promoted (url_query url) k)
       /\ (forall k, k <> "type" -> k <> "url" -> is_promoted k = false ->
             attrs input !! k = None).
Proof.
  split.
  - intros Hs. unfold inputFromURL. now rewrite bool_decide_eq_false_2 by exact Hs.
  - intros input H. now apply inputFromURL_Ret.
Qed.

Lemma plain_scheme (url : ParsedURL) :
  url_scheme url ∈ ["git"; "git+http"; "git+https"; "git+ssh"; "git+file"] ->
  (if negb (String.eqb (url_scheme (plain_url url)) "git")
   then "git+" +:+ url_scheme (plain_url url) else url_scheme (plain_url url))
  = url_scheme url.
Proof.
  intros Hs. unfold plain_url. rewrite !elem_of_cons, elem_of_nil in Hs.
  destruct Hs as [E|[E|[E|[E|[E|[]]]]]]; rewrite E; simpl; rewrite ?E; reflexivity.
Qed.

Lemma toURL_parts (input : Input) s u0 (o : option Hash) (r : option string)
    (b : option bool) :
  attrs input !! "url" = Some (AttrString s) -> parseURL s = inr u0 ->
  getRev input = Ret o -> getRef input = Ret r ->
  maybeGetBoolAttr (attrs input) "shallow" = Ret b ->
  exists url',
    toURL input = Ret url'
    /\ url_scheme url'
       = (if negb (String.eqb (url_scheme u0) "git")
          then "git+" +:+ url_scheme u0 else url_scheme u0)
    /\ url_authority url' = url_authority u0
    /\ url_path url' = url_path u0
    /\ url_fragment url' = url_fragment u0
    /\ url_query url' !! "rev"
       = match o with Some h => Some (gitRev h) | None => url_query u0 !! "rev" end
    /\ url_query url' !! "ref"
       = match r with Some x => Some x | None => url_query u0 !! "ref" end
    /\ url_query url' !! "shallow"
       = (if default false b then Some "1" else url_query u0 !! "shallow")
    /\ forall k, k <> "rev" -> k <> "ref" -> k <> "shallow" ->
                 url_query url' !! k = url_query u0 !! k.
Proof.
  intros Hu Hp Hrev Href Hsh. unfold toURL, getStrAttr, maybeGetStrAttr.
  rewrite Hu. simpl. rewrite Hp. simpl. rewrite Hrev. simpl. rewrite Href. simpl.
  rewrite Hsh. simpl. eexists. split; [reflexivity|].
  destruct (negb (String.eqb (url_scheme u0) "git")), o as [h|], r as [x|],
    (default false b); simpl;
    repeat (rewrite lookup_insert_eq || rewrite lookup_insert_ne by discriminate);
    (do 7 (split; [reflexivity|]));
    intros k H1 H2 H3; rewrite ?lookup_insert_ne by congruence; reflexivity.
Qed.

(** X7.  For an address that [inputFromURL] accepts, [toURL] of the
    input gives the address back when the address has no parameter
    [submodules], its parameter [shallow], if any, is ["1"], its
    parameter [rev], if any, is a hash in the form that [gitRev] prints,
    and the address without the promoted parameters is parsed back from
    its text. *)
Theorem toURL_after_inputFromURL (url : ParsedURL) (input : Input) (u0 : ParsedURL) :
  inputFromURL url = Ret (Some input) ->
  parseURL (url_to_string (plain_url url)) = inr u0 ->
  same_url u0 (plain_url url) ->
  (forall s, url_query url !! "rev" = Some s ->
             exists h, parseHash s = inr h /\ gitRev h = s) ->
  url_query url !! "submodules" = None ->
  (forall v, url_query url !! "shallow" = Some v -> v = "1") ->
  exists url', toURL input = Ret url' /\ same_url url' url.
Proof.
  intros Hin Hparse (Hs0 & Ha0 & Hp0 & Hq0 & Hf0) Hrev Hsub Hsh.
  destruct (inputFromURL_Ret url input Hin) as (Hs & Ht & Hu & Hpro & _).
  pose proof (Hpro "rev" eq_refl) as Hr. pose proof (Hpro "ref" eq_refl) as Hf.
  pose proof (Hpro "shallow" eq_refl) as Hh. unfold promoted in Hr, Hf, Hh.
  simpl in Hr, Hf, Hh.
  assert (Hrev' : exists o : option Hash,
            getRev input = Ret o /\ gitRev <$> o = url_query url !! "rev").
  { unfold getRev, maybeGetStrAttr. rewrite Hr.
    destruct (url_query url !! "rev") as [s|] eqn:E; simpl.
    - destruct (Hrev s eq_refl) as (h & -> & Hg). simpl. exists (Some h).
      simpl. now rewrite Hg.
    - now exists None. }
  destruct Hrev' as (o & Ho & Hog).
  assert (Href' : getRef input = Ret (url_query url !! "ref")).
  { unfold getRef, maybeGetStrAttr. rewrite Hf. now destruct (url_query url !! "ref"). }
  assert (Hsh' : exists b : option bool,
            maybeGetBoolAttr (attrs input) "shallow" = Ret b
            /\ (default false b = true <-> is_Some (url_query url !! "shallow"))).
  { unfold maybeGetBoolAttr. rewrite Hh.
    destruct (url_query url !! "shallow") as [v|] eqn:E; simpl.
    - rewrite (Hsh v eq_refl). exists (Some true). split; [reflexivity|]. simpl.
      split; eauto.
    - exists None. split; [reflexivity|]. simpl. split; [discriminate|].
      intros [? ?]. discriminate. }
  destruct Hsh' as (b & Hb & Hbs).
  destruct (toURL_parts input _ u0 o _ b Hu Hparse Ho Href' Hb)
    as (url' & Hto & P1 & P2 & P3 & P4 & Q1 & Q2 & Q3 & Q4).
  exists url'. split; [exact Hto|].
  assert (Hk0 : forall k, url_query u0 !! k
                          = if is_promoted k then None else url_query url !! k).
  { intros k. rewrite Hq0. unfold plain_url. simpl. rewrite map_lookup_filter.
    destruct (url_query url !! k) as [v|]; simpl; [|now destruct (is_promoted k)].
    destruct (is_promoted k);
      [rewrite option_guard_False by discriminate
      |rewrite option_guard_True by reflexivity]; reflexivity. }
  unfold same_url. split; [|split; [|split; [|split]]].
  - rewrite P1, Hs0. now apply plain_scheme.
  - rewrite P2, Ha0. unfold plain_url. simpl.
    now destruct (String.prefix "git+" (url_scheme url)).
  - rewrite P3, Hp0. unfold plain_url. simpl.
    now destruct (String.prefix "git+" (url_scheme url)).
  - assert (Hpr : is_promoted "rev" = true /\ is_promoted "ref" = true
                  /\ is_promoted "shallow" = true) by (repeat split; reflexivity).
    destruct Hpr as (Hp1 & Hp2 & Hp3).
    apply map_eq. intros k.
    destruct (decide (k = "rev")) as [->|N1].
    { rewrite Q1, Hk0, Hp1. rewrite <- Hog. now destruct o. }
    destruct (decide (k = "ref")) as [->|N2].
    { rewrite Q2, Hk0, Hp2. now destruct (url_query url !! "ref"). }
    destruct (decide (k = "shallow")) as [->|N3].
    { rewrite Q3, Hk0, Hp3. destruct (default false b) eqn:Eb.
      - destruct (proj1 Hbs eq_refl) as [v Hv]. now rewrite Hv, (Hsh v Hv).
      - destruct (url_query url !! "shallow") as [v|] eqn:Ev; [|reflexivity].
        discriminate (proj2 Hbs (ex_intro _ v eq_refl)). }
    rewrite Q4, Hk0 by assumption.
    destruct (decide (k = "submodules")) as [->|N4]; [now rewrite Hsub|].
    unfold is_promoted. rewrite bool_decide_eq_false_2; [reflexivity|].
    rewrite !elem_of_cons, elem_of_nil. tauto.
  - rewrite P4, Hf0. unfold plain_url. simpl.
    now destruct (String.prefix "git+" (url_scheme url)).
Qed.

(** X8.  In the input that [applyOverrides] returns, [rev] is the
    given revision as [gitRev] prints it, or the input's [rev] when
    none is given; [ref] is the given ref, or the input's; every other
    attribute is the input's; and with neither given the result is the
    input itself. *)
Theorem applyOverrides_changes_rev_and_ref
    (input : Input) (ref : option string) (rev : option Hash) (res : Input) :
  applyOverrides input ref rev = Ret res ->
  attrs res !! "rev"
  = match rev with
    | Some h => Some (AttrString (gitRev h))
    | None => attrs input !! "rev"
    end
  /\ attrs res !! "ref"
     = match ref with
       | Some r => Some (AttrString r)
       | None => attrs input !! "ref"
       end
  /\ (forall k, k <> "rev" -> k <> "ref" -> attrs res !! k = attrs input !! k)
  /\ (ref = None -> rev = None -> res = input).
Proof.
  unfold applyOverrides. intros H.
  assert (Hres : res = match ref with
                       | Some ref =>
                           {| attrs := <["ref" := AttrString ref]>
                                (attrs match rev with
                                       | Some rev =>
                                           {| attrs := <["rev" := AttrString (gitRev rev)]>
                                                         (attrs input) |}
                                       | None => input
                                       end) |}
                       | None => match rev with
                                 | Some rev =>
                                     {| attrs := <["rev" := AttrString (gitRev rev)]>
                                                   (attrs input) |}
                                 | None => input
                                 end
                       end).
  { bind_inv H. destruct a as [r|]; [now injection H as <-|].
    bind_inv H. destruct a as [h|]; [bind_inv H; discriminate|]. now injection H as <-. }
  clear H. subst res.
  destruct ref as [r|], rev as [h|]; simpl;
    repeat (rewrite lookup_insert_eq || rewrite lookup_insert_ne by discriminate);
    (do 2 (split; [reflexivity|])); (split; [|intros; congruence]);
    intros k H1 H2; now rewrite ?lookup_insert_ne by congruence.
Qed.

(** X9.  [getFingerprint] gives no fingerprint exactly when
    [isLocked] says the input is not locked; and two inputs with the
    same fingerprint have the same revision, as [gitRev] prints it, and
    the same value of [submodules]. *)
Theorem getFingerprint_tells_rev_and_submodules (input1 input2 : Input) :
  (getFingerprint input1 = Ret None <-> isLocked input1 = Ret false)
  /\ forall f,
       getFingerprint input1 = Ret (Some f) -> getFingerprint input2 = Ret (Some f) ->
       (exists h1 h2, getRev input1 = Ret (Some h1) /\ getRev input2 = Ret (Some h2)
                      /\ gitRev h1 = gitRev h2)
       /\ getSubmodulesAttr input1 = getSubmodulesAttr input2.
Proof.
  split.
  - unfold getFingerprint, isLocked.
    destruct (getRev input1) as [[h|]|e|w|w]; simpl; try (split; discriminate).
    + split; [|discriminate]. destruct (getSubmodulesAttr input1); discriminate.
    + split; reflexivity.
  - intros f H1 H2. unfold getFingerprint in H1, H2.
    bind_inv H1. bind_inv H2. destruct a as [h1|]; [|discriminate].
    destruct a0 as [h2|]; [|discriminate]. bind_inv H1. bind_inv H2.
    injection H1 as <-. injection H2 as H2.
    assert (Hf : gitRev h2 = gitRev h1 /\ a0 = a).
    { assert (Hc : (gitRev h2 +:+ ";") +:+ (if a0 : bool then "1" else "0")
                   = (gitRev h1 +:+ ";") +:+ (if a : bool then "1" else "0")).
      { rewrite !append_assoc. exact H2. }
      destruct a0, a;
        apply append_inv_tail_char in Hc as [Hc Hd]; try discriminate;
        apply append_inv_tail_char in Hc as [Hc _]; auto. }
    destruct Hf as [Hg ->]. split; [eauto|]. congruence.
Qed.

End SchemeLaws.

(** The address [pinned_url], with [ref], [rev] and [shallow=1], comes
    back. *)
Lemma toURL_after_inputFromURL_witness :
  exists input,
    inputFromURL (X := Demo.library) Demo.pinned_url = Ret (Some input)
    /\ exists url', toURL input = Ret url' /\ same_url url' Demo.pinned_url.
Proof.
  destruct (inputFromURL (X := Demo.library) Demo.pinned_url) as [[input|]|e|w|w] eqn:E;
    [| vm_compute in E; discriminate ..].
  exists input. split; [reflexivity|].
  apply (toURL_after_inputFromURL (X := Demo.library) Demo.pinned_url input
           (Demo.mkURL "https" "example.org" "/r.git" ∅) E).
  - vm_compute. reflexivity.
  - repeat split; vm_compute; reflexivity.
  - intros s Hs. exists Demo.hash1. vm_compute in Hs. injection Hs as <-.
    split; reflexivity.
  - vm_compute. reflexivity.
  - intros v Hv. vm_compute in Hv. now injection Hv as <-.
Defined.

(** Pinning the input with the ref [main] to [rev1]. *)
Lemma applyOverrides_changes_rev_and_ref_witness :
  exists res,
    applyOverrides (X := Demo.library) Demo.main_input None (Some Demo.hash1) = Ret res
    /\ attrs res !! "rev" = Some (AttrString Demo.rev1)
    /\ attrs res !! "ref" = Some (AttrString "main")
    /\ attrs res !! "url" = Some (AttrString Demo.remote).
Proof.
  destruct (applyOverrides (X := Demo.library) Demo.main_input None (Some Demo.hash1))
    as [res|e|w|w] eqn:E; [| vm_compute in E; discriminate ..].
  exists res. split; [reflexivity|].
  destruct (applyOverrides_changes_rev_and_ref (X := Demo.library) _ _ _ _ E)
    as (H1 & H2 & H3 & _).
  split; [exact H1|]. split; [rewrite H2; reflexivity|].
  rewrite H3 by discriminate. reflexivity.
Defined.

(** ** [getRepoInfo], [clone] and [putFile] *)

Section RepoLaws.

Context {X : Externals}.
Variable env : Env.

Lemma try_catch_Ret_inv {A} (c : M A) h tr a tr' :
  try_catch c h tr = (Ret a, tr') ->
  c tr = (Ret a, tr')
  \/ exists e t k, c tr = (Throw e, t) /\ h e = Some k /\ k t = (Ret a, tr').
Proof.
  unfold try_catch. destruct (c tr) as [[a'|e|w|w] t] eqn:E; try discriminate.
  - intros [= <- <-]. now left.
  - destruct (h e) as [k|] eqn:Eh; [|discriminate]. intros H. right. exists e, t, k. auto.
Qed.

Lemma checkHashType_Ret h t u t' : checkHashType h t = (Ret u, t') -> t' = t.
Proof.
  unfold checkHashType. destruct h as [h|]; [|now intros [= _ <-]].
  destruct (negb _); [discriminate | now intros [= _ <-]].
Qed.

Ltac pure_inv :=
  repeat match goal with
         | E : lift _ _ = (Ret _, _) |- _ => apply lift_Ret_inv in E as [E ?]; subst
         | E : pathExists _ _ _ = (Ret _, _) |- _ =>
             unfold pathExists in E; injection E as ? ?; subst
         | E : mret _ _ = (Ret _, _) |- _ => apply mret_Ret_inv in E as [? ?]; subst
         | E : (if _ then checkHashType _ else mret _) _ = (Ret _, _) |- _ =>
             first [ apply checkHashType_Ret in E
                   | match type of E with
                     | (if ?b then _ else _) _ = _ =>
                         destruct b;
                         [apply checkHashType_Ret in E | apply mret_Ret_inv in E as [_ E]]
                     end ]; subst
         end.

Lemma getRepoInfo_Ret input tr r tr' :
  getRepoInfo env input tr = (Ret r, tr') ->
  exists (sh al : option bool) (sm : bool) s parsed,
    maybeGetBoolAttr (attrs input) "shallow" = Ret sh
    /\ getSubmodulesAttr input = Ret sm
    /\ maybeGetBoolAttr (attrs input) "allRefs" = Ret al
    /\ getStrAttr (attrs input) "url" = Ret s /\ parseURL s = inr parsed
    /\ shallow r = default false sh /\ submodules r = sm /\ allRefs r = default false al
    /\ cacheType r = cacheTypeOf (shallow r) (submodules r) (allRefs r)
    /\ gitDir r = ".git"
    /\ isLocal r = (String.eqb (url_scheme parsed) "file" && negb (forceHttp env)
                    && negb (String.eqb (url_scheme parsed) "file"
                             && negb (path_exists env tr (url_path parsed +:+ "/.git"))))
    /\ url r = (if isLocal r then url_path parsed else url_base parsed)
    /\ ((attrs input !! "ref" = None /\ attrs input !! "rev" = None /\ isLocal r = true)
        \/ (isDirty r = false /\ hasHead r = true /\ tr' = tr))
    /\ (hasHead r = false -> isDirty r = true)
    /\ (exists o, getRev input = Ret o) /\ (exists o, getRef input = Ret o).
Proof.
  unfold getRepoInfo. intros H. do 10 minv H. pure_inv.
  all: match goal with
  | E : call (parseURL ?s) = Ret ?p |- _ =>
      destruct (parseURL s) as [e|parsed] eqn:Ep; [discriminate E|];
      simpl in E; injection E as <-
  end.
  all: match goal with
  | Hsh : maybeGetBoolAttr _ "shallow" = Ret ?sh, Hal : maybeGetBoolAttr _ "allRefs" = Ret ?al,
    Hsm : getSubmodulesAttr _ = Ret ?sm, Hs : getStrAttr _ "url" = Ret ?s |- _ =>
      exists sh, al, sm, s, parsed
  end.
  all: do 5 (split; [assumption|]).
  all: minv H.
  all: first [ minv H; destruct a5 as [status errorMessage]; minv H; cbv zeta in H;
               minv H; minv H
             | minv H ].
  all: simplify_eq; cbn [shallow submodules allRefs cacheType gitDir isLocal url isDirty
                          hasHead].
  all: do 3 (split; [reflexivity|]).
  all: (split; [unfold cacheTypeOf; now destruct (default false a1), a2,
                  (default false a3)|]).
  all: do 3 (split; [reflexivity|]).
  all: pose proof E as Hrev0; pose proof E7 as Href0.
  all: split; [|split];
    [ first
        [ right; repeat split; reflexivity
        | left;
          apply andb_true_iff in Heqb as [Hc Hl]; apply andb_true_iff in Hc as [Hr1 Hr2];
          destruct a7; [discriminate Hr1|]; destruct a8; [discriminate Hr2|];
          simpl in E8; apply getRev_None in E8; apply maybeGetStrAttr_None in E7;
          auto ]
    | first
        [ discriminate
        | intros Hh;
          match goal with
          | E : try_catch _ _ _ = (Ret _, _) |- _ =>
              rewrite Hh in E; unfold try_catch, mret, M_ret in E; now injection E as <-
          end ]
    | split; eauto ].
Qed.


Lemma maybeGetBoolAttr_true (a : Attrs) k o :
  maybeGetBoolAttr a k = Ret o ->
  (default false o = true <-> a !! k = Some (AttrBool true)).
Proof.
  unfold maybeGetBoolAttr. destruct (a !! k) as [[| |[]]|]; try discriminate;
    intros [= <-]; simpl; split; congruence.
Qed.

(** X10.  In the [RepoInfo] that [getRepoInfo] returns, each of
    [shallow], [submodules] and [allRefs] is true exactly when the
    input has the attribute with the value [true], and [cacheType] is
    ["git"] followed by [-shallow], [-submodules] and [-all-refs] for
    the flags that are set, a name from which the three flags can be
    read back: inputs that differ in a flag have different cache
    types. *)
Theorem cacheType_tells_the_flags (input : Input) (tr : list Event) (r : RepoInfo)
    (tr' : list Event) :
  getRepoInfo env input tr = (Ret r, tr') ->
  (shallow r = true <-> attrs input !! "shallow" = Some (AttrBool true))
  /\ (submodules r = true <-> attrs input !! "submodules" = Some (AttrBool true))
  /\ (allRefs r = true <-> attrs input !! "allRefs" = Some (AttrBool true))
  /\ cacheType r = cacheTypeOf (shallow r) (submodules r) (allRefs r)
  /\ forall s m a, cacheTypeOf s m a = cacheType r ->
                   s = shallow r /\ m = submodules r /\ a = allRefs r.
Proof.
  intros H. apply getRepoInfo_Ret in H
    as (sh & al & sm & s & parsed & Hsh & Hsm & Hal & _ & _ & E1 & E2 & E3 & Ec & _).
  split; [rewrite E1; now apply maybeGetBoolAttr_true|].
  split.
  { rewrite E2. unfold getSubmodulesAttr in Hsm. bind_inv Hsm. injection Hsm as <-.
    now apply maybeGetBoolAttr_true. }
  split; [rewrite E3; now apply maybeGetBoolAttr_true|].
  split; [exact Ec|].
  intros s0 m a. rewrite Ec.
  destruct s0, m, a, (shallow r), (submodules r), (allRefs r); intros Hc;
    first [ discriminate Hc | auto ].
Qed.

(** X11.  When [getRepoInfo] returns, the repository is dirty only if
    it is local and the input has neither [ref] nor [rev]; a repository
    without a [HEAD] is dirty; a repository is local only if [forceHttp]
    is off; and for a repository that is not local, or an input with a
    [ref] or a [rev], [getRepoInfo] starts no child process and adds
    nothing to the trace. *)
Theorem dirty_means_local_and_unpinned (input : Input) (tr : list Event) (r : RepoInfo)
    (tr' : list Event) :
  getRepoInfo env input tr = (Ret r, tr') ->
  (isDirty r = true ->
   isLocal r = true /\ attrs input !! "ref" = None /\ attrs input !! "rev" = None)
  /\ (hasHead r = false -> isDirty r = true)
  /\ (isLocal r = true -> forceHttp env = false)
  /\ (isLocal r = false \/ is_Some (attrs input !! "ref")
      \/ is_Some (attrs input !! "rev") -> tr' = tr).
Proof.
  intros H. apply getRepoInfo_Ret in H
    as (sh & al & sm & s & parsed & _ & _ & _ & _ & _ & _ & _ & _ & _ & _ & El & _
        & Hd & Hh & _).
  split; [|split; [exact Hh|split]].
  - intros Hdirty. destruct Hd as [(? & ? & ?)|(Hf & _)]; [auto | congruence].
  - rewrite El. intros Hl. apply andb_true_iff in Hl as [Hl _].
    apply andb_true_iff in Hl as [_ Hl]. now destruct (forceHttp env).
  - intros Hp. destruct Hd as [(Href & Hrev & Hl)|(_ & _ & Ht)]; [|exact Ht].
    rewrite Href, Hrev, Hl in Hp.
    destruct Hp as [?|[[? ?]|[? ?]]]; discriminate.
Qed.


(** X12.  When [getRepoInfo] returns for the input, [clone] of an
    input with a [rev] throws "cloning a specific revision is not
    implemented" without starting [git clone]; and [clone] of an input
    without a [rev] adds exactly one child process to what [getRepoInfo]
    did, [git clone <url> [--branch <ref>] <destDir>] with the address
    of the [RepoInfo], and returns only if that process exits with
    status 0. *)
Theorem clone_runs_git_clone (input : Input) (destDir : string) (tr : list Event)
    (r : RepoInfo) (t : list Event) :
  getRepoInfo env input tr = (Ret r, t) ->
  (is_Some (attrs input !! "rev") ->
   clone env input destDir tr
   = (Throw (UnimplementedError "cloning a specific revision is not implemented"), tr))
  /\ (attrs input !! "rev" = None ->
      exists ref,
        getRef input = Ret ref
        /\ forall o tr', clone env input destDir tr = (o, tr') ->
             tr' = (t ++ [EvRunProgram (["clone"; url r]
                                         ++ match ref with
                                            | Some x => ["--branch"; x]
                                            | None => []
                                            end ++ [destDir])])%list
             /\ (forall u, o = Ret u ->
                   statusOk (run env t (["clone"; url r]
                                          ++ match ref with
                                             | Some x => ["--branch"; x]
                                             | None => []
                                             end ++ [destDir])%list).1 = true)).
Proof.
  intros H. pose proof (getRepoInfo_Ret _ _ _ _ H) as
    (sh & al & sm & s & parsed & _ & _ & _ & _ & _ & _ & _ & _ & _ & _ & _ & _ & Hd & _
     & [o Hrev] & [ref Href]).
  split.
  - intros Hsome.
    assert (Ht : t = tr).
    { destruct Hd as [(_ & Hnone & _)|(_ & _ & ->)]; [|reflexivity].
      rewrite Hnone in Hsome. now destruct Hsome. }
    subst t. unfold clone. rewrite bind_unfold, H. rewrite bind_unfold. unfold lift at 1.
    rewrite Href. rewrite bind_unfold. unfold lift at 1. rewrite Hrev.
    destruct o as [h|]; [reflexivity|].
    apply getRev_None in Hrev. rewrite Hrev in Hsome. now destruct Hsome.
  - intros Hnone. exists ref. split; [exact Href|]. intros o' tr'.
    unfold clone. rewrite bind_unfold, H. rewrite bind_unfold. unfold lift at 1.
    rewrite Href. rewrite bind_unfold. unfold lift at 1.
    rewrite (proj2 (getRev_None input) Hnone). simpl.
    rewrite bind_unfold. unfold runProgram. rewrite bind_unfold.
    unfold runProgramOpts at 1.
    destruct ref as [x|]; simpl;
      match goal with
      | |- context [run env t ?args] => destruct (run env t args) as [status out]
      end; simpl; destruct (statusOk status); simpl;
      intros [= <- <-]; (split; [reflexivity|]); intros u; congruence.
Qed.

End RepoLaws.

(** A shallow input: the cache type is [git-shallow]. *)
Lemma cacheType_tells_the_flags_witness :
  exists r tr',
    getRepoInfo (X := Demo.library) (Demo.world Demo.fresh)
      (Demo.git_input [("ref", AttrString "main"); ("shallow", AttrBool true)]) []
    = (Ret r, tr')
    /\ shallow r = true /\ cacheType r = cacheTypeOf true (submodules r) (allRefs r).
Proof.
  destruct (getRepoInfo (X := Demo.library) (Demo.world Demo.fresh)
              (Demo.git_input [("ref", AttrString "main"); ("shallow", AttrBool true)]) [])
    as [[r|e|w|w] tr'] eqn:E; [| vm_compute in E; discriminate ..].
  exists r, tr'. split; [reflexivity|].
  destruct (cacheType_tells_the_flags (X := Demo.library) _ _ _ _ _ E)
    as (H1 & _ & _ & H4 & _).
  assert (Hs : shallow r = true) by (apply H1; reflexivity).
  split; [exact Hs|]. now rewrite H4, Hs.
Defined.

(** The work tree at [/work/repo], where [git diff] exits with 1, is
    dirty. *)
Lemma dirty_means_local_and_unpinned_witness :
  exists r tr',
    getRepoInfo (X := Demo.library) (Demo.checkout_world 256) Demo.checkout_input []
    = (Ret r, tr')
    /\ isDirty r = true /\ isLocal r = true
    /\ attrs Demo.checkout_input !! "ref" = None
    /\ attrs Demo.checkout_input !! "rev" = None.
Proof.
  destruct (getRepoInfo (X := Demo.library) (Demo.checkout_world 256)
              Demo.checkout_input [])
    as [[r|e|w|w] tr'] eqn:E; [| vm_compute in E; discriminate ..].
  exists r, tr'. split; [reflexivity|].
  assert (Hd : isDirty r = true) by (vm_compute in E; now injection E as <- _).
  destruct (dirty_means_local_and_unpinned (X := Demo.library) _ _ _ _ _ E) as (H1 & _).
  destruct (H1 Hd) as (Hl & Href & Hrev). auto.
Defined.

(** Cloning the branch [main] of [remote]. *)
Lemma clone_runs_git_clone_witness :
  exists o tr',
    clone (X := Demo.library) (Demo.world Demo.fresh) Demo.main_input "/tmp/dest" []
    = (o, tr')
    /\ tr' = [EvRunProgram ["clone"; Demo.remote; "--branch"; "main"; "/tmp/dest"]].
Proof.
  destruct (getRepoInfo (X := Demo.library) (Demo.world Demo.fresh) Demo.main_input [])
    as [[r|e|w|w] t] eqn:E; [| vm_compute in E; discriminate ..].
  destruct (proj2 (clone_runs_git_clone (X := Demo.library) (Demo.world Demo.fresh)
                     Demo.main_input "/tmp/dest" [] r t E) eq_refl)
    as (ref & Href & Hc).
  destruct (clone (X := Demo.library) (Demo.world Demo.fresh) Demo.main_input
              "/tmp/dest" []) as [o tr'] eqn:Ec.
  exists o, tr'. split; [reflexivity|].
  destruct (Hc o tr' eq_refl) as [Ht _]. rewrite Ht.
  vm_compute in E. injection E as <- <-.
  vm_compute in Href. injection Href as <-. reflexivity.
Defined.

Section PutFileLaws.

Context {X : Externals}.
Variable env : Env.
Variable canon_join : string -> string -> string.
Variable canon_rel : string -> string.
Variable write_error : list Event -> string -> option string.

(** X13.  When [getRepoInfo] returns for the input, [putFile] on a
    repository that is not local throws "cannot commit ... because it's
    not a working tree" and writes nothing; and when [putFile] returns
    on a local repository it has, after what [getRepoInfo] did, written
    the file at the path under the work tree, run [git add
    --intent-to-add -- <path>] and, only if a commit message was given,
    [git commit <path> -m <message>], in this order and nothing else. *)
Theorem putFile_needs_a_work_tree (input : Input) (path contents : string)
    (commitMsg : option string) (tr : list Event) (r : RepoInfo) (t : list Event) :
  getRepoInfo env input tr = (Ret r, t) ->
  (isLocal r = false ->
   exists s, Input_to_string input = Ret s
     /\ putFile env canon_join canon_rel write_error input path contents commitMsg tr
        = (Throw (Error ("cannot commit '" +:+ path +:+ "' to Git repository '" +:+ s
                         +:+ "' because it's not a working tree")), tr))
  /\ (isLocal r = true ->
      forall u tr',
        putFile env canon_join canon_rel write_error input path contents commitMsg tr
        = (Ret u, tr') ->
        tr' = (t ++ [EvWriteFile (canon_join (CanonPath (url r)) path) contents;
                     EvRunProgram ["-C"; url r; "--git-dir"; ".git"; "add";
                                   "--intent-to-add"; "--"; canon_rel path]]
                 ++ match commitMsg with
                    | Some msg => [EvRunProgram ["-C"; url r; "--git-dir"; ".git"; "commit";
                                                 canon_rel path; "-m"; msg]]
                    | None => []
                    end)%list).
Proof.
  intros H. pose proof (getRepoInfo_Ret _ _ _ _ _ H) as
    (sh & al & sm & s & parsed & Hsh & _ & _ & Hs & Hp & _ & _ & _ & _ & Hg & _ & _ & Hd & _
     & [o Hrev] & [ref Href]).
  split.
  - intros Hl.
    assert (Ht : t = tr).
    { destruct Hd as [(_ & _ & Hl')|(_ & _ & ->)]; [congruence | reflexivity]. }
    subst t.
    assert (Hto : exists u, toURL input = Ret u).
    { unfold toURL. rewrite Hs. simpl. rewrite Hp. simpl. rewrite Hrev. simpl.
      rewrite Href. simpl. rewrite Hsh. simpl. eauto. }
    destruct Hto as [u Hu]. exists (url_to_string u). unfold Input_to_string.
    rewrite Hu. split; [reflexivity|].
    unfold putFile. rewrite bind_unfold, H, Hl. simpl.
    rewrite bind_unfold. unfold lift at 1. unfold Input_to_string. now rewrite Hu.
  - intros Hl u tr'. unfold putFile. rewrite bind_unfold, H, Hl, Hg. cbn [negb].
    intros E. cbv zeta in E. minv E. minv E.
    match goal with
    | E : writeFile _ _ _ _ = (Ret _, _) |- _ =>
        unfold writeFile in E; destruct (write_error _ _); [discriminate E|];
        injection E as _ <-
    end.
    match goal with
    | E : runProgram _ _ _ = (Ret _, _) |- _ =>
        unfold runProgram in E; rewrite bind_unfold in E; unfold runProgramOpts at 1 in E;
        destruct (run env _ _) as [status out]; destruct (statusOk status);
        [|discriminate E]; injection E as _ <-
    end.
    destruct commitMsg as [msg|].
    + minv E. minv E.
      match goal with
      | E : runProgram _ _ _ = (Ret _, _) |- _ =>
          unfold runProgram in E; rewrite bind_unfold in E;
          unfold runProgramOpts at 1 in E;
          destruct (run env _ _) as [status' out']; destruct (statusOk status');
          [|discriminate E]; injection E as _ <-
      end.
      now rewrite <- !app_assoc.
    + minv E. now rewrite <- !app_assoc.
Qed.

End PutFileLaws.

(** Writing [/notes.txt] into the work tree at [/work/repo] and
    committing it. *)
Lemma putFile_needs_a_work_tree_witness :
  exists t tr',
    putFile (X := Demo.library) (Demo.checkout_world 0) Demo.join Demo.rel
      (fun _ _ => None) Demo.checkout_input "/notes.txt" "hello" (Some "add notes") []
    = (Ret tt, tr')
    /\ tr' = (t ++ [EvWriteFile "/work/repo/notes.txt" "hello";
                    EvRunProgram ["-C"; "/work/repo"; "--git-dir"; ".git"; "add";
                                  "--intent-to-add"; "--"; "notes.txt"];
                    EvRunProgram ["-C"; "/work/repo"; "--git-dir"; ".git"; "commit";
                                  "notes.txt"; "-m"; "add notes"]])%list.
Proof.
  destruct (getRepoInfo (X := Demo.library) (Demo.checkout_world 0) Demo.checkout_input [])
    as [[r|e|w|w] t] eqn:E; [| vm_compute in E; discriminate ..].
  destruct (putFile (X := Demo.library) (Demo.checkout_world 0) Demo.join Demo.rel
              (fun _ _ => None) Demo.checkout_input "/notes.txt" "hello"
              (Some "add notes") [])
    as [[[]|e|w|w] tr'] eqn:Ep; [| vm_compute in Ep; discriminate ..].
  exists t, tr'. split; [reflexivity|].
  assert (Hl : isLocal r = true) by (vm_compute in E; now injection E as <- _).
  rewrite (proj2 (putFile_needs_a_work_tree (X := Demo.library) (Demo.checkout_world 0)
                    Demo.join Demo.rel (fun _ _ => None) Demo.checkout_input
                    "/notes.txt" "hello" (Some "add notes") [] r t E) Hl tt tr' Ep).
  vm_compute in E. injection E as <- <-. reflexivity.
Defined.

(** ** What a computation adds to the trace *)

Section TraceLaws.
Context {X : Externals}.
Variable env : Env.
Variable P : Event -> Prop.

Lemma emits_runProgramOpts args :
  P (EvRunProgram args) -> emits P (runProgramOpts env args).
Proof.
  intros H tr o tr' [= <- <-]. exists [EvRunProgram args]. split; [reflexivity|].
  now constructor.
Qed.

Lemma emits_runProgram args : P (EvRunProgram args) -> emits P (runProgram env args).
Proof.
  intros H. unfold runProgram. apply emits_bind; [now apply emits_runProgramOpts|].
  intros [status output]. destruct (statusOk status); [apply emits_ret | apply emits_throw].
Qed.

Lemma emits_runProgram2 args : P (EvRunProgram args) -> emits P (runProgram2 env args).
Proof.
  intros H. unfold runProgram2. apply emits_bind; [now apply emits_runProgramOpts|].
  intros [status output]. destruct (status =? 0); [apply emits_ret | apply emits_throw].
Qed.

Lemma emits_createTempDir :
  (forall d, P (EvCreateTempDir d)) -> emits P (createTempDir env).
Proof.
  intros H tr o tr' [= <- <-]. eexists [_]. split; [reflexivity|]. now constructor.
Qed.

Lemma emits_addToStore n p f : P (EvAddToStore n p f) -> emits P (addToStore env n p f).
Proof.
  intros H tr o tr' [= <- <-]. eexists [_]. split; [reflexivity|]. now constructor.
Qed.

Lemma emits_touchCacheFile p t : P (EvTouch p t) -> emits P (touchCacheFile env p t).
Proof.
  intros H tr o tr' [= <- <-]. eexists [_]. split; [reflexivity|]. now constructor.
Qed.

Lemma emits_readFile p : emits P (readFile env p).
Proof.
  apply emits_pure. intros tr. unfold readFile. now destruct (read_file env tr p).
Qed.

Lemma emits_tryFetch repoInfo input ref repoDir :
  P (EvRunProgram ["-C"; repoDir; "--git-dir"; gitDir repoInfo; "rev-parse";
                   "--is-shallow-repository"]) ->
  (forall rest, P (EvRunProgram ("-C" :: repoDir :: "--git-dir" :: gitDir repoInfo
                                  :: "fetch" :: rest))) ->
  emits P (tryFetch env repoInfo input ref repoDir).
Proof.
  intros H1 H2. unfold tryFetch.
  eapply (emits_bind_returns _
            (fun opts => exists rest, opts = "-C" :: repoDir :: "--git-dir"
                                             :: gitDir repoInfo :: "fetch" :: rest)).
  - destruct (shallow repoInfo); [apply emits_ret|].
    apply emits_bind; [now apply emits_runProgram|]. intros out.
    destruct (String.eqb (chomp out) "true"); apply emits_ret.
  - intros tr opts tr' E. destruct (shallow repoInfo).
    + apply mret_Ret_inv in E as [-> _]. eexists. reflexivity.
    + apply bind_Ret_inv in E as (out & t & _ & E).
      destruct (String.eqb (chomp out) "true");
        apply mret_Ret_inv in E as [-> _]; eexists; reflexivity.
  - intros opts [rest ->]. apply emits_bind.
    + destruct (shallow repoInfo); [|apply emits_ret].
      apply emits_bind; [apply emits_lift|]. intros [rev|]; [apply emits_ret|apply emits_lift].
    + intros src. apply emits_bind; [|intros; apply emits_ret].
      apply emits_runProgram. apply H2.
Qed.

End TraceLaws.

Lemma emits_mono {A} (P Q : Event -> Prop) (c : M A) :
  (forall ev, P ev -> Q ev) -> emits P c -> emits Q c.
Proof.
  intros H Hc tr o tr' E. destruct (Hc _ _ _ E) as (new & -> & F).
  exists new. split; [reflexivity|]. eapply Forall_impl; eauto.
Qed.

(** An event obligation: by computation, after the cases of what its
    arguments depend on. *)
Ltac event_ok :=
  first [ reflexivity | exact I
        | repeat match goal with
                 | |- context [if ?b then _ else _] => destruct b
                 | |- context [match ?x with Some _ => _ | None => _ end] => destruct x
                 end; first [reflexivity | exact I]
        | solve [eexists; first [left; reflexivity | right; reflexivity]]
        | solve [repeat match goal with
                        | |- context [if ?b then _ else _] => destruct b
                        end; hnf; intros; congruence] ].

Ltac trace_step :=
  lazymatch goal with
  | |- emits _ (mret _) => apply emits_ret
  | |- emits _ (lift _) => apply emits_lift
  | |- emits _ (throw _) => apply emits_throw
  | |- emits _ (emit _) => apply emits_emit; event_ok
  | |- emits _ (warn _) => apply emits_emit; event_ok
  | |- emits _ (_ ≫= _) => apply emits_bind; [|intros ?]
  | |- emits _ (try_catch _ _) =>
      apply emits_try_catch;
      [|let e := fresh "e" in let k := fresh "k" in let Hk := fresh "Hk" in
        intros e k Hk; try (destruct e; simpl in Hk); simplify_eq]
  | |- emits _ (at_scope_exit _ _) => apply emits_at_scope_exit; [|event_ok]
  | |- emits _ (runProgramOpts _ _) => apply emits_runProgramOpts; event_ok
  | |- emits _ (runProgram _ _) => apply emits_runProgram; event_ok
  | |- emits _ (runProgram2 _ _) => apply emits_runProgram2; event_ok
  | |- emits _ (createTempDir _) => apply emits_createTempDir; intros ?; event_ok
  | |- emits _ (addToStore _ _ _ _) => apply emits_addToStore; event_ok
  | |- emits _ (touchCacheFile _ _ _) => apply emits_touchCacheFile; event_ok
  | |- emits _ (readFile _ _) => apply emits_readFile
  | |- emits _ (get_time _) => now apply emits_pure
  | |- emits _ (stat _ _) => now apply emits_pure
  | |- emits _ (pathExists _ _) => now apply emits_pure
  | |- emits _ (get_strerror _) => now apply emits_pure
  | |- emits _ (cacheLookup _ _) => now apply emits_pure
  | |- emits _ (queryFact _ _) => now apply emits_pure
  | |- emits _ (queryNarHash _ _) => now apply emits_pure
  | |- emits ?P (if true then ?c else _) => change (emits P c)
  | |- emits ?P (if false then _ else ?c) => change (emits P c)
  | |- emits _ (if negb ?b then _ else _) => destruct b eqn:?; cbn [negb]
  | |- emits _ (if ?b then _ else _) => destruct b eqn:?
  | |- emits _ (match ?x with _ => _ end) => destruct x eqn:?
  | |- emits _ (readHead _ _) => unfold readHead
  | |- emits _ (storeCachedHead _ _ _) => unfold storeCachedHead
  | |- emits _ (readHeadCached _ _) => unfold readHeadCached
  | |- emits _ (getDefaultRef _ _) => unfold getDefaultRef
  | |- emits _ (resolveRef _ _ _) => unfold resolveRef
  | |- emits _ (updateRev _ _ _ _) => unfold updateRev
  | |- emits _ (do_stoull _) => unfold do_stoull
  | |- emits _ (getLastModified_ref _ _ _ _) => unfold getLastModified_ref
  | |- emits _ (getLastModified _ _ _ _) => unfold getLastModified
  | |- emits _ (getRevCount _ _ _ _) => unfold getRevCount
  | |- emits _ (checkHashType _) => unfold checkHashType
  | |- emits _ (listFiles _ _) => unfold listFiles
  | |- emits _ (warnDirty _ _) => unfold warnDirty
  | |- emits _ (getLockedAttrs _ _ _) => unfold getLockedAttrs
  | |- emits _ (makeResult2 _ _ _ _ _) => unfold makeResult2
  | |- emits _ (makeResult _ _ _ _ _ _) => unfold makeResult
  | |- emits _ (decideFetch _ _ _ _ _ _) => unfold decideFetch
  | |- emits _ (tryFetch _ _ _ _ _) => apply emits_tryFetch; [|intros ?]; event_ok
  | |- emits _ (afterFetch _ _ _ _ _ _) => unfold afterFetch
  | |- emits _ (fetchIntoMirror _ _ _ _ _ _ _ _) => unfold fetchIntoMirror, fetchFailed
  | |- emits _ (updateMirror _ _ _ _ _ _) => unfold updateMirror
  | |- emits _ (resolveRemote _ _ _ _ _ _ _ _) => unfold resolveRemote
  | |- emits _ (checkoutSubmodules _ _ _ _ _) => unfold checkoutSubmodules
  | |- emits _ (materialize _ _ _ _ _ _ _ _ _ _) => unfold materialize
  | |- emits _ (finishCommit _ _ _ _ _ _ _ _) => unfold finishCommit
  | |- emits _ (getAccessorFromCommit _ _ _) => unfold getAccessorFromCommit
  | |- emits _ (getAccessorFromCheckout _ _ _) => unfold getAccessorFromCheckout
  | |- emits _ (getRepoInfo _ _) => unfold getRepoInfo
  | |- emits _ (getAccessor _ _) => unfold getAccessor
  | |- emits _ (clone _ _ _) => unfold clone
  end.

Ltac trace_auto := repeat trace_step.

Section Resolved.
Context {X : Externals}.
Variable env : Env.

Lemma resolved_repoInfo repoInfo origRev name input unlockedAttrs originalRef ref :
  returns (fun resolved : (Accessor * Input) + (Input * string * RepoInfo) =>
             match resolved with
             | inl _ => True
             | inr (_, _, r') => r' = repoInfo \/ r' = set_gitDir repoInfo "."
             end)
    (if isLocal repoInfo then
       '(input, _) ← updateRev env input repoInfo ref;
       mret (inr (input, url repoInfo, repoInfo))
     else
       resolveRemote env repoInfo origRev name input unlockedAttrs originalRef ref).
Proof.
  intros tr resolved tr' H. destruct (isLocal repoInfo).
  - minv_all H. now left.
  - unfold resolveRemote in H. do 2 minv H.
    minv H; [minv_all H; exact I|]. minv_all H. now right.
Qed.

Lemma resolved_mirror repoInfo origRev name input unlockedAttrs originalRef ref :
  returns (fun resolved : (Accessor * Input) + (Input * string * RepoInfo) =>
             match resolved with
             | inl _ => True
             | inr (_, repoDir, r') =>
                 isLocal repoInfo = false ->
                 r' = set_gitDir repoInfo "."
                 /\ repoDir = getCachePath env (url repoInfo)
             end)
    (if isLocal repoInfo then
       '(input, _) ← updateRev env input repoInfo ref;
       mret (inr (input, url repoInfo, repoInfo))
     else
       resolveRemote env repoInfo origRev name input unlockedAttrs originalRef ref).
Proof.
  intros tr resolved tr' H. destruct (isLocal repoInfo).
  - minv_all H. discriminate.
  - unfold resolveRemote in H. do 2 minv H.
    minv H; [minv_all H; exact I|]. minv_all H. now split.
Qed.

Lemma emits_bind_ret {A B} (P : Event -> Prop) (a : A) (f : A -> M B) :
  emits P (f a) -> emits P (mret a ≫= f).
Proof. intros H tr o tr' E. exact (H tr o tr' E). Qed.

(** Without a local repository, the commands of lines 805-897 get
    [repoDir + "/" + repoInfo.gitDir] as their git directory. *)
Lemma emits_checkoutSubmodules_remote (P : Event -> Prop) repoInfo input repoDir tmpDir :
  isLocal repoInfo = false ->
  (forall d, P (EvCreateTempDir d)) -> (forall d, P (EvDeletePath d)) ->
  (forall rest, P (EvRunProgram ("--git-dir" :: (repoDir +:+ "/" +:+ gitDir repoInfo)
                                  :: "--work-tree" :: rest))) ->
  emits P (checkoutSubmodules env repoInfo input repoDir tmpDir).
Proof.
  intros Hl Hc Hd Hr. unfold checkoutSubmodules. rewrite Hl.
  destruct (shallow repoInfo); cbn [negb app].
  all: apply emits_bind; [now apply emits_createTempDir|]; intros tmpGit.
  all: apply emits_at_scope_exit; [|apply Hd].
  all: apply emits_bind_ret.
  all: repeat first [ apply emits_runProgram; apply Hr
                    | apply emits_runProgram2; apply Hr
                    | trace_step ].
Qed.

End Resolved.

(** Up to the point of [getAccessorFromCommit] where the repository
    has been resolved. *)
Ltac trace_to_resolve :=
  repeat lazymatch goal with
         | |- emits _ ((if isLocal _ then _ else resolveRemote _ _ _ _ _ _ _ _) ≫= _) =>
             fail
         | |- _ => trace_step
         end.

(** The step that resolves the repository, with [tac] for what it
    emits; what follows it knows the [RepoInfo] it works with. *)
Ltac trace_resolve tac :=
  try (eapply emits_bind_returns; [tac | apply resolved_repoInfo |];
       let res := fresh "resolved" in
       let Hres := fresh "Hres" in
       intros res Hres; destruct res as [?|[[? ?] ?]];
       [|destruct Hres as [-> | ->]]).

Ltac trace_to_resolved := trace_to_resolve; trace_resolve trace_auto.

(** ** [getAccessorFromCommit] as a whole *)

Section WholeFunction.
Context {X : Externals}.
Variable env : Env.

(** X14.  [getAccessorFromCommit] never runs [git archive] and never
    unpacks a tar file: the branch of the code that does (lines
    901-913) is taken only without submodules, and without submodules
    the function has returned before (lines 719-722). *)
Theorem git_archive_never_runs (repoInfo : RepoInfo) (input : Input) :
  emits (fun ev => is_git_archive ev = false) (getAccessorFromCommit env repoInfo input).
Proof.
  trace_auto.
Qed.

(** X15.  Without submodules, [getAccessorFromCommit] makes and
    deletes no temporary directory, unpacks no tar file, writes no
    file, copies nothing to the store and adds no record of a store
    path to the fetcher cache ([Cache::add]), however it ends.  What it
    writes to the fetcher cache are facts ([Cache::upsertFact]), and
    only under the keys [git-<rev>-last-modified] and
    [git-<rev>-revcount] of a revision. *)
Theorem nothing_is_stored_without_submodules (repoInfo : RepoInfo) (input : Input) :
  submodules repoInfo = false ->
  emits stores_no_tree (getAccessorFromCommit env repoInfo input).
Proof.
  intros Hsub. unfold getAccessorFromCommit. trace_to_resolved.
  all: repeat first
    [ match goal with
      | |- emits _ (materialize _ ?r _ _ _ _ _ _ _ _) =>
          unfold materialize;
          replace (submodules r) with false by (simpl; congruence);
          cbn [negb]
      end
    | trace_step ].
Qed.

(** X16.  For a local repository, [getAccessorFromCommit] creates no
    cache directory, takes no lock, and runs no [git init --bare], [git
    fetch] or [git symbolic-ref] and sets no time stamp: it works on
    the repository where it is. *)
Theorem local_repository_is_not_touched (repoInfo : RepoInfo) (input : Input) :
  isLocal repoInfo = true ->
  emits (fun ev => is_mirror_work ev = false) (getAccessorFromCommit env repoInfo input).
Proof.
  intros Hlocal. unfold getAccessorFromCommit. trace_to_resolve.
  trace_resolve ltac:(rewrite Hlocal; trace_auto).
  all: trace_auto.
Qed.

(** X17.  For an input that has a [rev], [getAccessorFromCommit] adds
    no record to the fetcher cache that is not locked, that is, no
    record under the address and the ref. *)
Theorem pinned_input_keeps_the_ref_record (repoInfo : RepoInfo) (input : Input) :
  is_Some (attrs input !! "rev") ->
  emits (fun ev => is_unlocked_add ev = false) (getAccessorFromCommit env repoInfo input).
Proof.
  intros Hrev. unfold getAccessorFromCommit.
  destruct (isDirty repoInfo); [trace_auto|].
  eapply (emits_bind_returns _ (fun o : option Hash => is_Some o)); [trace_auto| |].
  { intros tr o tr' E. apply lift_Ret_inv in E as [E _].
    destruct o; [eauto|]. apply getRev_None in E. rewrite E in Hrev.
    now destruct Hrev. }
  intros origRev [h ->]. trace_to_resolved.
  all: repeat first
    [ match goal with
      | |- emits _ (materialize _ _ _ _ _ _ _ _ _ _) =>
          unfold materialize;
          rewrite (bool_decide_eq_true_2 (is_Some (Some h))) by eauto; cbn [negb]
      end
    | trace_step ].
Qed.

(** X18.  For a repository that is not dirty and an input with the
    revision [h], when the fetcher cache has a record for the locked
    attributes (the cache type, the name and the revision),
    [getAccessorFromCommit] is [makeResult] on that record: it adds
    nothing to the trace (no child process, no lock, no store
    operation), and when it returns, the accessor is over the store
    path of the record and [narHash] is the hash that the store has for
    that path. *)
Theorem cached_revision_runs_nothing (repoInfo : RepoInfo) (input : Input) (h : Hash)
    (name : string) (infoAttrs : Attrs) (storePath : string) (tr : list Event) :
  isDirty repoInfo = false ->
  getRev input = Ret (Some h) ->
  getName input = Ret name ->
  cache_lookup env tr
    (<["type" := AttrString (cacheType repoInfo)]>
       (<["name" := AttrString name]> (<["rev" := AttrString (gitRev h)]> ∅)))
  = Some (infoAttrs, storePath) ->
  getAccessorFromCommit env repoInfo input tr
  = makeResult env repoInfo (Some h) input infoAttrs storePath tr
  /\ (forall o tr',
        makeResult env repoInfo (Some h) input infoAttrs storePath tr = (o, tr') ->
        tr' = tr
        /\ forall acc input', o = Ret (acc, input') ->
             backing acc = StorePathAccessor storePath
             /\ attrs input' !! "narHash" = Some (AttrString (nar_hash env tr storePath))).
Proof.
  intros Hd Hrev Hname Hhit. split.
  - unfold getAccessorFromCommit. rewrite Hd, Hrev.
    unfold mbind at 1, M_bind at 1, lift at 1. rewrite Hname.
    unfold mbind at 1, M_bind at 1, lift at 1.
    rewrite bool_decide_eq_true_2 by eauto.
    unfold getLockedAttrs. rewrite Hrev.
    unfold mbind at 1, M_bind at 1. unfold mbind at 1, M_bind at 1.
    unfold mbind at 1, M_bind at 1, lift at 1. unfold mret at 1, M_ret at 1.
    unfold cacheLookup at 1. now rewrite Hhit.
  - intros o tr' H. split.
    + eapply emits_nothing; [|exact H]. trace_auto.
    + intros acc input' ->. unfold makeResult in H. minv H.
      unfold queryNarHash in E. injection E as <- <-.
      apply makeResult2_attrs in H as (Hb & _ & _ & _ & _ & Hn). simpl in *.
      split; [exact Hb|]. now rewrite Hn, lookup_insert_eq.
Qed.

(** ** The lock of the mirror *)

Lemma lock_scope_app h a b :
  lock_scope h (a ++ b) = lock_scope h a && lock_scope (lock_held h a) b.
Proof.
  revert h. induction a as [|ev a IH]; intros h; [reflexivity|].
  destruct ev; simpl; rewrite ?IH; try reflexivity; now rewrite andb_assoc.
Qed.

Lemma lock_held_app h a b : lock_held h (a ++ b) = lock_held (lock_held h a) b.
Proof.
  revert h. induction a as [|ev a IH]; intros h; [reflexivity|].
  destruct ev; simpl; now rewrite ?IH.
Qed.

Lemma calm_lock_scope new :
  Forall (fun ev => is_mirror_fetch_step ev || is_lock_event ev = false) new ->
  lock_scope false new = true /\ lock_held false new = false.
Proof.
  induction 1 as [|ev new Hev _ [IH1 IH2]]; [now split|].
  apply orb_false_iff in Hev as [Hu Hl].
  destruct ev; try discriminate Hl; simpl in *; now rewrite ?Hu, ?IH1, ?IH2.
Qed.

Lemma held_lock_scope new :
  Forall (fun ev => is_lock_event ev || is_checkout_step ev = false) new ->
  lock_scope true new = true /\ lock_held true new = true.
Proof.
  induction 1 as [|ev new Hev _ [IH1 IH2]]; [now split|].
  apply orb_false_iff in Hev as [Hl Hc].
  destruct ev; try discriminate Hl; simpl in *; now rewrite ?Hc, ?IH1, ?IH2.
Qed.

Lemma locks_well_calm {A} (c : M A) :
  emits (fun ev => is_mirror_fetch_step ev || is_lock_event ev = false) c -> locks_well c.
Proof.
  intros H tr o tr' E. destruct (H _ _ _ E) as (new & -> & F).
  exists new. split; [reflexivity|]. destruct (calm_lock_scope new F) as [H1 H2].
  split; [exact H1 | intros; exact H2].
Qed.

Lemma locks_well_bind {A B} (c : M A) (f : A -> M B) :
  locks_well c -> (forall a, locks_well (f a)) -> locks_well (c ≫= f).
Proof.
  intros Hc Hf tr o tr' E. unfold mbind, M_bind in E.
  destruct (c tr) as [o1 t1] eqn:Ec.
  destruct (Hc _ _ _ Ec) as (n1 & -> & U1 & L1).
  destruct o1 as [a|e|w|w];
    try (injection E as <- <-; exists n1; split; [reflexivity|]; split; [exact U1|];
         exact L1).
  destruct (Hf a _ _ _ E) as (n2 & -> & U2 & L2).
  exists (n1 ++ n2)%list. split; [now rewrite app_assoc|].
  rewrite lock_scope_app, lock_held_app, (L1 I), U1, U2. auto.
Qed.

Lemma locks_well_resolveRemote repoInfo origRev name input unlockedAttrs originalRef ref :
  locks_well (resolveRemote env repoInfo origRev name input unlockedAttrs originalRef ref).
Proof.
  unfold resolveRemote.
  apply locks_well_bind; [apply locks_well_calm; trace_auto|]. intros res.
  apply locks_well_bind; [apply locks_well_calm; trace_auto|]. intros [result|].
  { apply locks_well_calm. trace_auto. }
  intros tr o tr' E.
  set (cacheDir := getCachePath env (url repoInfo)) in *.
  assert (Hbody : emits (fun ev => is_lock_event ev || is_checkout_step ev = false)
                    (updateMirror env (set_gitDir repoInfo ".") input originalRef ref
                       cacheDir)).
  { trace_auto. }
  unfold mbind at 1, M_bind at 1, emit at 1 in E.
  unfold mbind at 1, M_bind at 1, emit at 1 in E.
  unfold mbind at 1, M_bind at 1, at_scope_exit in E.
  destruct (updateMirror env (set_gitDir repoInfo ".") input originalRef ref cacheDir _)
    as [o1 t1] eqn:Eu.
  destruct (Hbody _ _ _ Eu) as (body & -> & Fb).
  destruct (held_lock_scope body Fb) as [Ub Lb].
  destruct o1 as [i|e|w|w]; injection E as <- <-.
  - exists ([EvCreateDirs (dirOf cacheDir); EvLock (cacheDir +:+ ".lock")] ++ body
            ++ [EvUnlock (cacheDir +:+ ".lock")])%list.
    split; [now rewrite <- !app_assoc|]. simpl.
    rewrite lock_scope_app, lock_held_app, Ub, Lb. auto.
  - exists ([EvCreateDirs (dirOf cacheDir); EvLock (cacheDir +:+ ".lock")] ++ body
            ++ [EvUnlock (cacheDir +:+ ".lock")])%list.
    split; [now rewrite <- !app_assoc|]. simpl.
    rewrite lock_scope_app, lock_held_app, Ub, Lb. auto.
  - exists ([EvCreateDirs (dirOf cacheDir); EvLock (cacheDir +:+ ".lock")] ++ body)%list.
    split; [now rewrite <- !app_assoc|]. simpl. split; [exact Ub | intros []].
  - exists ([EvCreateDirs (dirOf cacheDir); EvLock (cacheDir +:+ ".lock")] ++ body)%list.
    split; [now rewrite <- !app_assoc|]. simpl. split; [exact Ub | intros []].
Qed.

(** X19.  The lock of a mirror covers the steps that bring the mirror
    up to date, and nothing after them.  In what
    [getAccessorFromCommit] adds to the trace, [git init --bare], [git
    fetch], [git symbolic-ref] and the setting of a time stamp (lines
    600-690) happen only while the lock is held, and when the function
    returns or throws the lock has been released.  The commands [git
    --git-dir <dir> --work-tree <tmp> ...] of lines 805-897 ([config],
    [checkout], [submodule foreach], [submodule update]) run only while
    no lock is held; and for a repository that is not local, the
    [<dir>] they work on is the mirror itself, [<cacheDir>/.] (line
    794, under [TODO: locking]). *)
Theorem mirror_lock_covers_the_fetch_only (repoInfo : RepoInfo) (input : Input) :
  locks_well (getAccessorFromCommit env repoInfo input)
  /\ emits (checkout_in_mirror env repoInfo) (getAccessorFromCommit env repoInfo input).
Proof.
  split.
  - unfold getAccessorFromCommit.
    destruct (isDirty repoInfo); [apply locks_well_calm; trace_auto|].
    apply locks_well_bind; [apply locks_well_calm; trace_auto|]. intros origRev.
    apply locks_well_bind; [apply locks_well_calm; trace_auto|]. intros name.
    apply locks_well_bind; [apply locks_well_calm; trace_auto|].
    intros [[cachedInfo storePath]|]; [apply locks_well_calm; trace_auto|].
    apply locks_well_bind; [apply locks_well_calm; trace_auto|]. intros originalRef.
    apply locks_well_bind; [apply locks_well_calm; trace_auto|]. intros ref.
    apply locks_well_bind.
    + destruct (isLocal repoInfo); [apply locks_well_calm; trace_auto|].
      apply locks_well_resolveRemote.
    + intros [result|[[input' repoDir] repoInfo']]; apply locks_well_calm; trace_auto.
  - destruct (isLocal repoInfo) eqn:Hl.
    { apply (emits_mono (fun _ => True)); [|trace_auto].
      intros ev _. unfold checkout_in_mirror. destruct ev; try exact I.
      repeat (match goal with |- match ?x with _ => _ end => destruct x end; try exact I).
      congruence. }
    unfold getAccessorFromCommit. trace_to_resolve.
    eapply emits_bind_returns; [trace_auto | apply resolved_mirror |].
    intros [result|[[input' repoDir] repoInfo']] Hres; [trace_auto|].
    destruct (Hres Hl) as [-> ->].
    repeat lazymatch goal with
           | |- emits _ (checkoutSubmodules _ _ _ _ _) => fail
           | |- _ => trace_step
           end.
    all: apply emits_checkoutSubmodules_remote;
      [exact Hl | intros d; exact I | intros d; exact I | intros rest _; reflexivity].
Qed.

End WholeFunction.

(** With submodules, in the world [fresh]: the lock of the mirror is
    taken and released, and then the commands of the checkout run on
    the git directory of the mirror. *)
Example checkout_of_a_mirror_is_not_locked :
  List.filter (fun ev => is_lock_event ev || is_checkout_step ev)
    (getAccessorFromCommit (X := Demo.library) (Demo.world Demo.fresh)
       (Demo.remote_repo false true) Demo.main_input []).2
  = [ EvLock (Demo.mirror +:+ ".lock");
      EvUnlock (Demo.mirror +:+ ".lock");
      EvRunProgram ["--git-dir"; Demo.mirror +:+ "/."; "--work-tree"; "/tmp/nix-9";
                    "config"; "remote.origin.url"; Demo.remote];
      EvRunProgram ["--git-dir"; Demo.mirror +:+ "/."; "--work-tree"; "/tmp/nix-9";
                    "checkout"; "--quiet"; Demo.rev1; "."];
      EvRunProgram ["--git-dir"; Demo.mirror +:+ "/."; "--work-tree"; "/tmp/nix-9";
                    "-C"; "/tmp/nix-9"; "submodule"; "foreach"; "--recursive";
                    "git fetch --unshallow --jobs=4"];
      EvRunProgram ["--git-dir"; Demo.mirror +:+ "/."; "--work-tree"; "/tmp/nix-9";
                    "-C"; "/tmp/nix-9"; "submodule"; "update"; "--init"; "--recursive";
                    "--quiet"; "--recommend-shallow"; "--jobs"; "4"; "--no-fetch"] ].
Proof. vm_compute. reflexivity. Qed.

(** Without submodules, in the world [fresh]: the two facts of the
    revision are written to the fetcher cache. *)
Example facts_written_without_submodules :
  List.filter (fun ev => match ev with EvUpsertFact _ _ => true | _ => false end)
    (getAccessorFromCommit (X := Demo.library) (Demo.world Demo.fresh)
       (Demo.remote_repo false false) Demo.main_input []).2
  = [ EvUpsertFact ("git-" +:+ Demo.rev1 +:+ "-last-modified") "1700000000";
      EvUpsertFact ("git-" +:+ Demo.rev1 +:+ "-revcount") "42" ].
Proof. vm_compute. reflexivity. Qed.

(** The input with the ref [main], without submodules. *)
Lemma nothing_is_stored_without_submodules_witness :
  emits stores_no_tree
        (getAccessorFromCommit (X := Demo.library) (Demo.world Demo.fresh)
           (Demo.remote_repo false false) Demo.main_input).
Proof.
  apply (nothing_is_stored_without_submodules (X := Demo.library) (Demo.world Demo.fresh)
           (Demo.remote_repo false false) Demo.main_input).
  reflexivity.
Defined.

(** The work tree at [/work/repo], with the ref [main]. *)
Lemma local_repository_is_not_touched_witness :
  emits (fun ev => is_mirror_work ev = false)
        (getAccessorFromCommit (X := Demo.library) (Demo.checkout_world 0)
           (Demo.local_repo false)
           (set_attr Demo.checkout_input "ref" (AttrString "main"))).
Proof.
  apply (local_repository_is_not_touched (X := Demo.library) (Demo.checkout_world 0)
           (Demo.local_repo false)
           (set_attr Demo.checkout_input "ref" (AttrString "main"))).
  reflexivity.
Defined.

(** The input with the revision [rev1]. *)
Lemma pinned_input_keeps_the_ref_record_witness :
  emits (fun ev => is_unlocked_add ev = false)
        (getAccessorFromCommit (X := Demo.library) (Demo.world Demo.fresh)
           (Demo.remote_repo false true) Demo.pinned_input).
Proof.
  apply (pinned_input_keeps_the_ref_record (X := Demo.library) (Demo.world Demo.fresh)
           (Demo.remote_repo false true) Demo.pinned_input).
  exists (AttrString Demo.rev1). reflexivity.
Defined.

(** The fetcher cache has [rev1]: the result is over the store path of
    the record and the trace stays empty. *)
Lemma cached_revision_runs_nothing_witness :
  exists acc input',
    getAccessorFromCommit (X := Demo.library) Demo.cached_world
      (Demo.remote_repo false false) Demo.pinned_input []
    = (Ret (acc, input'), [])
    /\ backing acc = StorePathAccessor "/nix/store/0000-source".
Proof.
  destruct (cached_revision_runs_nothing (X := Demo.library) Demo.cached_world
              (Demo.remote_repo false false) Demo.pinned_input Demo.hash1 "source"
              Demo.cached_info "/nix/store/0000-source" [])
    as [Heq Hres].
  - reflexivity.
  - vm_compute. reflexivity.
  - vm_compute. reflexivity.
  - reflexivity.
  - rewrite Heq.
    destruct (makeResult (X := Demo.library) Demo.cached_world
                (Demo.remote_repo false false) (Some Demo.hash1) Demo.pinned_input
                Demo.cached_info "/nix/store/0000-source" [])
      as [[[acc input']|e|w|w] tr'] eqn:E; [| vm_compute in E; discriminate ..].
    destruct (Hres _ _ eq_refl) as [-> Hacc].
    exists acc, input'. split; [reflexivity|]. now destruct (Hacc acc input' eq_refl).
Defined.

(** ** Fetching *)

Section FetchLaws.
Context {X : Externals}.
Variable env : Env.

Lemma getRev_set_other (input : Input) k v :
  k <> "rev" -> getRev (set_attr input k v) = getRev input.
Proof.
  intros Hk. unfold getRev, maybeGetStrAttr, set_attr. simpl.
  now rewrite lookup_insert_ne by exact Hk.
Qed.

Section Present.

Variable repoInfo : RepoInfo.
Variable input : Input.
Variable h : Hash.

Let cacheDir := getCachePath env (url repoInfo).
Let mirrorInfo := set_gitDir repoInfo ".".

Hypothesis pinned : getRev input = Ret (Some h).
Hypothesis present :
  forall t, statusOk (run env t ["-C"; cacheDir; "--git-dir"; "."; "cat-file"; "-e";
                                 gitRev h]).1 = true.
Hypothesis not_shallow :
  shallow repoInfo = true
  \/ forall t, chomp (run env t ["-C"; cacheDir; "--git-dir"; "."; "rev-parse";
                                 "--is-shallow-repository"]).2 <> "true".

Lemma decideFetch_present localRefFile now :
  returns (fun doFetch => doFetch = false)
          (decideFetch env mirrorInfo input cacheDir localRefFile now).
Proof.
  intros tr b tr' H. unfold decideFetch in H. rewrite pinned in H.
  minv H. minv H. apply lift_Ret_inv in E as [[= <-] ->].
  assert (a0 = false) as ->.
  { unfold try_catch in E0. rewrite bind_unfold in E0.
    unfold runProgram in E0. rewrite bind_unfold in E0. unfold runProgramOpts at 1 in E0.
    specialize (present tr). simpl in E0, present.
    destruct (run env tr _) as [status output]. simpl in present.
    rewrite present in E0. simpl in E0. now injection E0 as <-. }
  minv H. minv H.
  destruct not_shallow as [Hs | Hns]; [simpl; rewrite Hs; now rewrite andb_false_r|].
  match goal with
  | E : runProgram _ _ ?t = (Ret ?out, _) |- _ =>
      unfold runProgram, runProgramOpts in E; rewrite bind_unfold in E;
      specialize (Hns t); simpl in E, Hns; destruct (run env t _) as [status output];
      destruct (statusOk status); [|discriminate E];
      injection E as <- _; simpl in Hns;
      destruct (String.eqb_spec (chomp output) "true"); [contradiction|]
  end.
  reflexivity.
Qed.

End Present.

(** X20.  For an input with the revision [h], when [git cat-file -e]
    finds the revision in the mirror and the mirror is not a shallow
    repository (or [shallow] was asked for), [getAccessorFromCommit]
    runs no [git fetch], whatever the age of the file of the ref and
    also with [allRefs]. *)
Theorem present_revision_is_not_fetched (repoInfo : RepoInfo) (input : Input) (h : Hash) :
  getRev input = Ret (Some h) ->
  (forall t, statusOk (run env t ["-C"; getCachePath env (url repoInfo); "--git-dir"; ".";
                                  "cat-file"; "-e"; gitRev h]).1 = true) ->
  (shallow repoInfo = true
   \/ forall t, chomp (run env t ["-C"; getCachePath env (url repoInfo); "--git-dir"; ".";
                                  "rev-parse"; "--is-shallow-repository"]).2 <> "true") ->
  emits (fun ev => is_git_fetch ev = false) (getAccessorFromCommit env repoInfo input).
Proof.
  intros Hrev Hpresent Hshallow. unfold getAccessorFromCommit.
  repeat lazymatch goal with
         | |- emits _ (decideFetch _ _ _ _ _ _ ≫= _) => fail
         | |- _ => trace_step
         end.
  all: try (eapply emits_bind_returns;
              [ trace_auto
              | apply decideFetch_present with (h := h);
                [rewrite getRev_set_other by discriminate; exact Hrev
                | exact Hpresent | exact Hshallow]
              | intros doFetch Hd; rewrite Hd; trace_auto ]).
  all: trace_auto.
Qed.



(** X22.  The file whose time stamp says how old a ref is, and the
    ref that [git fetch] writes.  Without [allRefs], for a ref other
    than [HEAD] the file is the one of the fetched ref, [<mirror>/<fetchRef>];
    for the ref [HEAD] the file is [<mirror>/refs/heads/HEAD] while the
    fetched ref is [HEAD]; and with [allRefs] the fetched ref is
    [refs/*]. *)
Theorem ref_file_of_the_fetched_ref (repoInfo : RepoInfo) (cacheDir ref : string) :
  (allRefs repoInfo = false -> ref <> "HEAD" ->
   localRefFileOf cacheDir ref = cacheDir +:+ "/" +:+ fetchRefOf repoInfo ref)
  /\ (allRefs repoInfo = false ->
      localRefFileOf cacheDir "HEAD" = cacheDir +:+ "/refs/heads/HEAD"
      /\ fetchRefOf repoInfo "HEAD" = "HEAD")
  /\ (allRefs repoInfo = true -> fetchRefOf repoInfo ref = "refs/*").
Proof.
  unfold localRefFileOf, fetchRefOf. split; [|split].
  - intros -> Hne. destruct (String.prefix "refs/" ref); [reflexivity|].
    destruct (String.eqb_spec ref "HEAD"); [contradiction|].
    reflexivity.
  - intros ->. split; reflexivity.
  - now intros ->.
Qed.

End FetchLaws.

(** In [present_world] the mirror has [rev1]. *)
Lemma present_revision_is_not_fetched_witness :
  emits (fun ev => is_git_fetch ev = false)
        (getAccessorFromCommit (X := Demo.library) Demo.present_world
           (Demo.remote_repo false false) Demo.pinned_input).
Proof.
  apply (present_revision_is_not_fetched (X := Demo.library) Demo.present_world
           (Demo.remote_repo false false) Demo.pinned_input Demo.hash1).
  - vm_compute. reflexivity.
  - intros t. vm_compute. reflexivity.
  - right. intros t. vm_compute. discriminate.
Defined.


(** ** The default ref *)

Section HelperLaws.
Context {X : Externals}.
Variable env : Env.

Lemma readHead_total path tr :
  exists o, readHead env path tr
            = (Ret o, (tr ++ [EvRunProgram ["ls-remote"; "--symref"; path]])%list).
Proof.
  unfold readHead. rewrite bind_unfold. unfold runProgramOpts at 1.
  destruct (run env tr _) as [status output].
  destruct (negb (status =? 0)); [eexists; reflexivity|].
  destruct (parseLsRemoteLine _); eexists; reflexivity.
Qed.

(** X23.  [readHeadCached] always returns.  It asks the remote ([git
    ls-remote --symref <url>]) unless the mirror has a [HEAD] file
    younger than [tarballTtl] and the cached ref it returns is not the
    initial dummy branch; and it warns only after it has asked the
    remote, when it returns the expired cached ref, which the warning
    names. *)
Theorem readHeadCached_asks_the_remote (actualUrl : string) (tr : list Event) :
  exists o new,
    readHeadCached env actualUrl tr = (Ret o, (tr ++ new)%list)
    /\ (In (EvRunProgram ["ls-remote"; "--symref"; actualUrl]) new
        \/ exists r mtime,
             o = Some r /\ r <> gitInitialBranch
             /\ stat_mtime env tr (getCachePath env actualUrl +:+ "/HEAD") = Some mtime
             /\ time env tr < mtime + tarballTtl env)
    /\ (forall msg, In (EvWarn msg) new ->
          In (EvRunProgram ["ls-remote"; "--symref"; actualUrl]) new
          /\ exists r, o = Some r
               /\ msg = "could not get HEAD ref for repository '" +:+ actualUrl
                        +:+ "'; using expired cached ref '" +:+ r +:+ "'").
Proof.
  unfold readHeadCached. rewrite bind_unfold. unfold get_time at 1.
  rewrite bind_unfold. unfold stat at 1.
  set (cacheDir := getCachePath env actualUrl).
  assert (Hask : forall (cachedRef : option string) t1 new1,
    t1 = (tr ++ new1)%list ->
    (forall msg, ~ In (EvWarn msg) new1) ->
    exists o new,
      (ref ← readHead env actualUrl;
       match ref with
       | Some _ => mret ref
       | None =>
           match cachedRef with
           | Some r =>
               warn ("could not get HEAD ref for repository '" +:+ actualUrl
                     +:+ "'; using expired cached ref '" +:+ r +:+ "'");;
               mret (Some r)
           | None => mret None
           end
       end) t1 = (Ret o, (tr ++ new)%list)
      /\ In (EvRunProgram ["ls-remote"; "--symref"; actualUrl]) new
      /\ (forall msg, In (EvWarn msg) new ->
            exists r, o = Some r
              /\ msg = "could not get HEAD ref for repository '" +:+ actualUrl
                       +:+ "'; using expired cached ref '" +:+ r +:+ "'")).
  { intros cachedRef t1 new1 -> Hnw. rewrite bind_unfold.
    destruct (readHead_total actualUrl (tr ++ new1)) as [ref ->].
    assert (Hin : forall rest, In (EvRunProgram ["ls-remote"; "--symref"; actualUrl])
                                  (new1 ++ EvRunProgram ["ls-remote"; "--symref"; actualUrl]
                                        :: rest)).
    { intros rest. apply in_or_app. right. now left. }
    destruct ref as [r|]; [|destruct cachedRef as [r|]].
    - exists (Some r), (new1 ++ [EvRunProgram ["ls-remote"; "--symref"; actualUrl]])%list.
      split; [now rewrite <- app_assoc|]. split; [apply Hin|].
      intros msg Hm. apply in_app_or in Hm as [Hm|[Hm|[]]]; [|discriminate].
      now destruct (Hnw msg).
    - exists (Some r),
        (new1 ++ [EvRunProgram ["ls-remote"; "--symref"; actualUrl];
                  EvWarn ("could not get HEAD ref for repository '" +:+ actualUrl
                          +:+ "'; using expired cached ref '" +:+ r +:+ "'")])%list.
      split.
      { unfold warn, emit. rewrite bind_unfold. unfold mret, M_ret.
        now rewrite <- !app_assoc. }
      split; [apply Hin|].
      intros msg Hm. apply in_app_or in Hm as [Hm|[Hm|[Hm|[]]]];
        [now destruct (Hnw msg) | discriminate |].
      injection Hm as <-. eauto.
    - exists None, (new1 ++ [EvRunProgram ["ls-remote"; "--symref"; actualUrl]])%list.
      split; [now rewrite <- app_assoc|]. split; [apply Hin|].
      intros msg Hm. apply in_app_or in Hm as [Hm|[Hm|[]]]; [|discriminate].
      now destruct (Hnw msg). }
  destruct (stat_mtime env tr (cacheDir +:+ "/HEAD")) as [mtime|] eqn:Es.
  - rewrite bind_unfold. rewrite bind_unfold.
    destruct (readHead_total cacheDir tr) as [c ->].
    unfold mret at 1, M_ret at 1.
    destruct (match c with
              | Some r => negb (String.eqb r gitInitialBranch)
                          && isCacheFileWithinTtl env (time env tr) mtime
              | None => false
              end) eqn:Ef.
    + exists c, [EvRunProgram ["ls-remote"; "--symref"; cacheDir]].
      split; [reflexivity|]. split.
      * right. destruct c as [r|]; [|discriminate]. exists r, mtime.
        apply andb_true_iff in Ef as [Hr Ht]. split; [reflexivity|]. split.
        -- intros ->. discriminate Hr.
        -- split; [reflexivity|]. unfold isCacheFileWithinTtl in Ht. lia.
      * intros msg [Hm|[]]. discriminate.
    + destruct (Hask c (tr ++ [EvRunProgram ["ls-remote"; "--symref"; cacheDir]])%list
                  [EvRunProgram ["ls-remote"; "--symref"; cacheDir]] eq_refl)
        as (o & new & Ho & Hin & Hw).
      { intros msg [Hm|[]]. discriminate. }
      exists o, new. split; [exact Ho|]. split; [now left|].
      intros msg Hm. split; [exact Hin | now apply Hw].
  - rewrite bind_unfold. unfold mret at 1, M_ret at 1.
    destruct (Hask None tr [] (eq_sym (app_nil_r tr))) as (o & new & Ho & Hin & Hw).
    { intros msg []. }
    exists o, new. split; [exact Ho|]. split; [now left|].
    intros msg Hm. split; [exact Hin | now apply Hw].
Qed.


Lemma readHeadCached_returns (actualUrl : string) (tr : list Event) :
  exists o asked rest,
    readHeadCached env actualUrl tr
    = (Ret o, (tr ++ EvRunProgram ["ls-remote"; "--symref"; asked] :: rest)%list)
    /\ Forall (fun ev => match ev with
                         | EvRunProgram ["ls-remote"; "--symref"; _] => True
                         | EvWarn msg => String.prefix "could not get HEAD ref" msg = true
                         | _ => False
                         end) rest.
Proof.
  unfold readHeadCached. rewrite bind_unfold. unfold get_time at 1.
  rewrite bind_unfold. unfold stat at 1.
  set (cacheDir := getCachePath env actualUrl).
  assert (Hask : forall (cachedRef : option string) t1,
    exists o rest,
      (ref ← readHead env actualUrl;
       match ref with
       | Some _ => mret ref
       | None =>
           match cachedRef with
           | Some r =>
               warn ("could not get HEAD ref for repository '" +:+ actualUrl
                     +:+ "'; using expired cached ref '" +:+ r +:+ "'");;
               mret (Some r)
           | None => mret None
           end
       end) t1
      = (Ret o, (t1 ++ EvRunProgram ["ls-remote"; "--symref"; actualUrl] :: rest)%list)
      /\ Forall (fun ev => match ev with
                           | EvRunProgram ["ls-remote"; "--symref"; _] => True
                           | EvWarn msg => String.prefix "could not get HEAD ref" msg = true
                           | _ => False
                           end) rest).
  { intros cachedRef t1. rewrite bind_unfold.
    destruct (readHead_total actualUrl t1) as [ref ->].
    destruct ref as [r|]; [|destruct cachedRef as [r|]].
    - eexists _, []. split; [reflexivity | constructor].
    - eexists _, [_]. split.
      { unfold warn, emit. rewrite bind_unfold. unfold mret, M_ret.
        now rewrite <- !app_assoc. }
      now repeat constructor.
    - eexists _, []. split; [reflexivity | constructor]. }
  destruct (stat_mtime env tr (cacheDir +:+ "/HEAD")) as [mtime|].
  - rewrite bind_unfold. rewrite bind_unfold.
    destruct (readHead_total cacheDir tr) as [c ->].
    unfold mret at 1, M_ret at 1.
    destruct (match c with
              | Some r => negb (String.eqb r gitInitialBranch)
                          && isCacheFileWithinTtl env (time env tr) mtime
              | None => false
              end).
    + eexists _, cacheDir, []. split; [reflexivity | constructor].
    + destruct (Hask c (tr ++ [EvRunProgram ["ls-remote"; "--symref"; cacheDir]])%list)
        as (o & rest & -> & F).
      eexists o, cacheDir, _. split; [now rewrite <- app_assoc|].
      now repeat constructor.
  - rewrite bind_unfold. unfold mret at 1, M_ret at 1.
    destruct (Hask None tr) as (o & rest & -> & F). eauto.
Qed.

(** X24.  [getDefaultRef] always returns a ref, after at least one
    [git ls-remote --symref], and adds nothing but such processes and
    warnings to the trace; it gives the warning "could not read HEAD ref
    ..., using 'master'" only when it returns ["master"]. *)
Theorem getDefaultRef_falls_back_to_master (repoInfo : RepoInfo) (tr : list Event) :
  exists r asked rest,
    getDefaultRef env repoInfo tr
    = (Ret r, (tr ++ EvRunProgram ["ls-remote"; "--symref"; asked] :: rest)%list)
    /\ (In (EvWarn ("could not read HEAD ref from repo at '" +:+ url repoInfo
                    +:+ "', using 'master'")) rest -> r = "master")
    /\ Forall (fun ev => match ev with
                         | EvRunProgram ["ls-remote"; "--symref"; _] | EvWarn _ => True
                         | _ => False
                         end) rest.
Proof.
  unfold getDefaultRef. rewrite bind_unfold.
  assert (Hhead : exists head asked rest,
            (if isLocal repoInfo then readHead env (url repoInfo)
             else readHeadCached env (url repoInfo)) tr
            = (Ret head,
               (tr ++ EvRunProgram ["ls-remote"; "--symref"; asked] :: rest)%list)
            /\ Forall (fun ev => match ev with
                                 | EvRunProgram ["ls-remote"; "--symref"; _] => True
                                 | EvWarn msg =>
                                     String.prefix "could not get HEAD ref" msg = true
                                 | _ => False
                                 end) rest).
  { destruct (isLocal repoInfo).
    - destruct (readHead_total (url repoInfo) tr) as [o ->].
      eexists _, _, []. split; [reflexivity | constructor].
    - apply readHeadCached_returns. }
  destruct Hhead as (head & asked & rest & -> & F).
  assert (Hno : ~ In (EvWarn ("could not read HEAD ref from repo at '" +:+ url repoInfo
                               +:+ "', using 'master'")) rest).
  { intros Hin. rewrite List.Forall_forall in F. specialize (F _ Hin). discriminate F. }
  assert (Hshape : Forall (fun ev => match ev with
                                     | EvRunProgram ["ls-remote"; "--symref"; _]
                                     | EvWarn _ => True
                                     | _ => False
                                     end) rest).
  { eapply Forall_impl; [exact F|]. intros ev.
    destruct ev; tauto. }
  destruct head as [r|].
  - exists r, asked, rest. split; [reflexivity|]. split; [intros Hin; now destruct Hno|].
    exact Hshape.
  - exists "master", asked,
      (rest ++ [EvWarn ("could not read HEAD ref from repo at '" +:+ url repoInfo
                        +:+ "', using 'master'")])%list.
    split.
    { unfold warn, emit. rewrite bind_unfold. unfold mret, M_ret.
      now rewrite <- app_assoc. }
    split; [reflexivity|]. apply Forall_app. split; [exact Hshape | now repeat constructor].
Qed.

End HelperLaws.

(** ** The fact cache *)

Section FactLaws.
Context {X : Externals}.
Variable env : Env.

(** X25.  With a fact cache that gives back the value it was given
    last, a revision count that [getRevCount] returns is not computed
    again: either the call added nothing to the trace, or it ran [git
    rev-list --count <rev>] once and stored the count it returns under
    the key [git-<rev>-revcount] and did nothing else; and a
    second call, after the first, returns the same count and adds
    nothing, provided [string2Int] reads the count back from its
    decimal form.  The same holds for [getLastModified], [git log -1
    --format=%ct] and the key [git-<rev>-last-modified]. *)
Theorem facts_are_remembered (repoInfo : RepoInfo) (repoDir : string) (rev : Hash) :
  (forall (t : list Event) k v, query_fact env (t ++ [EvUpsertFact k v]) k = Some v) ->
  (forall tr n tr',
     string2Int (pretty n) = Some n ->
     getRevCount env repoInfo repoDir rev tr = (Ret n, tr') ->
     (tr' = tr
      \/ tr' = (tr ++ [EvRunProgram ["-C"; repoDir; "--git-dir"; gitDir repoInfo;
                                     "rev-list"; "--count"; gitRev rev];
                       EvUpsertFact ("git-" +:+ gitRev rev +:+ "-revcount") (pretty n)])%list)
     /\ getRevCount env repoInfo repoDir rev tr' = (Ret n, tr'))
  /\ (forall tr n tr',
        string2Int (pretty n) = Some n ->
        getLastModified env repoInfo repoDir rev tr = (Ret n, tr') ->
        (tr' = tr
         \/ tr' = (tr ++ [EvRunProgram ["-C"; repoDir; "--git-dir"; gitDir repoInfo; "log";
                                        "-1"; "--format=%ct"; "--no-show-signature";
                                        gitRev rev];
                          EvUpsertFact ("git-" +:+ gitRev rev +:+ "-last-modified")
                                       (pretty n)])%list)
        /\ getLastModified env repoInfo repoDir rev tr' = (Ret n, tr')).
Proof.
  intros Hcache. split.
  - intros tr n tr' Hn. unfold getRevCount.
    destruct (hasHead repoInfo); cbn [negb]; [|intros [= <- <-]; auto].
    rewrite bind_unfold. unfold queryFact at 1.
    destruct (query_fact env tr _ ≫= string2Int) as [n'|] eqn:Eq.
    + intros [= <- <-]. split; [now left|].
      rewrite bind_unfold. unfold queryFact at 1. now rewrite Eq.
    + intros H. minv H.
      unfold runProgram, runProgramOpts in E. rewrite bind_unfold in E.
      destruct (run env tr _) as [status output]. destruct (statusOk status);
        [|discriminate E]. injection E as <- <-.
      minv H. unfold do_stoull in E. destruct (stoull output); [|discriminate E].
      injection E as <- <-. rewrite bind_unfold in H. injection H as <- <-.
      split; [right; now rewrite <- app_assoc|].
      rewrite bind_unfold. unfold queryFact at 1. rewrite Hcache. simpl. now rewrite Hn.
  - intros tr n tr' Hn. unfold getLastModified.
    destruct (hasHead repoInfo) eqn:Eh; cbn [negb]; [|intros [= <- <-]; auto].
    rewrite bind_unfold. unfold queryFact at 1.
    destruct (query_fact env tr _ ≫= string2Int) as [n'|] eqn:Eq.
    + intros [= <- <-]. split; [now left|].
      rewrite bind_unfold. unfold queryFact at 1. now rewrite Eq.
    + intros H. minv H. unfold getLastModified_ref in E. rewrite Eh in E.
      minv E.
      unfold runProgram, runProgramOpts in E0. rewrite bind_unfold in E0.
      destruct (run env tr _) as [status output]. destruct (statusOk status);
        [|discriminate E0]. injection E0 as <- <-.
      unfold do_stoull in E. destruct (stoull output); [|discriminate E].
      injection E as <- <-. rewrite bind_unfold in H. injection H as <- <-.
      split; [right; now rewrite <- app_assoc|].
      rewrite bind_unfold. unfold queryFact at 1. rewrite Hcache. simpl. now rewrite Hn.
Qed.

End FactLaws.

(** In a world whose fact cache gives back what it was given, the
    count of [rev1] is asked for once. *)
Lemma facts_are_remembered_witness :
  exists tr',
    getRevCount (X := Demo.library) Demo.present_world (Demo.remote_repo false false)
      Demo.mirror Demo.hash1 [] = (Ret 42%N, tr')
    /\ getRevCount (X := Demo.library) Demo.present_world (Demo.remote_repo false false)
         Demo.mirror Demo.hash1 tr' = (Ret 42%N, tr').
Proof.
  destruct (getRevCount (X := Demo.library) Demo.present_world
              (Demo.remote_repo false false) Demo.mirror Demo.hash1 [])
    as [[n|e|w|w] tr'] eqn:E; [| vm_compute in E; discriminate ..].
  assert (Hn : n = 42%N) by (vm_compute in E; now injection E as <- _).
  subst n. exists tr'. split; [reflexivity|].
  assert (Hc : forall (t : list Event) k v,
             query_fact Demo.present_world (t ++ [EvUpsertFact k v]) k = Some v).
  { intros t k v. unfold Demo.present_world, Demo.world_with, query_fact, Demo.fact_in.
    rewrite fold_left_app. simpl. now rewrite String.eqb_refl. }
  apply (proj1 (facts_are_remembered (X := Demo.library) Demo.present_world
                  (Demo.remote_repo false false) Demo.mirror Demo.hash1 Hc)
           [] 42%N tr' eq_refl E).
Defined.


(** ** The record of a ref in the fetcher cache *)

Section RefLaws.
Context {X : Externals}.
Variable env : Env.

Lemma makeResult2_other repoInfo origRev input infoAttrs accessor tr r tr' k :
  makeResult2 repoInfo origRev input infoAttrs accessor tr = (Ret r, tr') ->
  k <> "revCount" -> k <> "lastModified" ->
  attrs r.2 !! k = attrs input !! k.
Proof.
  unfold makeResult2. intros H H1 H2.
  minv H. minv E. minv_all H.
  lazymatch goal with
  | Hi : (if negb (shallow repoInfo) then _ else _) _ = (Ret ?i, _) |- _ =>
      assert (Ha : attrs i !! k = attrs input !! k);
      [ destruct (shallow repoInfo); simpl in Hi; minv_all Hi; simpl;
        rewrite ?lookup_insert_ne by congruence; reflexivity
      | ]
  end.
  simpl. now rewrite lookup_insert_ne by congruence.
Qed.

(** X26.  For a remote repository and an input with a [ref] and no
    [rev], when the fetcher cache has a record under the unlocked
    attributes (the cache type, the name, the address and the ref) whose
    [rev] is a hash, [getAccessorFromCommit] is [makeResult] on that
    record: it adds nothing to the trace (no child process, no lock),
    and when it returns, the accessor is over the store path of the
    record, the [rev] of the input is the one of the record and the
    [ref] is the caller's. *)
Theorem cached_ref_runs_nothing (repoInfo : RepoInfo) (input : Input) (ref name : string)
    (infoAttrs : Attrs) (storePath s : string) (h : Hash) (tr : list Event) :
  isDirty repoInfo = false -> isLocal repoInfo = false ->
  attrs input !! "rev" = None ->
  getRef input = Ret (Some ref) ->
  getName input = Ret name ->
  cache_lookup env tr
    (<["type" := AttrString (cacheType repoInfo)]>
       (<["name" := AttrString name]>
          (<["url" := AttrString (url repoInfo)]> (<["ref" := AttrString ref]> ∅))))
  = Some (infoAttrs, storePath) ->
  getStrAttr infoAttrs "rev" = Ret s -> parseHash s = inr h ->
  getAccessorFromCommit env repoInfo input tr
  = makeResult env repoInfo None
      (set_attr (set_attr input "ref" (AttrString ref)) "rev" (AttrString (gitRev h)))
      infoAttrs storePath tr
  /\ (forall o tr',
        getAccessorFromCommit env repoInfo input tr = (o, tr') ->
        tr' = tr
        /\ forall acc input', o = Ret (acc, input') ->
             backing acc = StorePathAccessor storePath
             /\ attrs input' !! "rev" = Some (AttrString (gitRev h))
             /\ attrs input' !! "ref" = Some (AttrString ref)).
Proof.
  intros Hd Hl Hnorev Href Hname Hhit Hs Hp.
  assert (Heq : getAccessorFromCommit env repoInfo input tr
                = makeResult env repoInfo None
                    (set_attr (set_attr input "ref" (AttrString ref)) "rev"
                       (AttrString (gitRev h))) infoAttrs storePath tr).
  { unfold getAccessorFromCommit. rewrite Hd.
    rewrite (proj2 (getRev_None input) Hnorev).
    unfold mbind at 1, M_bind at 1, lift at 1. rewrite Hname.
    unfold mbind at 1, M_bind at 1, lift at 1.
    rewrite bool_decide_eq_false_2 by (intros [? ?]; discriminate).
    unfold mbind at 1, M_bind at 1, mret at 1, M_ret at 1.
    rewrite Href. unfold mbind at 1, M_bind at 1, lift at 1.
    unfold resolveRef. unfold mbind at 1, M_bind at 1, mret at 1, M_ret at 1.
    rewrite Hl. unfold resolveRemote.
    unfold mbind at 1, M_bind at 1. unfold mbind at 1, M_bind at 1.
    unfold cacheLookup at 1. rewrite Hhit.
    unfold mbind at 1, M_bind at 1. unfold mbind at 1, M_bind at 1, lift at 1.
    rewrite Hs. unfold mbind at 1, M_bind at 1, lift at 1. rewrite Hp.
    unfold call. unfold mbind at 1, M_bind at 1, lift at 1.
    rewrite getRev_set_other by discriminate.
    rewrite (proj2 (getRev_None input) Hnorev).
    rewrite bool_decide_eq_false_2 by (intros [? ?]; discriminate).
    cbn [negb orb]. unfold mbind, M_bind.
    destruct (makeResult env repoInfo None _ infoAttrs storePath tr) as [[r|e|w|w] t];
      reflexivity. }
  split; [exact Heq|]. rewrite Heq. intros o tr' H. split.
  - eapply emits_nothing; [|exact H]. trace_auto.
  - intros acc input' ->. unfold makeResult in H. minv H.
    unfold queryNarHash in E. injection E as <- <-.
    pose proof (makeResult2_other _ _ _ _ _ _ _ _ "rev" H) as Hrev.
    pose proof (makeResult2_other _ _ _ _ _ _ _ _ "ref" H) as Href'.
    apply makeResult2_attrs in H as (Hb & _). simpl in *.
    split; [exact Hb|]. rewrite Hrev, Href' by discriminate.
    repeat (rewrite lookup_insert_eq || rewrite lookup_insert_ne by discriminate).
    auto.
Qed.

End RefLaws.

(** The fetcher cache knows [main]: nothing runs, and the revision is
    the one of the record. *)
Lemma cached_ref_runs_nothing_witness :
  exists acc input',
    getAccessorFromCommit (X := Demo.library) Demo.cached_world
      (Demo.remote_repo false false) Demo.main_input []
    = (Ret (acc, input'), [])
    /\ attrs input' !! "rev" = Some (AttrString Demo.rev1).
Proof.
  destruct (cached_ref_runs_nothing (X := Demo.library) Demo.cached_world
              (Demo.remote_repo false false) Demo.main_input "main" "source"
              Demo.cached_info "/nix/store/0000-source" Demo.rev1 Demo.hash1 [])
    as [_ Hres]; try reflexivity.
  destruct (getAccessorFromCommit (X := Demo.library) Demo.cached_world
              (Demo.remote_repo false false) Demo.main_input [])
    as [[[acc input']|e|w|w] tr'] eqn:E; [| vm_compute in E; discriminate ..].
  destruct (Hres _ _ eq_refl) as [-> Hacc].
  exists acc, input'. split; [reflexivity|].
  now destruct (Hacc acc input' eq_refl) as (_ & Hrev & _).
Defined.


(** ** A dirty work tree *)

Section DirtyLaws.
Context {X : Externals}.
Variable env : Env.



End DirtyLaws.



(** ** Assertions and empty optionals *)

Section EndsLogic.
Context {A B : Type} (E : string -> Prop).

Lemma ends_ret (Q : A -> Prop) (a : A) : Q a -> ends_well E Q (mret a).
Proof. intros H tr o tr' [= <- _]. exact H. Qed.

Lemma ends_throw (Q : A -> Prop) e : ends_well E Q (throw e : M A).
Proof. intros tr o tr' [= <- _]. exact I. Qed.

Lemma ends_lift (Q : A -> Prop) (o : outcome A) :
  defined o -> (forall a, o = Ret a -> Q a) -> ends_well E Q (lift o).
Proof.
  intros Hd HQ tr o' tr' [= <- _].
  destruct o as [a|e|w|w]; simpl in *;
    [apply HQ; reflexivity | exact I | destruct Hd | destruct Hd].
Qed.

Lemma ends_mono (Q Q' : A -> Prop) (c : M A) :
  (forall a, Q a -> Q' a) -> ends_well E Q c -> ends_well E Q' c.
Proof.
  intros H Hc tr o tr' Ec. specialize (Hc _ _ _ Ec). destruct o; auto.
Qed.

Lemma ends_bind (Q : A -> Prop) (R : B -> Prop) (c : M A) (f : A -> M B) :
  ends_well E Q c -> (forall a, Q a -> ends_well E R (f a)) -> ends_well E R (c ≫= f).
Proof.
  intros Hc Hf tr o tr' H. rewrite bind_unfold in H.
  destruct (c tr) as [[a|e|w|w] t] eqn:Ec; specialize (Hc _ _ _ Ec); simpl in Hc.
  - exact (Hf a Hc _ _ _ H).
  - now injection H as <- _.
  - destruct Hc.
  - now injection H as <- _.
Qed.

Lemma ends_lift_bind (R : B -> Prop) (o : outcome A) (f : A -> M B) :
  defined o -> (forall a, o = Ret a -> ends_well E R (f a)) ->
  ends_well E R (lift o ≫= f).
Proof.
  intros Hd Hf. apply (ends_bind (fun a => o = Ret a)); [|exact Hf].
  apply ends_lift; auto.
Qed.

Lemma ends_try_catch (Q : A -> Prop) (c : M A) h :
  ends_well E Q c -> (forall e k, h e = Some k -> ends_well E Q k) ->
  ends_well E Q (try_catch c h).
Proof.
  intros Hc Hh tr o tr' H. unfold try_catch in H.
  destruct (c tr) as [[a|e|w|w] t] eqn:Ec; specialize (Hc _ _ _ Ec); simpl in Hc.
  - now injection H as <- _.
  - destruct (h e) as [k|] eqn:Eh; [exact (Hh e k Eh _ _ _ H) | now injection H as <- _].
  - destruct Hc.
  - now injection H as <- _.
Qed.

Lemma ends_at_scope_exit (Q : A -> Prop) (c : M A) ev :
  ends_well E Q c -> ends_well E Q (at_scope_exit c ev).
Proof.
  intros Hc tr o tr' H. unfold at_scope_exit in H.
  destruct (c tr) as [[a|e|w|w] t] eqn:Ec; specialize (Hc _ _ _ Ec); simpl in Hc;
    injection H as <- _; auto.
Qed.

(** A computation that always returns. *)
Lemma ends_always (Q : A -> Prop) (c : M A) :
  (forall tr, exists a tr', c tr = (Ret a, tr') /\ Q a) -> ends_well E Q c.
Proof.
  intros H tr o tr' Ec. destruct (H tr) as (a & t & Ha & HQ). rewrite Ha in Ec.
  now injection Ec as <- _.
Qed.

End EndsLogic.

Section EndsPrimitives.
Context {X : Externals}.
Variable env : Env.
Variable E : string -> Prop.

Lemma ends_emit ev : ends_well E (fun _ => True) (emit ev).
Proof. apply ends_always. intros tr. eexists _, _. split; [reflexivity | exact I]. Qed.

Lemma ends_runProgramOpts args : ends_well E (fun _ => True) (runProgramOpts env args).
Proof. apply ends_always. intros tr. eexists _, _. split; [reflexivity | exact I]. Qed.

Lemma ends_runProgram args : ends_well E (fun _ => True) (runProgram env args).
Proof.
  unfold runProgram. eapply ends_bind; [apply ends_runProgramOpts|].
  intros [status output] _. destruct (statusOk status); [now apply ends_ret | apply ends_throw].
Qed.

Lemma ends_runProgram2 args : ends_well E (fun _ => True) (runProgram2 env args).
Proof.
  unfold runProgram2. eapply ends_bind; [apply ends_runProgramOpts|].
  intros [status output] _. destruct (status =? 0); [now apply ends_ret | apply ends_throw].
Qed.

Lemma ends_createTempDir : ends_well E (fun _ => True) (createTempDir env).
Proof. apply ends_always. intros tr. eexists _, _. split; [reflexivity | exact I]. Qed.

Lemma ends_addToStore n p f : ends_well E (fun _ => True) (addToStore env n p f).
Proof. apply ends_always. intros tr. eexists _, _. split; [reflexivity | exact I]. Qed.

Lemma ends_touchCacheFile p t : ends_well E (fun _ => True) (touchCacheFile env p t).
Proof. apply ends_always. intros tr. eexists _, _. split; [reflexivity | exact I]. Qed.

Lemma ends_readFile p : ends_well E (fun _ => True) (readFile env p).
Proof.
  intros tr o tr' H. unfold readFile in H.
  destruct (read_file env tr p); now injection H as <- _.
Qed.

End EndsPrimitives.

(** One step of a computation that ends well with no condition on what
    it returns. *)
Ltac ends_step :=
  lazymatch goal with
  | |- ends_well _ _ (mret _) => apply ends_ret; try exact I
  | |- ends_well _ _ (throw _) => apply ends_throw
  | |- ends_well _ _ (emit _) => apply ends_emit
  | |- ends_well _ _ (warn _) => apply ends_emit
  | |- ends_well _ _ (lift (call _) ≫= _) =>
      apply ends_lift_bind; [apply defined_call | intros ? ?]
  | |- ends_well _ _ (lift (getRev _) ≫= _) =>
      apply ends_lift_bind; [apply defined_getRev | intros ? ?]
  | |- ends_well _ _ (lift (getRef _) ≫= _) =>
      apply ends_lift_bind; [apply defined_maybeGetStrAttr | intros ? ?]
  | |- ends_well _ _ (lift (getStrAttr _ _) ≫= _) =>
      apply ends_lift_bind; [apply defined_getStrAttr | intros ? ?]
  | |- ends_well _ _ (lift (maybeGetBoolAttr _ _) ≫= _) =>
      apply ends_lift_bind; [apply defined_maybeGetBoolAttr | intros ? ?]
  | |- ends_well _ _ (lift (Input_to_string _) ≫= _) =>
      apply ends_lift_bind; [apply defined_Input_to_string | intros ? ?]
  | |- ends_well _ _ (_ ≫= _) => eapply ends_bind with (Q := fun _ => True); [|intros ? _]
  | |- ends_well _ _ (try_catch _ _) =>
      apply ends_try_catch;
      [|let e := fresh "e" in let k := fresh "k" in let Hk := fresh "Hk" in
        intros e k Hk; try (destruct e; simpl in Hk); simplify_eq]
  | |- ends_well _ _ (at_scope_exit _ _) => apply ends_at_scope_exit
  | |- ends_well _ _ (runProgramOpts _ _) => apply ends_runProgramOpts
  | |- ends_well _ _ (runProgram _ _) => apply ends_runProgram
  | |- ends_well _ _ (runProgram2 _ _) => apply ends_runProgram2
  | |- ends_well _ _ (createTempDir _) => apply ends_createTempDir
  | |- ends_well _ _ (addToStore _ _ _ _) => apply ends_addToStore
  | |- ends_well _ _ (touchCacheFile _ _ _) => apply ends_touchCacheFile
  | |- ends_well _ _ (readFile _ _) => apply ends_readFile
  | |- ends_well _ _ (get_time _) =>
      apply ends_always; intros ?; eexists _, _; split; [reflexivity | exact I]
  | |- ends_well _ _ (stat _ _) =>
      apply ends_always; intros ?; eexists _, _; split; [reflexivity | exact I]
  | |- ends_well _ _ (pathExists _ _) =>
      apply ends_always; intros ?; eexists _, _; split; [reflexivity | exact I]
  | |- ends_well _ _ (get_strerror _) =>
      apply ends_always; intros ?; eexists _, _; split; [reflexivity | exact I]
  | |- ends_well _ _ (cacheLookup _ _) =>
      apply ends_always; intros ?; eexists _, _; split; [reflexivity | exact I]
  | |- ends_well _ _ (queryFact _ _) =>
      apply ends_always; intros ?; eexists _, _; split; [reflexivity | exact I]
  | |- ends_well _ _ (queryNarHash _ _) =>
      apply ends_always; intros ?; eexists _, _; split; [reflexivity | exact I]
  | |- ends_well ?E ?Q (if true then ?c else _) => change (ends_well E Q c)
  | |- ends_well ?E ?Q (if false then _ else ?c) => change (ends_well E Q c)
  | |- ends_well _ _ (if negb ?b then _ else _) => destruct b eqn:?; cbn [negb]
  | |- ends_well _ _ (if ?b then _ else _) => destruct b eqn:?
  | |- ends_well _ _ (match ?x with _ => _ end) => destruct x eqn:?
  | |- ends_well _ _ (readHead _ _) => unfold readHead
  | |- ends_well _ _ (storeCachedHead _ _ _) => unfold storeCachedHead
  | |- ends_well _ _ (readHeadCached _ _) => unfold readHeadCached
  | |- ends_well _ _ (getDefaultRef _ _) => unfold getDefaultRef
  | |- ends_well _ _ (resolveRef _ _ _) => unfold resolveRef
  | |- ends_well _ _ (do_stoull _) => unfold do_stoull
  | |- ends_well _ _ (getLastModified_ref _ _ _ _) => unfold getLastModified_ref
  | |- ends_well _ _ (getLastModified _ _ _ _) => unfold getLastModified
  | |- ends_well _ _ (getRevCount _ _ _ _) => unfold getRevCount
  | |- ends_well _ _ (checkHashType _) => unfold checkHashType
  | |- ends_well _ _ (listFiles _ _) => unfold listFiles
  | |- ends_well _ _ (warnDirty _ _) => unfold warnDirty
  | |- ends_well _ _ (afterFetch _ _ _ _ _ _) => unfold afterFetch
  end.

Ltac ends_auto := repeat ends_step.

Section Safety.
Context {X : Externals}.
Variable env : Env.
Variable E : string -> Prop.

Lemma defined_getIntAttr a k : defined (getIntAttr a k).
Proof.
  unfold getIntAttr, maybeGetIntAttr. destruct (a !! k) as [[]|]; exact I.
Qed.

Lemma defined_getName input : defined (getName input).
Proof.
  unfold getName. apply defined_bind; [apply defined_maybeGetStrAttr | now intros].
Qed.

Lemma defined_getSubmodulesAttr input : defined (getSubmodulesAttr input).
Proof.
  unfold getSubmodulesAttr. apply defined_bind; [apply defined_maybeGetBoolAttr | now intros].
Qed.

Lemma ends_returns {A} (Q : A -> Prop) (c : M A) :
  ends_well E (fun _ => True) c -> returns Q c -> ends_well E Q c.
Proof.
  intros Hc Hr tr o tr' Ec. specialize (Hc _ _ _ Ec). destruct o; auto.
  exact (Hr _ _ _ Ec).
Qed.

Lemma getRev_set_rev (input : Input) s :
  getRev (set_attr input "rev" (AttrString s)) = (h ← call (parseHash s); Ret (Some h)).
Proof.
  unfold getRev, maybeGetStrAttr, set_attr. simpl. now rewrite lookup_insert_eq.
Qed.

Lemma rev_kept_set_other origRev input k v :
  k <> "rev" -> rev_kept origRev input -> rev_kept origRev (set_attr input k v).
Proof.
  intros Hk H r. rewrite getRev_set_other by exact Hk. apply H.
Qed.

Lemma rev_kept_same origRev input : getRev input = Ret origRev -> is_Some origRev ->
  rev_kept origRev input.
Proof.
  intros H Hs r Hr. rewrite H in Hr. injection Hr as <-. auto.
Qed.

Lemma rev_kept_found input s :
  rev_kept None (set_attr input "rev" (AttrString s)).
Proof.
  intros r. rewrite getRev_set_rev. destruct (parseHash s); simpl; [discriminate|].
  intros [= <-]. eauto.
Qed.

Lemma ends_getDefaultRef repoInfo : ends_well E (fun _ => True) (getDefaultRef env repoInfo).
Proof. unfold getDefaultRef. ends_auto. Qed.

Lemma ends_getLastModified repoInfo repoDir rev :
  ends_well E (fun _ => True) (getLastModified env repoInfo repoDir rev).
Proof. unfold getLastModified. ends_auto. Qed.

Lemma ends_getRevCount repoInfo repoDir rev :
  ends_well E (fun _ => True) (getRevCount env repoInfo repoDir rev).
Proof. unfold getRevCount. ends_auto. Qed.

Lemma ends_makeResult2 repoInfo origRev input infoAttrs accessor :
  rev_kept origRev input ->
  ends_well E (fun _ => True) (makeResult2 repoInfo origRev input infoAttrs accessor).
Proof.
  intros H. unfold makeResult2. apply ends_lift_bind; [apply defined_getRev|].
  intros r Hr. destruct (H r Hr) as [Hs Ho].
  rewrite (bool_decide_eq_true_2 _ Hs). cbn [negb].
  assert (Hb : bool_decide (origRev = None) || bool_decide (origRev = r) = true).
  { destruct Ho as [Ho|Ho]; rewrite (bool_decide_eq_true_2 _ Ho); auto using orb_true_r. }
  rewrite Hb. cbn [negb]. 
  eapply ends_bind with (Q := fun _ => True).
  - destruct (shallow repoInfo); cbn [negb]; [now apply ends_ret|].
    apply ends_lift_bind; [apply defined_getIntAttr|]. intros n _. now apply ends_ret.
  - intros input' _. apply ends_lift_bind; [apply defined_getIntAttr|]. intros n _.
    ends_auto.
Qed.

Lemma ends_makeResult repoInfo origRev input infoAttrs storePath :
  rev_kept origRev input ->
  ends_well E (fun _ => True) (makeResult env repoInfo origRev input infoAttrs storePath).
Proof.
  intros H. unfold makeResult. ends_step; [ends_step|].
  apply ends_makeResult2. now apply rev_kept_set_other.
Qed.

Lemma ends_getLockedAttrs repoInfo origRev name input :
  rev_kept origRev input ->
  ends_well E (fun _ => True) (getLockedAttrs repoInfo name input).
Proof.
  intros H. unfold getLockedAttrs. apply ends_lift_bind; [apply defined_getRev|].
  intros r Hr. destruct (H r Hr) as [[h ->] _]. now apply ends_ret.
Qed.

Lemma ends_checkoutSubmodules repoInfo origRev input repoDir tmpDir :
  rev_kept origRev input ->
  ends_well E (fun _ => True) (checkoutSubmodules env repoInfo input repoDir tmpDir).
Proof.
  intros H. unfold checkoutSubmodules.
  ends_step; [ends_step|]. ends_step. ends_step; [ends_auto|]. ends_step; [ends_auto|].
  apply ends_lift_bind; [apply defined_getRev|].
  intros r Hr. destruct (H r Hr) as [[h ->] _].
  ends_auto.
Qed.


Lemma ends_materialize repoInfo origRev name input unlockedAttrs infoAttrs ref repoDir rev :
  rev_kept origRev input ->
  ends_well E (fun _ => True)
    (materialize env repoInfo origRev name input unlockedAttrs infoAttrs ref repoDir rev).
Proof.
  intros H. unfold materialize.
  destruct (submodules repoInfo); cbn [negb]; [|now apply ends_makeResult2].
  ends_step; [ends_step|]. ends_step. ends_step; [ends_step|].
  destruct a0 as [status output]. ends_step; [ends_step|].
  ends_step. ends_step.
  { ends_step; [|ends_step]. now apply ends_checkoutSubmodules with (origRev := origRev). }
  ends_step; [ends_step|]. ends_step; [ends_auto|].
  ends_step; [now apply ends_getLockedAttrs with (origRev := origRev)|].
  ends_step; [ends_step|]. now apply ends_makeResult.
Qed.

Lemma ends_finishCommit repoInfo origRev name input unlockedAttrs ref repoDir :
  rev_kept origRev input ->
  ends_well E (fun _ => True)
    (finishCommit env repoInfo origRev name input unlockedAttrs ref repoDir).
Proof.
  intros H. unfold finishCommit. ends_step; [ends_step|].
  ends_step; [ends_step|].
  apply ends_lift_bind; [apply defined_getRev|].
  intros r Hr. destruct (H r Hr) as [[h ->] _].
  ends_step; [apply ends_getLastModified|].
  ends_step.
  { destruct (shallow repoInfo); cbn [negb]; [ends_auto|].
    ends_step; [apply ends_getRevCount | ends_auto]. }
  ends_step; [now apply ends_getLockedAttrs with (origRev := origRev)|].
  ends_step; [ends_step|].
  destruct a3 as [[cachedInfo storePath]|];
    [now apply ends_makeResult | now apply ends_materialize].
Qed.

Lemma ends_updateRev origRev input repoInfo ref :
  getRev input = Ret origRev ->
  ends_well E (fun r : Input * Hash => rev_kept origRev r.1)
    (updateRev env input repoInfo ref).
Proof.
  intros H. unfold updateRev. rewrite H.
  change (lift (Ret origRev) ≫= ?f) with (f origRev). cbv beta.
  destruct origRev as [h|].
  - apply ends_ret. simpl. apply rev_kept_same; eauto.
  - ends_step; [ends_step|]. ends_step. apply ends_ret. simpl. apply rev_kept_found.
Qed.

Lemma ends_tryFetch repoInfo input ref repoDir :
  (shallow repoInfo = true -> getRev input = Ret None -> E "input.getRev()->gitRev()") ->
  ends_well E (fun _ => True) (tryFetch env repoInfo input ref repoDir).
Proof.
  intros HE. unfold tryFetch. ends_step.
  { destruct (shallow repoInfo); ends_auto. }
  ends_step; [|ends_auto].
  destruct (shallow repoInfo) eqn:Es; [|ends_auto].
  apply ends_lift_bind; [apply defined_getRev|]. intros [h|] Hr; [ends_auto|].
  intros tr o tr' [= <- _]. now apply HE.
Qed.


Lemma ends_decideFetch repoInfo input repoDir localRefFile now :
  ends_well E (fun _ => True) (decideFetch env repoInfo input repoDir localRefFile now).
Proof. unfold decideFetch. ends_auto. Qed.

Lemma ends_fetchIntoMirror repoInfo input originalRef ref repoDir localRefFile now :
  (shallow repoInfo = true -> getRev input = Ret None -> E "input.getRev()->gitRev()") ->
  ends_well E (fun _ => True)
    (fetchIntoMirror env repoInfo input originalRef ref repoDir localRefFile now).
Proof.
  intros HE. unfold fetchIntoMirror. ends_step; [|ends_auto].
  apply ends_try_catch; [now apply ends_tryFetch|].
  intros e k Hk. unfold fetchFailed in Hk. destruct (isError e); [|discriminate].
  injection Hk as <-. ends_auto.
Qed.

Lemma ends_updateMirror repoInfo origRev input originalRef ref cacheDir :
  getRev input = Ret origRev ->
  (shallow repoInfo = true -> origRev = None -> E "input.getRev()->gitRev()") ->
  ends_well E (rev_kept origRev)
    (updateMirror env repoInfo input originalRef ref cacheDir).
Proof.
  intros H HE. unfold updateMirror.
  ends_step; [ends_step|]. ends_step; [ends_auto|]. ends_step; [ends_step|].
  ends_step; [apply ends_decideFetch|]. ends_step.
  { destruct a2; [|ends_auto]. apply ends_fetchIntoMirror.
    intros Hs Hr. apply HE; [exact Hs | congruence]. }
  rewrite H. change (lift (Ret origRev) ≫= ?f) with (f origRev). cbv beta.
  destruct origRev as [h|].
  - apply ends_ret. apply rev_kept_same; eauto.
  - ends_step; [ends_step|]. ends_step. apply ends_ret. apply rev_kept_found.
Qed.

Hypothesis round_trip : forall s h, parseHash s = inr h -> parseHash (gitRev h) = inr h.

Lemma ends_resolveRemote repoInfo origRev name input unlockedAttrs originalRef ref :
  getRev input = Ret origRev ->
  (shallow repoInfo = true -> origRev = None -> E "input.getRev()->gitRev()") ->
  ends_well E
    (fun resolved : (Accessor * Input) + (Input * string * RepoInfo) =>
       match resolved with
       | inl _ => True
       | inr (input', _, _) => rev_kept origRev input'
       end)
    (resolveRemote env repoInfo origRev name input unlockedAttrs originalRef ref).
Proof.
  intros H HE. unfold resolveRemote. ends_step; [ends_step|].
  ends_step.
  { destruct a as [[infoAttrs storePath]|]; [|ends_auto].
    ends_step. ends_step. rewrite H. change (lift (Ret origRev) ≫= ?f) with (f origRev). cbv beta.
    destruct (negb (bool_decide (is_Some origRev)) || bool_decide (origRev = Some a0))
      eqn:Er; [|ends_auto].
    ends_step; [|ends_auto]. apply ends_makeResult.
    intros r. rewrite getRev_set_rev.
    match goal with
    | Hp : call (parseHash _) = Ret a0 |- _ =>
        destruct (parseHash a) as [e|h] eqn:Ep; [discriminate Hp|];
        simpl in Hp; injection Hp as ->
    end.
    rewrite (round_trip _ _ Ep). simpl. intros [= <-]. split; [eauto|].
    apply orb_true_iff in Er as [Er|Er].
    - left. destruct origRev; [|reflexivity].
      rewrite bool_decide_eq_true_2 in Er by eauto. discriminate.
    - right. now apply bool_decide_eq_true in Er. }
  destruct a0 as [result|]; [now apply ends_ret|].
  ends_step; [ends_step|]. ends_step; [ends_step|].
  eapply ends_bind; [apply ends_at_scope_exit, (ends_updateMirror _ origRev); assumption|].
  intros input' Hk. now apply ends_ret.
Qed.

Lemma ends_getAccessorFromCommit repoInfo input :
  isDirty repoInfo = false ->
  (shallow repoInfo = true -> isLocal repoInfo = false -> attrs input !! "rev" = None ->
   E "input.getRev()->gitRev()") ->
  ends_well E (fun _ => True) (getAccessorFromCommit env repoInfo input).
Proof.
  intros Hd HE. unfold getAccessorFromCommit. rewrite Hd.
  apply ends_lift_bind; [apply defined_getRev|]. intros origRev Horig.
  apply ends_lift_bind; [apply defined_getName|]. intros name _.
  eapply ends_bind with (Q := fun cached => is_Some cached -> is_Some origRev).
  { destruct origRev as [h|].
    - rewrite bool_decide_eq_true_2 by eauto.
      eapply ends_bind with (Q := fun _ => True).
      + apply ends_getLockedAttrs with (origRev := Some h). apply rev_kept_same; eauto.
      + intros lockedAttrs _. apply ends_always. intros tr. eexists _, _.
        split; [reflexivity|]. eauto.
    - rewrite bool_decide_eq_false_2 by (intros [? ?]; discriminate).
      apply ends_ret. intros [? ?]. discriminate. }
  intros [[cachedInfo storePath]|] Hc.
  { apply ends_makeResult. apply rev_kept_same; [exact Horig|]. apply Hc. eauto. }
  ends_step. ends_step; [unfold resolveRef; destruct a; [ends_auto|apply ends_getDefaultRef]|].
  assert (Horig' : getRev (set_attr input "ref" (AttrString a0)) = Ret origRev).
  { now rewrite getRev_set_other by discriminate. }
  eapply ends_bind with
    (Q := fun resolved : (Accessor * Input) + (Input * string * RepoInfo) =>
            match resolved with
            | inl _ => True
            | inr (input', _, _) => rev_kept origRev input'
            end).
  - destruct (isLocal repoInfo) eqn:El.
    + eapply ends_bind; [now apply (ends_updateRev origRev)|].
      intros [input' h] Hk. now apply ends_ret.
    + apply ends_resolveRemote; [exact Horig'|].
      intros Hs ->. apply HE; auto. now apply getRev_None.
  - intros [result|[[input' repoDir] repoInfo']] Hk; [now apply ends_ret|].
    now apply ends_finishCommit.
Qed.

Lemma ends_getRepoInfo input : ends_well E (fun _ => True) (getRepoInfo env input).
Proof.
  unfold getRepoInfo. ends_step. ends_step; [ends_auto|].
  ends_step.
  apply ends_lift_bind; [apply defined_getSubmodulesAttr|]. intros sm _.
  ends_step. ends_step. ends_step. ends_step; [ends_step|].
  ends_step.
  apply ends_lift_bind.
  { match goal with |- defined (if ?b then _ else _) => destruct b end;
      [exact I | apply defined_getRev]. }
  intros rev _. ends_auto.
Qed.

Lemma ends_getAccessorFromCheckout repoInfo input :
  ends_well E (fun _ => True) (getAccessorFromCheckout env repoInfo input).
Proof.
  unfold getAccessorFromCheckout. ends_step; [|ends_auto].
  destruct (isDirty repoInfo); cbn [negb]; [ends_auto|].
  ends_step; [apply ends_getDefaultRef|].
  ends_step; [unfold updateRev; ends_auto|]. destruct a0 as [input' rev].
  ends_step; [apply ends_getRevCount|]. ends_step; [apply ends_getLastModified|].
  ends_auto.
Qed.


End Safety.

Section Entry.
Context {X : Externals}.
Variable env : Env.

(** X28.  Provided that a hash that [parseHash] returns is parsed
    again from the text that [gitRev] prints, [getAccessor] fails none
    of the assertions of git.cc ([!repoInfo.isDirty] at line 509,
    [input.getRev()] and [!origRev || origRev == input.getRev()] at
    lines 526-527), and it reads through an empty optional only at
    [input.getRev()->gitRev()], and only for an input with [shallow =
    true] and no [rev]; in every other case it returns or throws. *)
Theorem getAccessor_fails_no_assertion (input : Input) :
  (forall s h, parseHash s = inr h -> parseHash (gitRev h) = inr h) ->
  ends_well (fun w => w = "input.getRev()->gitRev()"
                      /\ attrs input !! "shallow" = Some (AttrBool true)
                      /\ attrs input !! "rev" = None)
            (fun _ => True) (getAccessor env input).
Proof.
  intros round_trip. unfold getAccessor.
  eapply ends_bind with
    (Q := fun r => (isDirty r = true ->
                    attrs input !! "ref" = None /\ attrs input !! "rev" = None
                    /\ isLocal r = true)
                   /\ (shallow r = true -> attrs input !! "shallow" = Some (AttrBool true))).
  { apply ends_returns; [apply ends_getRepoInfo|].
    intros tr r tr' Hr. apply getRepoInfo_Ret in Hr
      as (sh & al & sm & s & parsed & Hsh & _ & _ & _ & _ & Es & _ & _ & _ & _ & _ & _
          & Hd & _).
    split.
    - intros Hdirty. destruct Hd as [Hd|(Hf & _)]; [exact Hd | congruence].
    - rewrite Es. now apply maybeGetBoolAttr_true. }
  intros repoInfo [Hdirty Hshallow].
  apply ends_lift_bind; [apply defined_maybeGetStrAttr|]. intros ref Href.
  apply ends_lift_bind.
  { destruct (bool_decide (is_Some ref)); [exact I | apply defined_getRev]. }
  intros rev Hrev.
  destruct (bool_decide (is_Some ref) || bool_decide (is_Some rev)
            || negb (isLocal repoInfo)) eqn:Ec;
    [|apply ends_getAccessorFromCheckout].
  apply ends_getAccessorFromCommit; [exact round_trip| |].
  - destruct (isDirty repoInfo) eqn:Ed; [|reflexivity].
    destruct (Hdirty eq_refl) as (Hnoref & Hnorev & Hlocal).
    apply maybeGetStrAttr_None in Hnoref. unfold getRef in Href.
    rewrite Hnoref in Href. injection Href as <-.
    rewrite bool_decide_eq_false_2 in Hrev, Ec by (intros [? ?]; discriminate).
    apply getRev_None in Hnorev. rewrite Hnorev in Hrev. injection Hrev as <-.
    rewrite bool_decide_eq_false_2 in Ec by (intros [? ?]; discriminate).
    rewrite Hlocal in Ec. discriminate.
  - intros Hs _ Hnorev. auto.
Qed.

End Entry.

(** The library of [Demo] parses a hash from what [gitRev] prints. *)
Lemma getAccessor_fails_no_assertion_witness :
  ends_well (fun w => w = "input.getRev()->gitRev()"
                      /\ attrs Demo.main_input !! "shallow" = Some (AttrBool true)
                      /\ attrs Demo.main_input !! "rev" = None)
            (fun _ => True)
            (getAccessor (X := Demo.library) (Demo.world Demo.fresh) Demo.main_input).
Proof.
  apply (getAccessor_fails_no_assertion (X := Demo.library) (Demo.world Demo.fresh)).
  intros s h Hp. unfold parseHash, Demo.library, Demo.parse_hash in *.
  destruct ((String.length s =? 40)%nat && Demo.all_hex s) eqn:Es; [|discriminate].
  injection Hp as <-. simpl. now rewrite Es.
Defined.

(** ** Temporary directories *)

Section TempLaws.
Context {X : Externals}.
Variable env : Env.

Lemma open_temps_app stack a b :
  open_temps stack (a ++ b) = open_temps stack a ≫= fun s => open_temps s b.
Proof.
  revert stack. induction a as [|ev a IH]; intros stack; [reflexivity|].
  destruct ev; simpl; rewrite ?IH; try reflexivity.
  destruct stack as [|d' stack]; [reflexivity|]. now destruct (String.eqb path d').
Qed.

Lemma open_temps_calm stack new :
  Forall (fun ev => is_temp_event ev = false) new -> open_temps stack new = Some stack.
Proof.
  induction 1 as [|ev new Hev _ IH]; [reflexivity|].
  destruct ev; try discriminate Hev; exact IH.
Qed.

Lemma cleans_up_calm {A} (c : M A) :
  emits (fun ev => is_temp_event ev = false) c -> cleans_up c.
Proof.
  intros H tr o tr' E. destruct (H _ _ _ E) as (new & -> & F).
  exists new. split; [reflexivity|]. intros _ stack. now apply open_temps_calm.
Qed.

Lemma cleans_up_bind {A B} (c : M A) (f : A -> M B) :
  cleans_up c -> (forall a, cleans_up (f a)) -> cleans_up (c ≫= f).
Proof.
  intros Hc Hf tr o tr' E. unfold mbind, M_bind in E.
  destruct (c tr) as [o1 t1] eqn:Ec.
  destruct (Hc _ _ _ Ec) as (n1 & -> & L1).
  destruct o1 as [a|e|w|w];
    try (injection E as <- <-; exists n1; split; [reflexivity | exact L1]).
  destruct (Hf a _ _ _ E) as (n2 & -> & L2).
  exists (n1 ++ n2)%list. split; [now rewrite app_assoc|].
  intros Hd stack. rewrite open_temps_app, (L1 I). simpl. now apply L2.
Qed.

(** A temporary directory with its [AutoDelete]. *)
Lemma cleans_up_temp {A} (body : string -> M A) :
  (forall d, cleans_up (body d)) ->
  cleans_up (d ← createTempDir env; at_scope_exit (body d) (EvDeletePath d)).
Proof.
  intros Hb tr o tr' E. rewrite bind_unfold in E. unfold createTempDir at 1 in E.
  cbv zeta in E. unfold at_scope_exit in E.
  set (d := temp_dir env tr) in *.
  destruct (body d (tr ++ [EvCreateTempDir d])%list) as [o1 t1] eqn:Eb.
  destruct (Hb d _ _ _ Eb) as (n & -> & L).
  destruct o1 as [a|e|w|w]; injection E as <- <-.
  - exists (EvCreateTempDir d :: n ++ [EvDeletePath d])%list.
    split; [now rewrite <- !app_assoc|]. intros _ stack. simpl.
    rewrite open_temps_app, (L I). simpl. now rewrite String.eqb_refl.
  - exists (EvCreateTempDir d :: n ++ [EvDeletePath d])%list.
    split; [now rewrite <- !app_assoc|]. intros _ stack. simpl.
    rewrite open_temps_app, (L I). simpl. now rewrite String.eqb_refl.
  - exists (EvCreateTempDir d :: n)%list. split; [now rewrite <- !app_assoc|]. intros [].
  - exists (EvCreateTempDir d :: n)%list. split; [now rewrite <- !app_assoc|]. intros [].
Qed.

Lemma cleans_up_checkoutSubmodules repoInfo input repoDir tmpDir :
  cleans_up (checkoutSubmodules env repoInfo input repoDir tmpDir).
Proof.
  unfold checkoutSubmodules. apply cleans_up_temp. intros d.
  apply cleans_up_calm. trace_auto.
Qed.

Lemma cleans_up_materialize repoInfo origRev name input unlockedAttrs infoAttrs ref
    repoDir rev :
  cleans_up (materialize env repoInfo origRev name input unlockedAttrs infoAttrs ref
               repoDir rev).
Proof.
  unfold materialize. destruct (submodules repoInfo); cbn [negb];
    [|apply cleans_up_calm; trace_auto].
  apply cleans_up_temp. intros d.
  apply cleans_up_bind; [apply cleans_up_calm; trace_auto|]. intros [status output].
  destruct (_ && _); [apply cleans_up_calm; trace_auto|].
  apply cleans_up_bind; [apply cleans_up_calm; trace_auto|]. intros s.
  apply cleans_up_bind.
  { apply cleans_up_bind; [apply cleans_up_checkoutSubmodules|]. intros [].
    apply cleans_up_calm. trace_auto. }
  intros filter. apply cleans_up_calm. trace_auto.
Qed.

(** X29.  When [getAccessorFromCommit] returns or throws, every
    temporary directory that it made has been deleted, the one made
    last first, and it has deleted no other path. *)
Theorem temporary_directories_are_deleted (repoInfo : RepoInfo) (input : Input) :
  cleans_up (getAccessorFromCommit env repoInfo input).
Proof.
  unfold getAccessorFromCommit.
  destruct (isDirty repoInfo); [apply cleans_up_calm; trace_auto|].
  apply cleans_up_bind; [apply cleans_up_calm; trace_auto|]. intros origRev.
  apply cleans_up_bind; [apply cleans_up_calm; trace_auto|]. intros name.
  apply cleans_up_bind; [apply cleans_up_calm; trace_auto|].
  intros [[cachedInfo storePath]|]; [apply cleans_up_calm; trace_auto|].
  apply cleans_up_bind; [apply cleans_up_calm; trace_auto|]. intros originalRef.
  apply cleans_up_bind; [apply cleans_up_calm; trace_auto|]. intros ref.
  apply cleans_up_bind; [apply cleans_up_calm; trace_auto|].
  intros [result|[[input' repoDir] repoInfo']]; [apply cleans_up_calm; trace_auto|].
  unfold finishCommit.
  apply cleans_up_bind; [apply cleans_up_calm; trace_auto|]. intros out.
  destruct (_ && _); [apply cleans_up_calm; trace_auto|].
  apply cleans_up_bind; [apply cleans_up_calm; trace_auto|]. intros [rev|];
    [|apply cleans_up_calm; trace_auto].
  apply cleans_up_bind; [apply cleans_up_calm; trace_auto|]. intros lastModified.
  apply cleans_up_bind; [apply cleans_up_calm; trace_auto|]. intros infoAttrs.
  apply cleans_up_bind; [apply cleans_up_calm; trace_auto|]. intros lockedAttrs.
  apply cleans_up_bind; [apply cleans_up_calm; trace_auto|].
  intros [[cachedInfo storePath]|]; [apply cleans_up_calm; trace_auto|].
  apply cleans_up_materialize.
Qed.

End TempLaws.

(** With submodules, in the world [fresh]: two temporary directories,
    both deleted. *)
Example temporary_directories_of_a_checkout :
  let tr := (getAccessorFromCommit (X := Demo.library) (Demo.world Demo.fresh)
               (Demo.remote_repo false true) Demo.main_input []).2 in
  length (List.filter (fun ev => match ev with EvCreateTempDir _ => true | _ => false end)
                      tr)
  = 2%nat
  /\ open_temps [] tr = Some [].
Proof. split; vm_compute; reflexivity. Qed.

End GitLaws.
